(** * University appointment scheduler: the booking engine of [mockApi.ts]

    A shallow embedding of [src/lib/mockApi.ts] and of the time helpers of
    [src/utils/helpers.ts], followed by the properties of the booking engine
    (seat accounting, validation order, cancellation policy, overlap test).

    Conventions of the embedding:
    - an ISO date string is represented by the time value that
      [new Date(iso).getTime()] yields: [Some ms] for a valid date, [None]
      for [NaN] (an invalid date);
    - every read of the system clock ([new Date()]) is an explicit argument;
    - [uid()] is an explicit argument (the identifier it returned);
    - [localStorage] is an explicit store threaded through every operation;
      a thrown [Error] keeps whatever was saved before the throw;
    - the API is given twice: first over a [localStorage] that accepts every
      read and write, then (module [Io]) over one whose [getItem] and
      [setItem] may throw, which rejects the call after whatever it has
      saved so far;
    - the simulated network delay and the console output are left out. *)

From Stdlib Require Import ZArith QArith Qround Lia.
From stdpp Require Import base decidable option list strings numbers pretty.

Local Open Scope Z_scope.

(** ** JavaScript values used by the engine *)

(** [Date.prototype.getTime()]: milliseconds since the epoch, or NaN. *)
Definition TimeValue : Type := option Z.

(** [a < b] on numbers: false as soon as one side is NaN. *)
Definition num_lt (a b : TimeValue) : bool :=
  match a, b with
  | Some x, Some y => bool_decide (x < y)
  | _, _ => false
  end.

(** [a >= b] on numbers: false as soon as one side is NaN. *)
Definition num_ge (a b : TimeValue) : bool :=
  match a, b with
  | Some x, Some y => bool_decide (y ≤ x)
  | _, _ => false
  end.

(** [arr[i] = x] where [i] comes from [findIndex]: [None] stands for [-1],
    for which JavaScript sets a property named "-1" and leaves the elements
    (and the JSON image of the array) as they are. *)
Definition array_set {A} (arr : list A) (i : option nat) (x : A) : list A :=
  match i with
  | Some n => <[n:=x]> arr
  | None => arr
  end.

(** [arr.findIndex(p)]; [None] stands for [-1]. *)
Definition array_findIndex {A} (P : A → Prop) `{∀ x, Decision (P x)}
    (arr : list A) : option nat :=
  fst <$> list_find P arr.

(** [arr.find(p)]; [None] stands for [undefined]. *)
Definition array_find {A} (P : A → Prop) `{∀ x, Decision (P x)}
    (arr : list A) : option A :=
  snd <$> list_find P arr.

(** ** Data model ([src/types]) *)

Inductive Role := STUDENT | TEACHER.

Inductive Status := BOOKED | CANCELLED | ATTENDED.

#[global] Instance Role_eq_dec : EqDecision Role.
Proof. solve_decision. Defined.

#[global] Instance Status_eq_dec : EqDecision Status.
Proof. solve_decision. Defined.

Module User.
Record t := mk {
  id : string;
  name : string;
  role : Role;
  email : string;
  phone : option string
}.
End User.

Module Slot.
Record t := mk {
  id : string;
  teacherId : string;
  startISO : TimeValue;
  endISO : TimeValue;
  location : string;
  maxSeats : Z;
  availableSeats : Z
}.

(** [slot.availableSeats = v] *)
Definition set_availableSeats (v : Z) (s : t) : t :=
  mk (id s) (teacherId s) (startISO s) (endISO s) (location s) (maxSeats s) v.
End Slot.

(** [Omit<Slot, "id">], the argument of [createSlot]. *)
Module SlotData.
Record t := mk {
  teacherId : string;
  startISO : TimeValue;
  endISO : TimeValue;
  location : string;
  maxSeats : Z;
  availableSeats : Z
}.
End SlotData.

Module Appointment.
Record t := mk {
  id : string;
  slotId : string;
  studentId : string;
  status : Status;
  notes : option string;
  createdAt : Z;
  cancelledAt : option Z
}.

(** [appointment.status = v] *)
Definition set_status (v : Status) (a : t) : t :=
  mk (id a) (slotId a) (studentId a) v (notes a) (createdAt a) (cancelledAt a).

(** [appointment.cancelledAt = v] *)
Definition set_cancelledAt (v : Z) (a : t) : t :=
  mk (id a) (slotId a) (studentId a) (status a) (notes a) (createdAt a) (Some v).
End Appointment.

(** ** Time helpers ([src/utils/helpers.ts]) *)

(** [(slotStart.getTime() - now.getTime()) / (1000 * 60 * 60)].  Time
    values are integers; the quotient is taken here as the exact rational.
    Rounding to a double is monotone, and one hour and 24 hours in
    milliseconds as well as [1] and [24] are doubles with other doubles next
    to them on either side, so the comparisons [> 1] and [> 24] below give
    what they give on doubles. *)
Definition hoursUntilSlot (slotStart : TimeValue) (now : Z) : option Q :=
  (λ t, inject_Z (t - now) / inject_Z (1000 * 60 * 60))%Q <$> slotStart.

(** [hours > bound], false for NaN. *)
Definition hours_gt (hours : option Q) (bound : Q) : bool :=
  match hours with
  | Some h => if Qlt_le_dec bound h then true else false
  | None => false
  end.

Definition isWithinCancellationWindow (slotStartISO : TimeValue) (now : Z) : bool :=
  hours_gt (hoursUntilSlot slotStartISO now) 24.

Definition isBookingAllowed (slotStartISO : TimeValue) (now : Z) : bool :=
  hours_gt (hoursUntilSlot slotStartISO now) 1.

Definition slotsOverlap (start1 end1 start2 end2 : TimeValue) : bool :=
  let s1 := start1 in
  let e1 := end1 in
  let s2 := start2 in
  let e2 := end2 in
  num_lt s1 e2 && num_lt s2 e1.

(** ** The store and the monad of API calls *)

(** The three collections of [localStorage] the engine uses; an absent key
    reads as the empty array. *)
Record Store := mkStore {
  uas_users : list User.t;
  uas_slots : list Slot.t;
  uas_appointments : list Appointment.t
}.

(** [STORAGE_KEYS], indexed by the type of the records stored under the key. *)
Inductive STORAGE_KEYS : Type → Type :=
  | USERS : STORAGE_KEYS User.t
  | SLOTS : STORAGE_KEYS Slot.t
  | APPOINTMENTS : STORAGE_KEYS Appointment.t.

(** [new Error(message)] *)
Inductive Error := mkError (message : string).

#[global] Instance Error_eq_dec : EqDecision Error.
Proof. solve_decision. Defined.

(** How the promise of an API call settles. *)
Inductive Outcome (A : Type) :=
  | Resolved (a : A)
  | Rejected (e : Error).
Arguments Resolved {A} a.
Arguments Rejected {A} e.

(** An API call: from the store before the call to the store after it and
    the way the promise settles. *)
Definition Api (A : Type) : Type := Store → Store * Outcome A.

Definition ret {A} (a : A) : Api A := λ st, (st, Resolved a).

Definition throw {A} (e : Error) : Api A := λ st, (st, Rejected e).

Definition bind {A B} (m : Api A) (k : A → Api B) : Api B :=
  λ st, match m st with
        | (st', Resolved a) => k a st'
        | (st', Rejected e) => (st', Rejected e)
        end.

Notation "'let!' x ':=' m 'in' k" := (bind m (λ x, k))
  (at level 10, x name, m at level 100, k at level 200).
Notation "m ';;' k" := (bind m (λ _, k))
  (at level 100, k at level 200, right associativity).

(** [getFromStorage] and [saveToStorage] over a [localStorage] that accepts
    every read and write; [Io.getFromStorage] and [Io.saveToStorage] below
    are the same two functions over one that may throw. *)
Definition getFromStorage {T} (key : STORAGE_KEYS T) : Api (list T) :=
  λ st, (st, Resolved (match key in STORAGE_KEYS T return list T with
                       | USERS => uas_users st
                       | SLOTS => uas_slots st
                       | APPOINTMENTS => uas_appointments st
                       end)).

Definition saveToStorage {T} (key : STORAGE_KEYS T) : list T → Api unit :=
  match key in STORAGE_KEYS T return list T → Api unit with
  | USERS => λ data st,
      (mkStore data (uas_slots st) (uas_appointments st), Resolved tt)
  | SLOTS => λ data st,
      (mkStore (uas_users st) data (uas_appointments st), Resolved tt)
  | APPOINTMENTS => λ data st,
      (mkStore (uas_users st) (uas_slots st) data, Resolved tt)
  end.

(** ** The errors thrown by the engine, by the message they carry *)

Definition InvalidTeacher : Error :=
  mkError "Invalid teacher ID or user is not a teacher".
Definition InvalidTimeRange : Error :=
  mkError "End time must be after start time".
Definition OverlappingSlot : Error :=
  mkError "This slot overlaps with an existing slot".
Definition InvalidStudent : Error :=
  mkError "Invalid student ID or user is not a student".
Definition SlotNotFound : Error :=
  mkError "Slot not found".
Definition SlotFull : Error :=
  mkError "This slot is fully booked".
Definition TooLateToBook : Error :=
  mkError "Cannot book appointments less than 1 hour before start time".
Definition ConflictingAppointment : Error :=
  mkError "You have a conflicting appointment at this time".
Definition AppointmentNotFound : Error :=
  mkError "Appointment not found".
Definition AssociatedSlotNotFound : Error :=
  mkError "Associated slot not found".
Definition NotAuthorized : Error :=
  mkError "You are not authorized to cancel this appointment".
Definition TooLateToCancel : Error :=
  mkError "Cannot cancel within 24 hours of appointment time".

(** ** Slot API *)

(** [createSlot(slotData)]; [newId] is the value of [uid()]. *)
Definition createSlot (newId : string) (slotData : SlotData.t) : Api Slot.t :=
  let! users := getFromStorage USERS in
  match array_find (λ u, User.id u = SlotData.teacherId slotData
                          ∧ User.role u = TEACHER) users with
  | None => throw InvalidTeacher
  | Some teacher =>
    if num_ge (SlotData.startISO slotData) (SlotData.endISO slotData)
    then throw InvalidTimeRange
    else
      let! slots := getFromStorage SLOTS in
      match array_find
              (λ s, Slot.teacherId s = SlotData.teacherId slotData
                    ∧ slotsOverlap (Slot.startISO s) (Slot.endISO s)
                        (SlotData.startISO slotData)
                        (SlotData.endISO slotData) = true) slots with
      | Some overlap => throw OverlappingSlot
      | None =>
        let newSlot :=
          Slot.mk newId (SlotData.teacherId slotData)
            (SlotData.startISO slotData) (SlotData.endISO slotData)
            (SlotData.location slotData) (SlotData.maxSeats slotData)
            (SlotData.maxSeats slotData) in
        let slots := slots ++ [newSlot] in
        saveToStorage SLOTS slots ;;
        ret newSlot
      end
  end.

(** ** Appointment API *)

(** The [for (const appt of studentAppointments)] loop of [bookAppointment]:
    throws at the first appointment whose slot exists and overlaps [slot]. *)
Fixpoint checkConflicts (slots : list Slot.t) (slot : Slot.t)
    (studentAppointments : list Appointment.t) : Api unit :=
  match studentAppointments with
  | [] => ret tt
  | appt :: rest =>
    match array_find (λ s, Slot.id s = Appointment.slotId appt) slots with
    | Some apptSlot =>
      if slotsOverlap (Slot.startISO slot) (Slot.endISO slot)
           (Slot.startISO apptSlot) (Slot.endISO apptSlot)
      then throw ConflictingAppointment
      else checkConflicts slots slot rest
    | None => checkConflicts slots slot rest
    end
  end.

(** [bookAppointment(slotId, studentId, notes)]; [newId] is the value of
    [uid()], [now] the clock read by [isBookingAllowed], [stamp] the clock
    read for [createdAt]. *)
Definition bookAppointment (newId : string) (now stamp : Z)
    (slotId studentId : string) (notes : option string) : Api Appointment.t :=
  let! users := getFromStorage USERS in
  match array_find (λ u, User.id u = studentId ∧ User.role u = STUDENT) users with
  | None => throw InvalidStudent
  | Some student =>
    let! slots := getFromStorage SLOTS in
    match list_find (λ s, Slot.id s = slotId) slots with
    | None => throw SlotNotFound
    | Some (slotRef, slot) =>
      if bool_decide (Slot.availableSeats slot ≤ 0) then throw SlotFull
      else if negb (isBookingAllowed (Slot.startISO slot) now)
      then throw TooLateToBook
      else
        let! appointments := getFromStorage APPOINTMENTS in
        let studentAppointments :=
          filter (λ a, Appointment.studentId a = studentId
                       ∧ Appointment.status a = BOOKED) appointments in
        checkConflicts slots slot studentAppointments ;;
        let newAppointment :=
          Appointment.mk newId slotId studentId BOOKED notes stamp None in
        let appointments := appointments ++ [newAppointment] in
        saveToStorage APPOINTMENTS appointments ;;
        (* [slot] aliases [slots[slotRef]]: the decrement is in place *)
        let slot := Slot.set_availableSeats (Slot.availableSeats slot - 1) slot in
        let slots := <[slotRef:=slot]> slots in
        let slotIndex := array_findIndex (λ s, Slot.id s = slotId) slots in
        let slots := array_set slots slotIndex slot in
        saveToStorage SLOTS slots ;;
        ret newAppointment
    end
  end.

(** [cancelAppointment(appointmentId, userId)]; [now] is the clock read by
    [isWithinCancellationWindow], [stamp] the clock read for [cancelledAt]. *)
Definition cancelAppointment (now stamp : Z)
    (appointmentId userId : string) : Api unit :=
  let! appointments := getFromStorage APPOINTMENTS in
  match list_find (λ a, Appointment.id a = appointmentId) appointments with
  | None => throw AppointmentNotFound
  | Some (appointmentIndex, appointment) =>
    let! slots := getFromStorage SLOTS in
    match list_find (λ s, Slot.id s = Appointment.slotId appointment) slots with
    | None => throw AssociatedSlotNotFound
    | Some (slotRef, slot) =>
      if bool_decide (Appointment.studentId appointment ≠ userId)
         && bool_decide (Slot.teacherId slot ≠ userId)
      then throw NotAuthorized
      else if bool_decide (Appointment.studentId appointment = userId)
              && negb (isWithinCancellationWindow (Slot.startISO slot) now)
      then throw TooLateToCancel
      else
        let appointments :=
          alter (Appointment.set_status CANCELLED) appointmentIndex appointments in
        let appointments :=
          alter (Appointment.set_cancelledAt stamp) appointmentIndex appointments in
        saveToStorage APPOINTMENTS appointments ;;
        (* [slot] aliases [slots[slotRef]]: the increment is in place *)
        let slot := Slot.set_availableSeats (Slot.availableSeats slot + 1) slot in
        let slots := <[slotRef:=slot]> slots in
        let slotIndex :=
          array_findIndex (λ s, Slot.id s = Appointment.slotId appointment) slots in
        let slots := array_set slots slotIndex slot in
        saveToStorage SLOTS slots
    end
  end.

(** [markAttended(appointmentId)] *)
Definition markAttended (appointmentId : string) : Api unit :=
  let! appointments := getFromStorage APPOINTMENTS in
  match array_findIndex (λ a, Appointment.id a = appointmentId) appointments with
  | None => throw AppointmentNotFound
  | Some appointmentIndex =>
    let appointments :=
      alter (Appointment.set_status ATTENDED) appointmentIndex appointments in
    saveToStorage APPOINTMENTS appointments
  end.

(** ** A demo store for the worked examples *)

Definition hour : Z := 1000 * 60 * 60.

Definition minute : Z := 1000 * 60.

Definition demo_users : list User.t :=
  [ User.mk "student1" "Alice Johnson" STUDENT "alice@university.edu" None;
    User.mk "student2" "Bob Martinez" STUDENT "bob@university.edu" None;
    User.mk "teacher1" "Dr. Robert Smith" TEACHER "smith@university.edu" None ].

Definition demo_empty : Store := mkStore demo_users [] [].

(** A one-seat slot of [teacher1] from hour 100 to hour 101. *)
Definition demo_slotData : SlotData.t :=
  SlotData.mk "teacher1" (Some (100 * hour)) (Some (101 * hour)) "Room 1" 1 1.

(** That slot, stored as "s1", with the given number of available seats. *)
Definition demo_slot_s1 (availableSeats : Z) : Slot.t :=
  Slot.mk "s1" "teacher1" (Some (100 * hour)) (Some (101 * hour)) "Room 1" 1
    availableSeats.

(** The appointment "a1" of [student1] for "s1", booked at time 0. *)
Definition demo_appt_a1 (status : Status) (cancelledAt : option Z) : Appointment.t :=
  Appointment.mk "a1" "s1" "student1" status None 0 cancelledAt.

Definition demo_a1 : Appointment.t := demo_appt_a1 BOOKED None.

Definition demo_s1 : Slot.t := demo_slot_s1 0.

(** The store after [teacher1] published "s1", *)
Definition demo_slot : Store :=
  mkStore demo_users [demo_slot_s1 1] [].

(** after [student1] booked it, *)
Definition demo_booked : Store :=
  mkStore demo_users [demo_slot_s1 0] [demo_appt_a1 BOOKED None].

(** after [teacher1] then cancelled the appointment (at time 1), *)
Definition demo_cancelled : Store :=
  mkStore demo_users [demo_slot_s1 1] [demo_appt_a1 CANCELLED (Some 1)].

(** after [teacher1] cancelled it a second time (at time 2), *)
Definition demo_cancelled_twice : Store :=
  mkStore demo_users [demo_slot_s1 2] [demo_appt_a1 CANCELLED (Some 2)].

(** and [demo_booked] after the appointment was marked attended instead. *)
Definition demo_attended : Store :=
  mkStore demo_users [demo_slot_s1 0] [demo_appt_a1 ATTENDED None].

(** A store whose only appointment outlived its slot (cancelled, then the
    slot was deleted). *)
Definition demo_orphan : Store :=
  mkStore demo_users [] [demo_appt_a1 CANCELLED (Some 1)].

(** ** Predicates and stores used in the statements *)

(** Some appointment of [appts] has an existing slot overlapping [slot]. *)
Definition conflicting (slots : list Slot.t) (slot : Slot.t)
    (appts : list Appointment.t) : Prop :=
  ∃ appt apptSlot,
    appt ∈ appts
    ∧ array_find (λ s, Slot.id s = Appointment.slotId appt) slots = Some apptSlot
    ∧ slotsOverlap (Slot.startISO slot) (Slot.endISO slot)
        (Slot.startISO apptSlot) (Slot.endISO apptSlot) = true.

(** The BOOKED appointments of a student, as [bookAppointment] filters them. *)
Definition studentAppointments (studentId : string)
    (appointments : list Appointment.t) : list Appointment.t :=
  filter (λ a, Appointment.studentId a = studentId
               ∧ Appointment.status a = BOOKED) appointments.

(** The store a successful [bookAppointment] leaves. *)
Definition booked_store (st : Store) (slotRef : nat) (slot : Slot.t)
    (newAppointment : Appointment.t) : Store :=
  mkStore (uas_users st)
    (<[slotRef:=Slot.set_availableSeats (Slot.availableSeats slot - 1) slot]>
       (uas_slots st))
    (uas_appointments st ++ [newAppointment]).

(** The store a successful [cancelAppointment] leaves. *)
Definition cancelled_store (st : Store) (stamp : Z) (appointmentIndex : nat)
    (slotRef : nat) (slot : Slot.t) : Store :=
  mkStore (uas_users st)
    (<[slotRef:=Slot.set_availableSeats (Slot.availableSeats slot + 1) slot]>
       (uas_slots st))
    (alter (Appointment.set_cancelledAt stamp) appointmentIndex
       (alter (Appointment.set_status CANCELLED) appointmentIndex
          (uas_appointments st))).

(** The store a successful [markAttended] leaves. *)
Definition attended_store (st : Store) (appointmentIndex : nat) : Store :=
  mkStore (uas_users st) (uas_slots st)
    (alter (Appointment.set_status ATTENDED) appointmentIndex
       (uas_appointments st)).

(** [x] is the first element of [arr] satisfying [P], at index [i]: what
    [arr.find(p)] and [arr.findIndex(p)] return together. *)
Definition first_match {A} (P : A → Prop) (arr : list A) (i : nat) (x : A) : Prop :=
  arr !! i = Some x ∧ P x ∧ ∀ j y, arr !! j = Some y → (j < i)%nat → ¬ P y.

(** [studentId] is the id of a user with role STUDENT. *)
Definition valid_student (st : Store) (studentId : string) : Prop :=
  ∃ u, u ∈ uas_users st ∧ User.id u = studentId ∧ User.role u = STUDENT.

(** The student holds a BOOKED appointment whose slot exists and overlaps
    the range of [slot]. *)
Definition student_conflict (st : Store) (studentId : string) (slot : Slot.t) : Prop :=
  ∃ appt i apptSlot,
    appt ∈ uas_appointments st
    ∧ Appointment.studentId appt = studentId
    ∧ Appointment.status appt = BOOKED
    ∧ first_match (λ s, Slot.id s = Appointment.slotId appt) (uas_slots st) i apptSlot
    ∧ slotsOverlap (Slot.startISO slot) (Slot.endISO slot)
        (Slot.startISO apptSlot) (Slot.endISO apptSlot) = true.

(** The other messages thrown by the slot and appointment API. *)
Definition SlotHasBookings_update : Error :=
  mkError "Cannot change time of a slot that has bookings".
Definition SlotHasBookings_delete : Error :=
  mkError "Cannot delete a slot that has bookings".

(** Every error of the slot and appointment API except the one
    [cancelAppointment] throws for a missing slot. *)
Definition other_api_errors : list Error :=
  [ InvalidTeacher; InvalidTimeRange; OverlappingSlot; SlotNotFound;
    SlotHasBookings_update; SlotHasBookings_delete; InvalidStudent; SlotFull;
    TooLateToBook; ConflictingAppointment; AppointmentNotFound; NotAuthorized;
    TooLateToCancel ].

(** The number of BOOKED appointments that reference the slot [slotId]. *)
Definition booked_count (slotId : string) (appointments : list Appointment.t) : Z :=
  Z.of_nat (length (filter (λ a, Appointment.slotId a = slotId
                                 ∧ Appointment.status a = BOOKED) appointments)).

(** 1 when [a] is a BOOKED appointment of the slot [slotId], else 0. *)
Definition holds_seat (slotId : string) (a : Appointment.t) : Z :=
  if decide (Appointment.slotId a = slotId ∧ Appointment.status a = BOOKED)
  then 1 else 0.

(** [availableSeats = maxSeats - |BOOKED appointments of the slot|]. *)
Definition seat_accounting (st : Store) : Prop :=
  ∀ s, s ∈ uas_slots st →
    Slot.availableSeats s
    = Slot.maxSeats s - booked_count (Slot.id s) (uas_appointments st).

(** [0 ≤ availableSeats ≤ maxSeats] for every slot. *)
Definition seats_in_bounds (st : Store) : Prop :=
  ∀ s, s ∈ uas_slots st → 0 ≤ Slot.availableSeats s ≤ Slot.maxSeats s.

(** No two slots share an id. *)
Definition unique_slot_ids (st : Store) : Prop :=
  NoDup (Slot.id <$> uas_slots st).

(** One book/cancel cycle: the arguments, the [uid()] and the clock reads
    of a [bookAppointment] and of the [cancelAppointment] of the appointment
    it returned. *)
Record Cycle := mkCycle {
  cy_newId : string;
  cy_bookNow : Z;
  cy_bookStamp : Z;
  cy_slotId : string;
  cy_studentId : string;
  cy_notes : option string;
  cy_cancelNow : Z;
  cy_cancelStamp : Z;
  cy_userId : string
}.

Definition book_then_cancel (c : Cycle) : Api unit :=
  let! appt := bookAppointment (cy_newId c) (cy_bookNow c) (cy_bookStamp c)
                 (cy_slotId c) (cy_studentId c) (cy_notes c) in
  cancelAppointment (cy_cancelNow c) (cy_cancelStamp c)
    (Appointment.id appt) (cy_userId c).

Fixpoint book_cancel_cycles (cs : list Cycle) : Api unit :=
  match cs with
  | [] => ret tt
  | c :: cs' => book_then_cancel c ;; book_cancel_cycles cs'
  end.

(** Three cycles on the slot "s1", by two students, cancelled by the student
    (more than 24 hours ahead) or by the teacher. *)
Definition demo_cycles : list Cycle :=
  [ mkCycle "a1" 0 0 "s1" "student1" None (10 * hour) (10 * hour) "student1";
    mkCycle "a2" (11 * hour) (11 * hour) "s1" "student2" (Some "project review")
      (90 * hour) (90 * hour) "teacher1";
    mkCycle "a3" (91 * hour) (91 * hour) "s1" "student1" None
      (98 * hour) (98 * hour) "teacher1" ].

(** ** The rest of [src/utils/helpers.ts] and [src/lib/mockApi.ts] *)

(** [arr.some(p)] *)
Definition array_some {A} (P : A → Prop) `{∀ x, Decision (P x)}
    (arr : list A) : bool :=
  bool_decide (Exists P arr).

(** [isPastSlot(slotEndISO)]: [slotEnd < now] on two [Date] objects compares
    their time values. *)
Definition isPastSlot (slotEndISO : TimeValue) (now : Z) : bool :=
  num_lt slotEndISO (Some now).

(** [a < b] on a possibly NaN quotient. *)
Definition q_lt (a : option Q) (b : Q) : bool :=
  match a with
  | Some x => if Qlt_le_dec x b then true else false
  | None => false
  end.

(** [Math.floor], NaN for NaN. *)
Definition Math_floor (a : option Q) : option Z := Qfloor <$> a.

(** A number inside a template literal: decimal digits, ["NaN"] for NaN. *)
Definition number_to_string (n : option Z) : string :=
  match n with
  | Some z => pretty z
  | None => "NaN"
  end.

(** [getRelativeTime(isoString)], [now] being the clock it reads.  The
    quotients are exact rationals as in [hoursUntilSlot]: [Math.floor] is
    only reached for quotients below 24 (hours) or 7 (days), where a double
    cannot round across an integer. *)
Definition getRelativeTime (isoString : TimeValue) (now : Z) : string :=
  let diffMs : option Z := (λ t, t - now) <$> isoString in
  let diffHours : option Q :=
    (λ d, inject_Z (Z.abs d) / inject_Z (1000 * 60 * 60))%Q <$> diffMs in
  let diffDays : option Q :=
    (λ d, inject_Z (Z.abs d) / inject_Z (1000 * 60 * 60 * 24))%Q <$> diffMs in
  if num_lt (Some 0) diffMs then
    if q_lt diffHours 1 then "in less than 1 hour"
    else if q_lt diffHours 24
    then "in " +:+ number_to_string (Math_floor diffHours) +:+ " hours"
    else if q_lt diffDays 7
    then "in " +:+ number_to_string (Math_floor diffDays) +:+ " days"
    else "in over a week"
  else
    if q_lt diffHours 1 then "less than 1 hour ago"
    else if q_lt diffHours 24
    then number_to_string (Math_floor diffHours) +:+ " hours ago"
    else if q_lt diffDays 7
    then number_to_string (Math_floor diffDays) +:+ " days ago"
    else "over a week ago".

Definition UserNotFound : Error := mkError "User not found".
Definition UserAlreadyExists : Error := mkError "User already exists".

(** [getUsers()] *)
Definition getUsers : Api (list User.t) :=
  let! users := getFromStorage USERS in
  ret users.

(** [getUserById(userId)]; [None] is [null]. *)
Definition getUserById (userId : string) : Api (option User.t) :=
  let! users := getFromStorage USERS in
  let user := array_find (λ u, User.id u = userId) users in
  ret user.

(** [createUser(user)] *)
Definition createUser (user : User.t) : Api User.t :=
  let! users := getFromStorage USERS in
  if array_some (λ u, User.id u = User.id user
                      ∨ User.email u = User.email user) users
  then throw UserAlreadyExists
  else
    let users := users ++ [user] in
    saveToStorage USERS users ;;
    ret user.

(** [SlotWithTeacher]: a slot with its [teacher] property. *)
Module SlotWithTeacher.
Record t := mk {
  slot : Slot.t;
  teacher : User.t
}.
End SlotWithTeacher.

(** The placeholder of [getSlotById] and [getSlots] for a missing teacher. *)
Definition unknown_teacher : User.t :=
  User.mk "" "Unknown" TEACHER "" None.

(** [getSlotById(slotId)]; [None] is [null]. *)
Definition getSlotById (slotId : string) : Api (option SlotWithTeacher.t) :=
  let! slots := getFromStorage SLOTS in
  let! users := getFromStorage USERS in
  match array_find (λ s, Slot.id s = slotId) slots with
  | None => ret None
  | Some slot =>
    let teacher := array_find (λ u, User.id u = Slot.teacherId slot) users in
    let enrichedSlot :=
      SlotWithTeacher.mk slot (default unknown_teacher teacher) in
    ret (Some enrichedSlot)
  end.

(** An optional ISO string property of an update, by what [updateSlot] looks
    at: absent; present but falsy, which is the empty string (or an explicit
    [undefined], dropped when saved): either way the stored slot then has an
    invalid date there; or a non-empty string with its time value. *)
Inductive IsoUpdate :=
  | iso_absent
  | iso_falsy
  | iso_string (t : TimeValue).

(** Truthiness of the property. *)
Definition iso_truthy (u : IsoUpdate) : bool :=
  match u with
  | iso_string _ => true
  | _ => false
  end.

(** The field after [{...slot, ...updates}]. *)
Definition iso_spread (old : TimeValue) (u : IsoUpdate) : TimeValue :=
  match u with
  | iso_absent => old
  | iso_falsy => None
  | iso_string t => t
  end.

(** [Partial<Omit<Slot, "id" | "teacherId">>], the argument of [updateSlot];
    the other properties are absent ([None]) or carry a value. *)
Module SlotUpdates.
Record t := mk {
  startISO : IsoUpdate;
  endISO : IsoUpdate;
  location : option string;
  maxSeats : option Z;
  availableSeats : option Z
}.

(** [{...slot, ...updates}] *)
Definition spread (slot : Slot.t) (updates : t) : Slot.t :=
  Slot.mk (Slot.id slot) (Slot.teacherId slot)
    (iso_spread (Slot.startISO slot) (startISO updates))
    (iso_spread (Slot.endISO slot) (endISO updates))
    (default (Slot.location slot) (location updates))
    (default (Slot.maxSeats slot) (maxSeats updates))
    (default (Slot.availableSeats slot) (availableSeats updates)).
End SlotUpdates.

(** [appointments.some(a => a.slotId === slotId && a.status === "BOOKED")] *)
Definition hasBookings (slotId : string) (appointments : list Appointment.t) : bool :=
  array_some (λ a, Appointment.slotId a = slotId
                   ∧ Appointment.status a = BOOKED) appointments.

(** [updateSlot(slotId, updates)] *)
Definition updateSlot (slotId : string) (updates : SlotUpdates.t) : Api Slot.t :=
  let! slots := getFromStorage SLOTS in
  match list_find (λ s, Slot.id s = slotId) slots with
  | None => throw SlotNotFound
  | Some (slotIndex, slot) =>
    let! appointments := getFromStorage APPOINTMENTS in
    if hasBookings slotId appointments
       && (iso_truthy (SlotUpdates.startISO updates)
           || iso_truthy (SlotUpdates.endISO updates))
    then throw SlotHasBookings_update
    else
      let updated := SlotUpdates.spread slot updates in
      let slots := <[slotIndex:=updated]> slots in
      saveToStorage SLOTS slots ;;
      ret updated
  end.

(** [deleteSlot(slotId)] *)
Definition deleteSlot (slotId : string) : Api unit :=
  let! slots := getFromStorage SLOTS in
  match array_findIndex (λ s, Slot.id s = slotId) slots with
  | None => throw SlotNotFound
  | Some slotIndex =>
    let! appointments := getFromStorage APPOINTMENTS in
    if hasBookings slotId appointments
    then throw SlotHasBookings_delete
    else
      let slots := delete slotIndex slots in
      saveToStorage SLOTS slots
  end.

(** [AppointmentWithDetails]: an appointment with its [slot] ([None] for the
    empty object put in place of a missing slot), [student] and [teacher]
    ([None] for [undefined]). *)
Module AppointmentWithDetails.
Record t := mk {
  appointment : Appointment.t;
  slot : option Slot.t;
  student : option User.t;
  teacher : option User.t
}.
End AppointmentWithDetails.

(** The body of the [map] of [getUserAppointments] and [getSlotAppointments]. *)
Definition enrich (slots : list Slot.t) (users : list User.t)
    (appt : Appointment.t) : AppointmentWithDetails.t :=
  let slot := array_find (λ s, Slot.id s = Appointment.slotId appt) slots in
  let student := array_find (λ u, User.id u = Appointment.studentId appt) users in
  let teacher :=
    match slot with
    | Some slot => array_find (λ u, User.id u = Slot.teacherId slot) users
    | None => None
    end in
  AppointmentWithDetails.mk appt slot student teacher.

(** [getUserAppointments(userId, role)] *)
Definition getUserAppointments (userId : string) (role : Role)
    : Api (list AppointmentWithDetails.t) :=
  let! appointments := getFromStorage APPOINTMENTS in
  let! slots := getFromStorage SLOTS in
  let! users := getFromStorage USERS in
  let filteredAppointments :=
    match role with
    | STUDENT => filter (λ a, Appointment.studentId a = userId) appointments
    | TEACHER =>
      let teacherSlots := filter (λ s, Slot.teacherId s = userId) slots in
      let slotIds := Slot.id <$> teacherSlots in
      filter (λ a, Appointment.slotId a ∈ slotIds) appointments
    end in
  let enrichedAppointments := enrich slots users <$> filteredAppointments in
  ret enrichedAppointments.

(** [getSlotAppointments(slotId)] *)
Definition getSlotAppointments (slotId : string)
    : Api (list AppointmentWithDetails.t) :=
  let! appointments := getFromStorage APPOINTMENTS in
  let! users := getFromStorage USERS in
  let! slots := getFromStorage SLOTS in
  let slotAppointments :=
    filter (λ a, Appointment.slotId a = slotId) appointments in
  let enrichedAppointments := enrich slots users <$> slotAppointments in
  ret enrichedAppointments.

(** [localStorage] with the session key [uas_currentUser] beside the three
    collections. *)
Record LocalStorage := mkLocalStorage {
  ls_store : Store;
  uas_currentUser : option User.t
}.

(** [login(userId)] *)
Definition login (userId : string) (ls : LocalStorage)
    : LocalStorage * Outcome User.t :=
  let users := uas_users (ls_store ls) in
  match array_find (λ u, User.id u = userId) users with
  | None => (ls, Rejected UserNotFound)
  | Some user => (mkLocalStorage (ls_store ls) (Some user), Resolved user)
  end.

(** [getCurrentUser()] *)
Definition getCurrentUser (ls : LocalStorage) : option User.t :=
  uas_currentUser ls.

(** [logout()] *)
Definition logout (ls : LocalStorage) : LocalStorage * Outcome unit :=
  (mkLocalStorage (ls_store ls) None, Resolved tt).

Definition day : Z := 1000 * 60 * 60 * 24.

(** [teacherId] is the id of a user with role TEACHER. *)
Definition valid_teacher (st : Store) (teacherId : string) : Prop :=
  ∃ u, u ∈ uas_users st ∧ User.id u = teacherId ∧ User.role u = TEACHER.

(** Both dates are valid and the end is not after the start. *)
Definition end_not_after_start (startISO endISO : TimeValue) : Prop :=
  ∃ s e, startISO = Some s ∧ endISO = Some e ∧ e ≤ s.

(** A stored slot of the same teacher overlaps the range of [slotData]. *)
Definition teacher_overlap (st : Store) (slotData : SlotData.t) : Prop :=
  ∃ s, s ∈ uas_slots st
       ∧ Slot.teacherId s = SlotData.teacherId slotData
       ∧ slotsOverlap (Slot.startISO s) (Slot.endISO s)
           (SlotData.startISO slotData) (SlotData.endISO slotData) = true.

(** The slot [createSlot] stores for [slotData]. *)
Definition new_slot (newId : string) (slotData : SlotData.t) : Slot.t :=
  Slot.mk newId (SlotData.teacherId slotData)
    (SlotData.startISO slotData) (SlotData.endISO slotData)
    (SlotData.location slotData) (SlotData.maxSeats slotData)
    (SlotData.maxSeats slotData).

(** No two stored slots of one teacher overlap. *)
Definition teacher_slots_disjoint (st : Store) : Prop :=
  ∀ i j s1 s2,
    i ≠ j →
    uas_slots st !! i = Some s1 → uas_slots st !! j = Some s2 →
    Slot.teacherId s1 = Slot.teacherId s2 →
    slotsOverlap (Slot.startISO s1) (Slot.endISO s1)
      (Slot.startISO s2) (Slot.endISO s2) = false.

(** The update carries a non-empty start or end date. *)
Definition changes_time (updates : SlotUpdates.t) : bool :=
  iso_truthy (SlotUpdates.startISO updates)
  || iso_truthy (SlotUpdates.endISO updates).

(** The update with no property at all. *)
Definition no_updates : SlotUpdates.t :=
  SlotUpdates.mk iso_absent iso_absent None None None.

(** The calls of the API that write to the store, with their arguments
    (and, as before, the [uid()] and clock reads of the call). *)
Inductive Operation :=
  | CreateUser (user : User.t)
  | CreateSlot (newId : string) (slotData : SlotData.t)
  | UpdateSlot (slotId : string) (updates : SlotUpdates.t)
  | DeleteSlot (slotId : string)
  | BookAppointment (newId : string) (now stamp : Z)
      (slotId studentId : string) (notes : option string)
  | CancelAppointment (now stamp : Z) (appointmentId userId : string)
  | MarkAttended (appointmentId : string).

(** The store a call leaves behind, whether its promise resolves or not. *)
Definition store_after (op : Operation) (st : Store) : Store :=
  match op with
  | CreateUser user => fst (createUser user st)
  | CreateSlot newId slotData => fst (createSlot newId slotData st)
  | UpdateSlot slotId updates => fst (updateSlot slotId updates st)
  | DeleteSlot slotId => fst (deleteSlot slotId st)
  | BookAppointment newId now stamp slotId studentId notes =>
      fst (bookAppointment newId now stamp slotId studentId notes st)
  | CancelAppointment now stamp appointmentId userId =>
      fst (cancelAppointment now stamp appointmentId userId st)
  | MarkAttended appointmentId => fst (markAttended appointmentId st)
  end.

(** Every BOOKED appointment references a stored slot. *)
Definition booked_have_slot (st : Store) : Prop :=
  ∀ a, a ∈ uas_appointments st → Appointment.status a = BOOKED →
       ∃ s, s ∈ uas_slots st ∧ Slot.id s = Appointment.slotId a.

(** What a booking is, apart from its status and its cancellation time. *)
Definition booking_record (a : Appointment.t)
    : string * string * string * option string * Z :=
  (Appointment.id a, Appointment.slotId a, Appointment.studentId a,
   Appointment.notes a, Appointment.createdAt a).

(** The part of a slot the overlap rule looks at. *)
Definition slot_range (s : Slot.t) : string * TimeValue * TimeValue :=
  (Slot.teacherId s, Slot.startISO s, Slot.endISO s).

(** ** The API over a storage medium that can refuse

    [localStorage.getItem] and [localStorage.setItem] can throw (a disabled
    store, an exceeded quota) and [mockApi.ts] catches nothing: the
    exception rejects the promise of the call, after whatever the call has
    saved so far.  The definitions above are the API over a medium that
    accepts every access; the definitions of [Io] are the same functions
    over a medium that may refuse any of them. *)

(** What the medium throws: a [DOMException], by its name. *)
Inductive DOMException := mkDOMException (name : string).

(** The behaviour of the medium during one call: the accesses it refuses,
    given the content of the store at that moment. *)
Record Medium := mkMedium {
  getItem_throws : Store → ∀ T : Type, STORAGE_KEYS T → option DOMException;
  setItem_throws : Store → ∀ T : Type, STORAGE_KEYS T → list T → option DOMException
}.
Arguments getItem_throws _ _ {T} _.
Arguments setItem_throws _ _ {T} _ _.

(** What rejects a promise: an [Error] thrown by the API, or an exception of
    the medium. *)
Inductive Thrown :=
  | ApiError (e : Error)
  | StorageError (x : DOMException).

(** How the promise of a call settles over such a medium. *)
Inductive Settled (A : Type) :=
  | Fulfilled (a : A)
  | Failed (t : Thrown).
Arguments Fulfilled {A} a.
Arguments Failed {A} t.

(** The outcome of a call of the first part, as an outcome over a medium. *)
Definition settled {A} (r : Store * Outcome A) : Store * Settled A :=
  match r with
  | (st, Resolved a) => (st, Fulfilled a)
  | (st, Rejected e) => (st, Failed (ApiError e))
  end.

Module Io.

Definition Api (A : Type) : Type := Store → Store * Settled A.

Definition ret {A} (a : A) : Api A := λ st, (st, Fulfilled a).

Definition throw {A} (e : Error) : Api A := λ st, (st, Failed (ApiError e)).

Definition bind {A B} (m : Api A) (k : A → Api B) : Api B :=
  λ st, match m st with
        | (st', Fulfilled a) => k a st'
        | (st', Failed t) => (st', Failed t)
        end.

#[local, warnings="-notation-overridden"]
Notation "'let!' x ':=' m 'in' k" := (bind m (λ x, k))
  (at level 10, x name, m at level 100, k at level 200).
#[local, warnings="-notation-overridden"]
Notation "m ';;' k" := (bind m (λ _, k))
  (at level 100, k at level 200, right associativity).

Section medium.
Variable medium : Medium.

(** [getFromStorage(key)]: [getItem] may throw. *)
Definition getFromStorage {T} (key : STORAGE_KEYS T) : Api (list T) :=
  λ st, match getItem_throws medium st key with
        | Some x => (st, Failed (StorageError x))
        | None =>
          (st, Fulfilled (match key in STORAGE_KEYS T return list T with
                          | USERS => uas_users st
                          | SLOTS => uas_slots st
                          | APPOINTMENTS => uas_appointments st
                          end))
        end.

(** [saveToStorage(key, data)]: [setItem] may throw, and then nothing is
    written under the key. *)
Definition saveToStorage {T} (key : STORAGE_KEYS T) (data : list T) : Api unit :=
  λ st, match setItem_throws medium st key data with
        | Some x => (st, Failed (StorageError x))
        | None =>
          (match key in STORAGE_KEYS T return list T → Store with
           | USERS => λ data,
               mkStore data (uas_slots st) (uas_appointments st)
           | SLOTS => λ data,
               mkStore (uas_users st) data (uas_appointments st)
           | APPOINTMENTS => λ data,
               mkStore (uas_users st) (uas_slots st) data
           end data, Fulfilled tt)
        end.

Definition createUser (user : User.t) : Api User.t :=
  let! users := getFromStorage USERS in
  if array_some (λ u, User.id u = User.id user
                      ∨ User.email u = User.email user) users
  then throw UserAlreadyExists
  else
    let users := users ++ [user] in
    saveToStorage USERS users ;;
    ret user.

Definition createSlot (newId : string) (slotData : SlotData.t) : Api Slot.t :=
  let! users := getFromStorage USERS in
  match array_find (λ u, User.id u = SlotData.teacherId slotData
                          ∧ User.role u = TEACHER) users with
  | None => throw InvalidTeacher
  | Some teacher =>
    if num_ge (SlotData.startISO slotData) (SlotData.endISO slotData)
    then throw InvalidTimeRange
    else
      let! slots := getFromStorage SLOTS in
      match array_find
              (λ s, Slot.teacherId s = SlotData.teacherId slotData
                    ∧ slotsOverlap (Slot.startISO s) (Slot.endISO s)
                        (SlotData.startISO slotData)
                        (SlotData.endISO slotData) = true) slots with
      | Some overlap => throw OverlappingSlot
      | None =>
        let newSlot := new_slot newId slotData in
        let slots := slots ++ [newSlot] in
        saveToStorage SLOTS slots ;;
        ret newSlot
      end
  end.

Definition updateSlot (slotId : string) (updates : SlotUpdates.t) : Api Slot.t :=
  let! slots := getFromStorage SLOTS in
  match list_find (λ s, Slot.id s = slotId) slots with
  | None => throw SlotNotFound
  | Some (slotIndex, slot) =>
    let! appointments := getFromStorage APPOINTMENTS in
    if hasBookings slotId appointments
       && (iso_truthy (SlotUpdates.startISO updates)
           || iso_truthy (SlotUpdates.endISO updates))
    then throw SlotHasBookings_update
    else
      let updated := SlotUpdates.spread slot updates in
      let slots := <[slotIndex:=updated]> slots in
      saveToStorage SLOTS slots ;;
      ret updated
  end.

Definition deleteSlot (slotId : string) : Api unit :=
  let! slots := getFromStorage SLOTS in
  match array_findIndex (λ s, Slot.id s = slotId) slots with
  | None => throw SlotNotFound
  | Some slotIndex =>
    let! appointments := getFromStorage APPOINTMENTS in
    if hasBookings slotId appointments
    then throw SlotHasBookings_delete
    else
      let slots := delete slotIndex slots in
      saveToStorage SLOTS slots
  end.

Fixpoint checkConflicts (slots : list Slot.t) (slot : Slot.t)
    (studentAppointments : list Appointment.t) : Api unit :=
  match studentAppointments with
  | [] => ret tt
  | appt :: rest =>
    match array_find (λ s, Slot.id s = Appointment.slotId appt) slots with
    | Some apptSlot =>
      if slotsOverlap (Slot.startISO slot) (Slot.endISO slot)
           (Slot.startISO apptSlot) (Slot.endISO apptSlot)
      then throw ConflictingAppointment
      else checkConflicts slots slot rest
    | None => checkConflicts slots slot rest
    end
  end.

Definition bookAppointment (newId : string) (now stamp : Z)
    (slotId studentId : string) (notes : option string) : Api Appointment.t :=
  let! users := getFromStorage USERS in
  match array_find (λ u, User.id u = studentId ∧ User.role u = STUDENT) users with
  | None => throw InvalidStudent
  | Some student =>
    let! slots := getFromStorage SLOTS in
    match list_find (λ s, Slot.id s = slotId) slots with
    | None => throw SlotNotFound
    | Some (slotRef, slot) =>
      if bool_decide (Slot.availableSeats slot ≤ 0) then throw SlotFull
      else if negb (isBookingAllowed (Slot.startISO slot) now)
      then throw TooLateToBook
      else
        let! appointments := getFromStorage APPOINTMENTS in
        let studentAppointments :=
          filter (λ a, Appointment.studentId a = studentId
                       ∧ Appointment.status a = BOOKED) appointments in
        checkConflicts slots slot studentAppointments ;;
        let newAppointment :=
          Appointment.mk newId slotId studentId BOOKED notes stamp None in
        let appointments := appointments ++ [newAppointment] in
        saveToStorage APPOINTMENTS appointments ;;
        (* [slot] aliases [slots[slotRef]]: the decrement is in place *)
        let slot := Slot.set_availableSeats (Slot.availableSeats slot - 1) slot in
        let slots := <[slotRef:=slot]> slots in
        let slotIndex := array_findIndex (λ s, Slot.id s = slotId) slots in
        let slots := array_set slots slotIndex slot in
        saveToStorage SLOTS slots ;;
        ret newAppointment
    end
  end.

Definition cancelAppointment (now stamp : Z)
    (appointmentId userId : string) : Api unit :=
  let! appointments := getFromStorage APPOINTMENTS in
  match list_find (λ a, Appointment.id a = appointmentId) appointments with
  | None => throw AppointmentNotFound
  | Some (appointmentIndex, appointment) =>
    let! slots := getFromStorage SLOTS in
    match list_find (λ s, Slot.id s = Appointment.slotId appointment) slots with
    | None => throw AssociatedSlotNotFound
    | Some (slotRef, slot) =>
      if bool_decide (Appointment.studentId appointment ≠ userId)
         && bool_decide (Slot.teacherId slot ≠ userId)
      then throw NotAuthorized
      else if bool_decide (Appointment.studentId appointment = userId)
              && negb (isWithinCancellationWindow (Slot.startISO slot) now)
      then throw TooLateToCancel
      else
        let appointments :=
          alter (Appointment.set_status CANCELLED) appointmentIndex appointments in
        let appointments :=
          alter (Appointment.set_cancelledAt stamp) appointmentIndex appointments in
        saveToStorage APPOINTMENTS appointments ;;
        (* [slot] aliases [slots[slotRef]]: the increment is in place *)
        let slot := Slot.set_availableSeats (Slot.availableSeats slot + 1) slot in
        let slots := <[slotRef:=slot]> slots in
        let slotIndex :=
          array_findIndex (λ s, Slot.id s = Appointment.slotId appointment) slots in
        let slots := array_set slots slotIndex slot in
        saveToStorage SLOTS slots
    end
  end.

Definition markAttended (appointmentId : string) : Api unit :=
  let! appointments := getFromStorage APPOINTMENTS in
  match array_findIndex (λ a, Appointment.id a = appointmentId) appointments with
  | None => throw AppointmentNotFound
  | Some appointmentIndex =>
    let appointments :=
      alter (Appointment.set_status ATTENDED) appointmentIndex appointments in
    saveToStorage APPOINTMENTS appointments
  end.

(** The store a call leaves behind, however its promise settles. *)
Definition store_after (op : Operation) (st : Store) : Store :=
  match op with
  | CreateUser user => fst (createUser user st)
  | CreateSlot newId slotData => fst (createSlot newId slotData st)
  | UpdateSlot slotId updates => fst (updateSlot slotId updates st)
  | DeleteSlot slotId => fst (deleteSlot slotId st)
  | BookAppointment newId now stamp slotId studentId notes =>
      fst (bookAppointment newId now stamp slotId studentId notes st)
  | CancelAppointment now stamp appointmentId userId =>
      fst (cancelAppointment now stamp appointmentId userId st)
  | MarkAttended appointmentId => fst (markAttended appointmentId st)
  end.

End medium.

(** The store after a sequence of calls, each with the behaviour of the
    medium during that call. *)
Definition store_after_calls (calls : list (Medium * Operation)) (st : Store)
    : Store :=
  foldl (λ st call, store_after call.1 call.2 st) st calls.

End Io.

(** A medium that accepts every access, one whose quota is exhausted, and one
    that refuses to write the slots only. *)
Definition accepting : Medium :=
  mkMedium (λ _ _ _, None) (λ _ _ _ _, None).

Definition quota_exceeded : Medium :=
  mkMedium (λ _ _ _, None)
    (λ _ _ _ _, Some (mkDOMException "QuotaExceededError")).

Definition slots_read_only : Medium :=
  mkMedium (λ _ _ _, None)
    (λ _ T key _,
       match key with
       | SLOTS => Some (mkDOMException "QuotaExceededError")
       | _ => None
       end).

(** One of the five validations of [bookAppointment] fails. *)
Definition validation_fails (st : Store) (now : Z) (slotId studentId : string)
    : Prop :=
  ¬ valid_student st studentId
  ∨ (∀ s, s ∈ uas_slots st → Slot.id s ≠ slotId)
  ∨ ∃ i slot,
      first_match (λ s, Slot.id s = slotId) (uas_slots st) i slot
      ∧ (Slot.availableSeats slot ≤ 0
         ∨ isBookingAllowed (Slot.startISO slot) now = false
         ∨ student_conflict st studentId slot).

(** A sequence of calls on the demo store during which the medium fails
    twice: a second booking is refused (full slot), the booking is attended,
    a cancellation by the teacher is cut short when the slots cannot be
    written, a deletion hits the exhausted quota, and a second cancellation
    goes through. *)
Definition demo_calls : list (Medium * Operation) :=
  [ (accepting, BookAppointment "a2" 0 0 "s1" "student2" None);
    (accepting, MarkAttended "a1");
    (slots_read_only, CancelAppointment (50 * hour) (50 * hour) "a1" "teacher1");
    (quota_exceeded, DeleteSlot "s1");
    (accepting, CancelAppointment (60 * hour) (60 * hour) "a1" "teacher1") ].

(** * Properties *)

(** ** Basic facts about the JavaScript array helpers *)

Section array_facts.
Context {A : Type} (P : A → Prop) `{∀ x, Decision (P x)}.

Lemma array_find_Some_elem (arr : list A) (x : A) :
  array_find P arr = Some x → x ∈ arr ∧ P x.
Proof.
  unfold array_find. destruct (list_find P arr) as [[i y]|] eqn:E; [|done].
  intros [= <-]. apply list_find_Some in E as (Hi & HP & _).
  split; [by eapply list_elem_of_lookup_2|done].
Qed.

Lemma array_find_None (arr : list A) :
  array_find P arr = None ↔ ∀ x, x ∈ arr → ¬ P x.
Proof.
  unfold array_find. by rewrite fmap_None, list_find_None, list.Forall_forall.
Qed.

Lemma array_find_is_Some (arr : list A) :
  is_Some (array_find P arr) ↔ ∃ x, x ∈ arr ∧ P x.
Proof.
  split.
  - intros [x Hx]. exists x. by apply array_find_Some_elem.
  - intros (x & Hx & HP). unfold array_find.
    destruct (list_find_elem_of P arr x Hx HP) as [[i y] ->]. by eexists.
Qed.

(** Replacing the found element by one that still satisfies [P] leaves it
    the first match, so a following [findIndex] returns the same index. *)
Lemma list_find_insert_same (arr : list A) (i : nat) (x y : A) :
  list_find P arr = Some (i, x) → P y →
  list_find P (<[i:=y]> arr) = Some (i, y).
Proof.
  intros (Hi & HP & Hleast)%list_find_Some Hy.
  apply list_find_Some. split_and!; [|done|].
  - apply list_lookup_insert_eq. by eapply lookup_lt_Some.
  - intros j z Hj Hlt. rewrite list_lookup_insert_ne in Hj by lia. eauto.
Qed.

(** The in-place update followed by [arr[findIndex(p)] = y] is one update. *)
Lemma array_set_after_update (arr : list A) (i : nat) (x y : A) :
  list_find P arr = Some (i, x) → P y →
  array_set (<[i:=y]> arr) (array_findIndex P (<[i:=y]> arr)) y = <[i:=y]> arr.
Proof.
  intros Hfind Hy. unfold array_findIndex.
  rewrite (list_find_insert_same _ _ _ _ Hfind Hy). simpl.
  apply list_insert_insert_eq.
Qed.

End array_facts.

(** ** The time helpers in integer terms *)

Lemma hours_gt_inject (t now n : Z) :
  hours_gt (hoursUntilSlot (Some t) now) (inject_Z n) = true ↔ n * hour < t - now.
Proof.
  unfold hours_gt, hoursUntilSlot, hour. simpl.
  destruct (Qlt_le_dec _ _) as [Hlt|Hle].
  - split; [intros _|done]. revert Hlt.
    unfold Qlt, Qdiv, Qmult, Qinv, inject_Z. simpl. lia.
  - split; [done|]. intros Hlt. exfalso. revert Hle.
    unfold Qle, Qdiv, Qmult, Qinv, inject_Z. simpl. lia.
Qed.

Lemma isBookingAllowed_iff (t now : Z) :
  isBookingAllowed (Some t) now = true ↔ hour < t - now.
Proof.
  unfold isBookingAllowed. change 1%Q with (inject_Z 1).
  rewrite hours_gt_inject. lia.
Qed.

Lemma isWithinCancellationWindow_iff (t now : Z) :
  isWithinCancellationWindow (Some t) now = true ↔ 24 * hour < t - now.
Proof.
  unfold isWithinCancellationWindow. change 24%Q with (inject_Z 24).
  by rewrite hours_gt_inject.
Qed.

Lemma isBookingAllowed_false (t now : Z) :
  isBookingAllowed (Some t) now = false ↔ t - now ≤ hour.
Proof.
  rewrite <- not_true_iff_false, isBookingAllowed_iff. lia.
Qed.

Lemma isWithinCancellationWindow_false (t now : Z) :
  isWithinCancellationWindow (Some t) now = false ↔ t - now ≤ 24 * hour.
Proof.
  rewrite <- not_true_iff_false, isWithinCancellationWindow_iff. lia.
Qed.

(** ** The operations as case analyses on the store *)

Lemma checkConflicts_run slots slot appts st :
  (conflicting slots slot appts
   ∧ checkConflicts slots slot appts st = (st, Rejected ConflictingAppointment))
  ∨ (¬ conflicting slots slot appts
     ∧ checkConflicts slots slot appts st = (st, Resolved tt)).
Proof.
  induction appts as [|appt rest IH]; simpl.
  - right. split; [|done]. intros (a & s & Ha & _). by apply elem_of_nil in Ha.
  - destruct (array_find _ slots) as [apptSlot|] eqn:Hfind.
    + destruct (slotsOverlap _ _ _ _) eqn:Hov.
      * left. split; [|done]. exists appt, apptSlot. split_and!; [left|done..].
      * destruct IH as [[(a & s & Ha & Hs & Ho) ->]|[Hno ->]].
        -- left. split; [|done]. exists a, s. split_and!; [by right|done..].
        -- right. split; [|done]. intros (a & s & Ha & Hs & Ho).
           apply elem_of_cons in Ha as [->|Ha]; [congruence|].
           apply Hno. by exists a, s.
    + destruct IH as [[(a & s & Ha & Hs & Ho) ->]|[Hno ->]].
      * left. split; [|done]. exists a, s. split_and!; [by right|done..].
      * right. split; [|done]. intros (a & s & Ha & Hs & Ho).
        apply elem_of_cons in Ha as [->|Ha]; [congruence|].
        apply Hno. by exists a, s.
Qed.

Lemma bookAppointment_run newId now stamp slotId studentId notes st :
  bookAppointment newId now stamp slotId studentId notes st =
  match array_find (λ u, User.id u = studentId ∧ User.role u = STUDENT)
          (uas_users st) with
  | None => (st, Rejected InvalidStudent)
  | Some _ =>
    match list_find (λ s, Slot.id s = slotId) (uas_slots st) with
    | None => (st, Rejected SlotNotFound)
    | Some (slotRef, slot) =>
      if bool_decide (Slot.availableSeats slot ≤ 0) then (st, Rejected SlotFull)
      else if negb (isBookingAllowed (Slot.startISO slot) now)
      then (st, Rejected TooLateToBook)
      else
        match checkConflicts (uas_slots st) slot
                (studentAppointments studentId (uas_appointments st)) st with
        | (_, Rejected e) => (st, Rejected e)
        | (_, Resolved _) =>
          let newAppointment :=
            Appointment.mk newId slotId studentId BOOKED notes stamp None in
          (booked_store st slotRef slot newAppointment, Resolved newAppointment)
        end
    end
  end.
Proof.
  unfold bookAppointment, bind, getFromStorage, throw, ret. simpl.
  destruct (array_find _ (uas_users st)); [|done].
  destruct (list_find _ (uas_slots st)) as [[slotRef slot]|] eqn:Hfind; [|done].
  destruct (bool_decide _); [done|].
  destruct (negb _); [done|].
  fold (studentAppointments studentId (uas_appointments st)).
  destruct (checkConflicts_run (uas_slots st) slot
              (studentAppointments studentId (uas_appointments st)) st)
    as [[_ ->]|[_ ->]]; [done|].
  simpl. unfold booked_store.
  rewrite (array_set_after_update (λ s, Slot.id s = slotId) _ _ slot);
    [done|done|].
  apply list_find_Some in Hfind as (_ & Hid & _). done.
Qed.

Lemma cancelAppointment_run now stamp appointmentId userId st :
  cancelAppointment now stamp appointmentId userId st =
  match list_find (λ a, Appointment.id a = appointmentId)
          (uas_appointments st) with
  | None => (st, Rejected AppointmentNotFound)
  | Some (appointmentIndex, appointment) =>
    match list_find (λ s, Slot.id s = Appointment.slotId appointment)
            (uas_slots st) with
    | None => (st, Rejected AssociatedSlotNotFound)
    | Some (slotRef, slot) =>
      if bool_decide (Appointment.studentId appointment ≠ userId)
         && bool_decide (Slot.teacherId slot ≠ userId)
      then (st, Rejected NotAuthorized)
      else if bool_decide (Appointment.studentId appointment = userId)
              && negb (isWithinCancellationWindow (Slot.startISO slot) now)
      then (st, Rejected TooLateToCancel)
      else (cancelled_store st stamp appointmentIndex slotRef slot, Resolved tt)
    end
  end.
Proof.
  unfold cancelAppointment, bind, getFromStorage, throw. simpl.
  destruct (list_find _ (uas_appointments st)) as [[i a]|]; [|done].
  destruct (list_find _ (uas_slots st)) as [[j s]|] eqn:Hfind; [|done].
  destruct (_ && _); [done|].
  destruct (_ && _); [done|].
  simpl. unfold cancelled_store.
  rewrite (array_set_after_update
             (λ s0, Slot.id s0 = Appointment.slotId a) _ _ s); [done|done|].
  apply list_find_Some in Hfind as (_ & Hid & _). done.
Qed.

Lemma markAttended_run appointmentId st :
  markAttended appointmentId st =
  match list_find (λ a, Appointment.id a = appointmentId)
          (uas_appointments st) with
  | None => (st, Rejected AppointmentNotFound)
  | Some (appointmentIndex, _) =>
    (attended_store st appointmentIndex, Resolved tt)
  end.
Proof.
  unfold markAttended, bind, getFromStorage, throw, array_findIndex. simpl.
  by destruct (list_find _ (uas_appointments st)) as [[i a]|].
Qed.

Lemma createSlot_Resolved newId slotData st st' newSlot :
  createSlot newId slotData st = (st', Resolved newSlot) →
  newSlot = Slot.mk newId (SlotData.teacherId slotData)
              (SlotData.startISO slotData) (SlotData.endISO slotData)
              (SlotData.location slotData) (SlotData.maxSeats slotData)
              (SlotData.maxSeats slotData)
  ∧ st' = mkStore (uas_users st) (uas_slots st ++ [newSlot])
            (uas_appointments st).
Proof.
  unfold createSlot, bind, getFromStorage, throw, ret. simpl.
  destruct (array_find _ (uas_users st)); [|done].
  destruct (num_ge _ _); [done|].
  destruct (array_find _ (uas_slots st)); [done|].
  simpl. by intros [= <- <-].
Qed.

(** ** Bridging [list_find] and the predicates of the statements *)

(** Membership in a list written out. *)
Ltac in_list := repeat first [ by left | right ].

Lemma first_match_list_find {A} (P : A → Prop) `{∀ x, Decision (P x)}
    (arr : list A) (i : nat) (x : A) :
  first_match P arr i x ↔ list_find P arr = Some (i, x).
Proof. unfold first_match. by rewrite list_find_Some. Qed.

Lemma first_match_intro {A} (P : A → Prop) `{∀ x, Decision (P x)}
    (arr : list A) (i : nat) (x : A) :
  list_find P arr = Some (i, x) → first_match P arr i x.
Proof. apply first_match_list_find. Qed.

(** A [first_match] over closed data, by evaluation of [list_find]. *)
Ltac first_match_compute :=
  match goal with
  | |- first_match ?P ?arr ?i ?x => exact (first_match_intro P arr i x eq_refl)
  end.

Lemma first_match_find {A} (P : A → Prop) `{∀ x, Decision (P x)}
    (arr : list A) (i : nat) (x : A) :
  first_match P arr i x → list_find P arr = Some (i, x).
Proof. apply first_match_list_find. Qed.

Lemma no_match_list_find {A} (P : A → Prop) `{∀ x, Decision (P x)}
    (arr : list A) :
  (∀ x, x ∈ arr → ¬ P x) ↔ list_find P arr = None.
Proof. by rewrite list_find_None, list.Forall_forall. Qed.

Lemma array_find_first_match {A} (P : A → Prop) `{∀ x, Decision (P x)}
    (arr : list A) (x : A) :
  array_find P arr = Some x ↔ ∃ i, first_match P arr i x.
Proof.
  unfold array_find. split.
  - destruct (list_find P arr) as [[i y]|] eqn:E; [|done].
    intros [= <-]. exists i. exact (proj2 (first_match_list_find P arr i y) E).
  - intros [i Hi]. by rewrite (proj1 (first_match_list_find P arr i x) Hi).
Qed.

Lemma valid_student_find st studentId :
  valid_student st studentId ↔
  is_Some (array_find (λ u, User.id u = studentId ∧ User.role u = STUDENT)
             (uas_users st)).
Proof.
  rewrite array_find_is_Some. unfold valid_student. naive_solver.
Qed.

Lemma student_conflict_conflicting st studentId slot :
  student_conflict st studentId slot ↔
  conflicting (uas_slots st) slot
    (studentAppointments studentId (uas_appointments st)).
Proof.
  unfold student_conflict, conflicting, studentAppointments. split.
  - intros (a & i & s & Ha & Hs & Hb & Hf & Ho). exists a, s.
    split_and!; [|by apply array_find_first_match; eauto|done].
    apply list_elem_of_filter. done.
  - intros (a & s & Ha & Hf & Ho).
    apply list_elem_of_filter in Ha as [[Hs Hb] Ha].
    apply array_find_first_match in Hf as [i Hf]. by exists a, i, s.
Qed.

(** ** The two operations once their lookups have succeeded *)

Lemma bookAppointment_too_late newId now stamp slotId studentId notes st i slot :
  valid_student st studentId →
  first_match (λ s, Slot.id s = slotId) (uas_slots st) i slot →
  0 < Slot.availableSeats slot →
  isBookingAllowed (Slot.startISO slot) now = false →
  bookAppointment newId now stamp slotId studentId notes st
  = (st, Rejected TooLateToBook).
Proof.
  intros [u Hu]%valid_student_find Hfirst Hpos Hlate.
  rewrite bookAppointment_run, Hu.
  rewrite (first_match_find _ _ _ _ Hfirst), Hlate.
  by rewrite bool_decide_eq_false_2 by lia.
Qed.

Lemma bookAppointment_success newId now stamp slotId studentId notes st i slot :
  valid_student st studentId →
  first_match (λ s, Slot.id s = slotId) (uas_slots st) i slot →
  0 < Slot.availableSeats slot →
  isBookingAllowed (Slot.startISO slot) now = true →
  ¬ student_conflict st studentId slot →
  let appt := Appointment.mk newId slotId studentId BOOKED notes stamp None in
  bookAppointment newId now stamp slotId studentId notes st
  = (booked_store st i slot appt, Resolved appt).
Proof.
  intros [u Hu]%valid_student_find Hfirst Hpos Hok Hc appt.
  rewrite student_conflict_conflicting in Hc.
  rewrite bookAppointment_run, Hu.
  rewrite (first_match_find _ _ _ _ Hfirst), Hok.
  rewrite bool_decide_eq_false_2 by lia. simpl.
  by destruct (checkConflicts_run (uas_slots st) slot
                 (studentAppointments studentId (uas_appointments st)) st)
    as [[Hy _]|[_ ->]].
Qed.

(** A resolved [bookAppointment] went through every check. *)
Lemma bookAppointment_Resolved newId now stamp slotId studentId notes st st' appt :
  bookAppointment newId now stamp slotId studentId notes st = (st', Resolved appt) →
  ∃ i slot,
    first_match (λ s, Slot.id s = slotId) (uas_slots st) i slot
    ∧ 0 < Slot.availableSeats slot
    ∧ appt = Appointment.mk newId slotId studentId BOOKED notes stamp None
    ∧ st' = booked_store st i slot appt.
Proof.
  rewrite bookAppointment_run.
  destruct (array_find _ (uas_users st)); [|done].
  destruct (list_find _ (uas_slots st)) as [[i slot]|] eqn:Hfind; [|done].
  case_bool_decide; [done|].
  destruct (negb _); [done|].
  destruct (checkConflicts_run (uas_slots st) slot
              (studentAppointments studentId (uas_appointments st)) st)
    as [[_ ->]|[_ ->]]; [done|].
  intros [= <- <-]. exists i, slot.
  split; [exact (first_match_intro _ _ _ _ Hfind)|]. split; [lia|done].
Qed.

Lemma cancelAppointment_found now stamp appointmentId userId st i appt j slot :
  first_match (λ a, Appointment.id a = appointmentId) (uas_appointments st) i appt →
  first_match (λ s, Slot.id s = Appointment.slotId appt) (uas_slots st) j slot →
  cancelAppointment now stamp appointmentId userId st =
  if bool_decide (Appointment.studentId appt ≠ userId)
     && bool_decide (Slot.teacherId slot ≠ userId)
  then (st, Rejected NotAuthorized)
  else if bool_decide (Appointment.studentId appt = userId)
          && negb (isWithinCancellationWindow (Slot.startISO slot) now)
  then (st, Rejected TooLateToCancel)
  else (cancelled_store st stamp i j slot, Resolved tt).
Proof.
  intros Happt Hslot. rewrite cancelAppointment_run.
  rewrite (first_match_find _ _ _ _ Happt).
  by rewrite (first_match_find _ _ _ _ Hslot).
Qed.

(** A resolved [cancelAppointment] found the appointment and its slot. *)
Lemma cancelAppointment_Resolved now stamp appointmentId userId st st' :
  cancelAppointment now stamp appointmentId userId st = (st', Resolved tt) →
  ∃ i appt j slot,
    first_match (λ a, Appointment.id a = appointmentId) (uas_appointments st) i appt
    ∧ first_match (λ s, Slot.id s = Appointment.slotId appt) (uas_slots st) j slot
    ∧ st' = cancelled_store st stamp i j slot.
Proof.
  rewrite cancelAppointment_run.
  destruct (list_find _ (uas_appointments st)) as [[i appt]|] eqn:Ha; [|done].
  destruct (list_find _ (uas_slots st)) as [[j slot]|] eqn:Hs; [|done].
  destruct (_ && _); [done|].
  destruct (_ && _); [done|].
  intros [= <-]. exists i, appt, j, slot.
  split; [exact (first_match_intro _ _ _ _ Ha)|].
  split; [exact (first_match_intro _ _ _ _ Hs)|done].
Qed.

(** A resolved [markAttended] found the appointment. *)
Lemma markAttended_Resolved appointmentId st st' :
  markAttended appointmentId st = (st', Resolved tt) →
  ∃ i appt,
    first_match (λ a, Appointment.id a = appointmentId) (uas_appointments st) i appt
    ∧ st' = attended_store st i.
Proof.
  rewrite markAttended_run.
  destruct (list_find _ (uas_appointments st)) as [[i appt]|] eqn:Ha; [|done].
  intros [= <-]. exists i, appt.
  split; [exact (first_match_intro _ _ _ _ Ha)|done].
Qed.

Lemma markAttended_found appointmentId st i appt :
  first_match (λ a, Appointment.id a = appointmentId) (uas_appointments st) i appt →
  markAttended appointmentId st = (attended_store st i, Resolved tt).
Proof.
  intros Happt. rewrite markAttended_run.
  by rewrite (first_match_find _ _ _ _ Happt).
Qed.

(** ** The overlap test *)

(** C6: [slotsOverlap] is true iff [s1 < e2] and [s2 < e1] (half-open
    ranges); an invalid date on either side makes it false; two ranges that
    touch at an endpoint, such as 10:00-11:00 and 11:00-12:00, do not
    overlap, while 10:00-11:00 and 10:30-11:30 do. *)
Theorem slotsOverlap_half_open :
  (∀ s1 e1 s2 e2 : Z,
     slotsOverlap (Some s1) (Some e1) (Some s2) (Some e2) = true
     ↔ s1 < e2 ∧ s2 < e1)
  ∧ (∀ start1 end1 start2 end2 : TimeValue,
       start1 = None ∨ end1 = None ∨ start2 = None ∨ end2 = None →
       slotsOverlap start1 end1 start2 end2 = false)
  ∧ (∀ a b c : Z,
       slotsOverlap (Some a) (Some b) (Some b) (Some c) = false
       ∧ slotsOverlap (Some b) (Some c) (Some a) (Some b) = false)
  ∧ slotsOverlap (Some (10 * hour)) (Some (11 * hour))
      (Some (11 * hour)) (Some (12 * hour)) = false
  ∧ slotsOverlap (Some (10 * hour)) (Some (11 * hour))
      (Some (10 * hour + 30 * minute)) (Some (11 * hour + 30 * minute)) = true.
Proof.
  split_and!; [| | |done..].
  - intros s1 e1 s2 e2. unfold slotsOverlap, num_lt.
    rewrite andb_true_iff, !bool_decide_eq_true. done.
  - intros start1 end1 start2 end2 Hnan. unfold slotsOverlap, num_lt.
    destruct start1, end1, start2, end2; simpl; rewrite ?andb_false_r;
      done || (destruct Hnan as [?|[?|[?|?]]]; done).
  - intros a b c. unfold slotsOverlap, num_lt.
    rewrite (bool_decide_eq_false_2 (b < b)) by lia.
    by rewrite andb_false_r.
Qed.

Lemma slotsOverlap_half_open_witness :
  slotsOverlap None (Some 5) (Some 1) (Some 7) = false.
Proof.
  apply (proj1 (proj2 slotsOverlap_half_open)). by left.
Defined.

(** ** [bookAppointment] *)

(** C3: [bookAppointment] validates in a fixed order, the first failing
    check giving the error: the student (InvalidStudent), the slot
    (SlotNotFound), the free seats (SlotFull), the booking window
    (TooLateToBook), the student's overlapping BOOKED appointments
    (ConflictingAppointment); when all pass it appends an appointment with
    status BOOKED and lowers the available seats of that slot by one,
    leaving everything else as it was. *)
Theorem bookAppointment_ordered_validation
    newId now stamp slotId studentId notes st :
  let result := bookAppointment newId now stamp slotId studentId notes st in
  (¬ valid_student st studentId → result = (st, Rejected InvalidStudent))
  ∧ (valid_student st studentId →
     (∀ s, s ∈ uas_slots st → Slot.id s ≠ slotId) →
     result = (st, Rejected SlotNotFound))
  ∧ (valid_student st studentId →
     ∀ i slot,
       first_match (λ s, Slot.id s = slotId) (uas_slots st) i slot →
       (Slot.availableSeats slot ≤ 0 → result = (st, Rejected SlotFull))
       ∧ (0 < Slot.availableSeats slot →
          isBookingAllowed (Slot.startISO slot) now = false →
          result = (st, Rejected TooLateToBook))
       ∧ (0 < Slot.availableSeats slot →
          isBookingAllowed (Slot.startISO slot) now = true →
          student_conflict st studentId slot →
          result = (st, Rejected ConflictingAppointment))
       ∧ (0 < Slot.availableSeats slot →
          isBookingAllowed (Slot.startISO slot) now = true →
          ¬ student_conflict st studentId slot →
          ∃ st' appt,
            result = (st', Resolved appt)
            ∧ appt = Appointment.mk newId slotId studentId BOOKED notes stamp None
            ∧ uas_appointments st' = uas_appointments st ++ [appt]
            ∧ uas_slots st' =
                <[i:=Slot.set_availableSeats (Slot.availableSeats slot - 1) slot]>
                  (uas_slots st)
            ∧ uas_users st' = uas_users st)).
Proof.
  intros result. subst result. rewrite bookAppointment_run.
  split_and!.
  - intros Hno. destruct (array_find _ (uas_users st)) eqn:E; [|done].
    destruct Hno. apply valid_student_find. by eexists.
  - intros [u ->]%valid_student_find Hnone.
    by rewrite (proj1 (no_match_list_find (λ s, Slot.id s = slotId) _) Hnone).
  - intros [u ->]%valid_student_find i slot Hfirst.
    rewrite (first_match_find _ _ _ _ Hfirst).
    split_and!.
    + intros Hle. by rewrite bool_decide_eq_true_2.
    + intros Hpos ->. rewrite bool_decide_eq_false_2 by lia. done.
    + intros Hpos -> Hc%student_conflict_conflicting.
      rewrite bool_decide_eq_false_2 by lia. simpl.
      by destruct (checkConflicts_run (uas_slots st) slot
                     (studentAppointments studentId (uas_appointments st)) st)
        as [[_ ->]|[Hn _]].
    + intros Hpos -> Hc. rewrite student_conflict_conflicting in Hc.
      rewrite bool_decide_eq_false_2 by lia. simpl.
      destruct (checkConflicts_run (uas_slots st) slot
                  (studentAppointments studentId (uas_appointments st)) st)
        as [[Hy _]|[_ ->]]; [done|].
      eexists _, _. split; [done|]. done.
Qed.

Lemma valid_student_demo : valid_student demo_slot "student1".
Proof.
  exists (User.mk "student1" "Alice Johnson" STUDENT "alice@university.edu" None).
  split; [|done]. by left.
Defined.

Lemma bookAppointment_ordered_validation_witness :
  bookAppointment "a1" 0 0 "s9" "student1" None demo_slot
  = (demo_slot, Rejected SlotNotFound).
Proof.
  apply (proj1 (proj2 (bookAppointment_ordered_validation
                         "a1" 0 0 "s9" "student1" None demo_slot))).
  - exact valid_student_demo.
  - intros s Hs. apply list_elem_of_In in Hs. simpl in Hs.
    destruct Hs as [<-|[]]. done.
Defined.

(** ** [cancelAppointment] *)

(** C10: when the slot of the appointment does not exist, [cancelAppointment]
    is rejected with "Associated slot not found" whoever the acting user is
    (the slot is looked up before the authorization check), an error
    distinct from every other error of the API, and the store is left as it
    was. *)
Theorem cancelAppointment_missing_slot
    now stamp appointmentId userId st i appt :
  first_match (λ a, Appointment.id a = appointmentId) (uas_appointments st) i appt →
  (∀ s, s ∈ uas_slots st → Slot.id s ≠ Appointment.slotId appt) →
  cancelAppointment now stamp appointmentId userId st
  = (st, Rejected AssociatedSlotNotFound)
  ∧ AssociatedSlotNotFound = mkError "Associated slot not found"
  ∧ AssociatedSlotNotFound ∉ other_api_errors.
Proof.
  intros Happt Hnone. rewrite cancelAppointment_run.
  rewrite (first_match_find _ _ _ _ Happt).
  rewrite (proj1 (no_match_list_find
                    (λ s, Slot.id s = Appointment.slotId appt) _) Hnone).
  split_and!; [done..|].
  unfold other_api_errors. rewrite !not_elem_of_cons.
  split_and!; try done. apply not_elem_of_nil.
Qed.

Lemma cancelAppointment_missing_slot_witness :
  cancelAppointment 0 0 "a1" "student2" demo_orphan
  = (demo_orphan, Rejected AssociatedSlotNotFound)
  ∧ AssociatedSlotNotFound = mkError "Associated slot not found"
  ∧ AssociatedSlotNotFound ∉ other_api_errors.
Proof.
  apply (cancelAppointment_missing_slot 0 0 "a1" "student2" demo_orphan 0%nat
           (demo_appt_a1 CANCELLED (Some 1))).
  - first_match_compute.
  - intros s Hs. by apply elem_of_nil in Hs.
Defined.

(** C5: for an existing appointment whose slot exists, [cancelAppointment]
    is rejected with NotAuthorized exactly when the acting user is neither
    the student of the appointment nor the teacher of the slot; the student
    is rejected with TooLateToCancel unless more than 24 hours remain; the
    teacher (when not also the student) succeeds whatever time remains.  At
    23 hours before the start the student is rejected and the teacher
    succeeds. *)
Theorem cancelAppointment_authorization
    now stamp appointmentId userId st i appt j slot :
  first_match (λ a, Appointment.id a = appointmentId) (uas_appointments st) i appt →
  first_match (λ s, Slot.id s = Appointment.slotId appt) (uas_slots st) j slot →
  let cancelBy user := cancelAppointment now stamp appointmentId user st in
  (cancelBy userId = (st, Rejected NotAuthorized)
   ↔ userId ≠ Appointment.studentId appt ∧ userId ≠ Slot.teacherId slot)
  ∧ (userId = Appointment.studentId appt →
     isWithinCancellationWindow (Slot.startISO slot) now = false →
     cancelBy userId = (st, Rejected TooLateToCancel))
  ∧ (userId = Appointment.studentId appt →
     isWithinCancellationWindow (Slot.startISO slot) now = true →
     cancelBy userId = (cancelled_store st stamp i j slot, Resolved tt))
  ∧ (userId = Slot.teacherId slot →
     userId ≠ Appointment.studentId appt →
     cancelBy userId = (cancelled_store st stamp i j slot, Resolved tt))
  ∧ (Slot.startISO slot = Some (now + 23 * hour) →
     cancelBy (Appointment.studentId appt) = (st, Rejected TooLateToCancel)
     ∧ (Slot.teacherId slot ≠ Appointment.studentId appt →
        cancelBy (Slot.teacherId slot)
        = (cancelled_store st stamp i j slot, Resolved tt))).
Proof.
  intros Happt Hslot cancelBy.
  assert (Hrun : ∀ user, cancelBy user =
            if bool_decide (Appointment.studentId appt ≠ user)
               && bool_decide (Slot.teacherId slot ≠ user)
            then (st, Rejected NotAuthorized)
            else if bool_decide (Appointment.studentId appt = user)
                    && negb (isWithinCancellationWindow (Slot.startISO slot) now)
            then (st, Rejected TooLateToCancel)
            else (cancelled_store st stamp i j slot, Resolved tt)).
  { intros user. by apply cancelAppointment_found. }
  split_and!.
  - rewrite Hrun. split.
    + repeat case_bool_decide; simpl; try done.
      all: destruct (isWithinCancellationWindow _ _); done.
    + intros [H1 H2]. by rewrite !bool_decide_eq_true_2 by congruence.
  - intros -> Hw. rewrite Hrun, Hw.
    repeat case_bool_decide; simpl; done.
  - intros -> Hw. rewrite Hrun, Hw.
    repeat case_bool_decide; simpl; done.
  - intros -> Hne. rewrite Hrun.
    repeat case_bool_decide; simpl; congruence.
  - intros Hstart.
    assert (Hw : isWithinCancellationWindow (Slot.startISO slot) now = false).
    { rewrite Hstart. apply isWithinCancellationWindow_false. unfold hour. lia. }
    split.
    + rewrite Hrun, Hw. repeat case_bool_decide; simpl; done.
    + intros Hne. rewrite Hrun.
      repeat case_bool_decide; simpl; congruence.
Qed.

Lemma cancelAppointment_authorization_witness :
  cancelAppointment (77 * hour) 0 "a1" "student1" demo_booked
  = (demo_booked, Rejected TooLateToCancel)
  ∧ cancelAppointment (77 * hour) 0 "a1" "teacher1" demo_booked
    = (cancelled_store demo_booked 0 0 0 demo_s1, Resolved tt).
Proof.
  assert (Happt : first_match (λ a, Appointment.id a = "a1")
                    (uas_appointments demo_booked) 0 demo_a1).
  { first_match_compute. }
  assert (Hslot : first_match (λ s, Slot.id s = Appointment.slotId demo_a1)
                    (uas_slots demo_booked) 0 demo_s1).
  { first_match_compute. }
  destruct (cancelAppointment_authorization (77 * hour) 0 "a1" "student1"
              demo_booked 0 demo_a1 0 demo_s1 Happt Hslot)
    as (_ & _ & _ & _ & H23).
  destruct (H23 eq_refl) as [Hstudent Hteacher].
  split; [exact Hstudent|]. apply Hteacher. discriminate.
Defined.

(** ** The timing policies *)

(** C7: booking is allowed iff strictly more than one hour remains before
    the start of the slot, and a student may cancel iff strictly more than
    24 hours remain (never for an invalid start date).  With the other
    checks passing, booking 61 minutes before the start succeeds and booking
    60 minutes or less before it is rejected with TooLateToBook; a student
    cancelling 24 hours or less before the start is rejected with
    TooLateToCancel and succeeds 25 hours before it. *)
Theorem booking_and_cancellation_windows :
  (∀ t now, isBookingAllowed (Some t) now = true ↔ hour < t - now)
  ∧ (∀ t now, isWithinCancellationWindow (Some t) now = true ↔ 24 * hour < t - now)
  ∧ (∀ now, isBookingAllowed None now = false
            ∧ isWithinCancellationWindow None now = false)
  ∧ (∀ newId now stamp slotId studentId notes st i slot t,
       valid_student st studentId →
       first_match (λ s, Slot.id s = slotId) (uas_slots st) i slot →
       0 < Slot.availableSeats slot →
       Slot.startISO slot = Some t →
       let result := bookAppointment newId now stamp slotId studentId notes st in
       (t - now ≤ 60 * minute → result = (st, Rejected TooLateToBook))
       ∧ (t - now = 61 * minute →
          ¬ student_conflict st studentId slot →
          ∃ st' appt, result = (st', Resolved appt)))
  ∧ (∀ now stamp appointmentId st i appt j slot t,
       first_match (λ a, Appointment.id a = appointmentId) (uas_appointments st) i appt →
       first_match (λ s, Slot.id s = Appointment.slotId appt) (uas_slots st) j slot →
       Slot.startISO slot = Some t →
       let result :=
         cancelAppointment now stamp appointmentId (Appointment.studentId appt) st in
       (t - now ≤ 24 * hour → result = (st, Rejected TooLateToCancel))
       ∧ (t - now = 25 * hour → ∃ st', result = (st', Resolved tt))).
Proof.
  split_and!.
  - apply isBookingAllowed_iff.
  - apply isWithinCancellationWindow_iff.
  - done.
  - intros newId now stamp slotId studentId notes st i slot t
      Hstudent Hslot Hpos Hstart result. subst result. split.
    + intros Hlate. eapply bookAppointment_too_late; [done..|].
      rewrite Hstart. apply isBookingAllowed_false. unfold hour, minute in *. lia.
    + intros Hearly Hno. eexists _, _.
      eapply bookAppointment_success; [done..| |done].
      rewrite Hstart. apply isBookingAllowed_iff. unfold hour, minute in *. lia.
  - intros now stamp appointmentId st i appt j slot t Happt Hslot Hstart result.
    subst result. rewrite (cancelAppointment_found _ _ _ _ _ _ _ _ _ Happt Hslot).
    rewrite Hstart. split.
    + intros Hlate.
      rewrite (proj2 (isWithinCancellationWindow_false _ _)) by done.
      repeat case_bool_decide; simpl; done.
    + intros Hearly. eexists.
      rewrite (proj2 (isWithinCancellationWindow_iff _ _))
        by (unfold hour in *; lia).
      repeat case_bool_decide; simpl; done.
Qed.

Lemma booking_and_cancellation_windows_witness :
  bookAppointment "a1" (99 * hour) 0 "s1" "student1" None demo_slot
  = (demo_slot, Rejected TooLateToBook)
  ∧ ∃ st' appt,
      bookAppointment "a1" (100 * hour - 61 * minute) 0 "s1" "student1" None demo_slot
      = (st', Resolved appt).
Proof.
  destruct booking_and_cancellation_windows as (_ & _ & _ & Hbook & _).
  assert (Hslot : first_match (λ s, Slot.id s = "s1") (uas_slots demo_slot) 0
                    (demo_slot_s1 1)).
  { first_match_compute. }
  split.
  - apply (Hbook "a1" (99 * hour) 0 "s1" "student1" None demo_slot _ _ (100 * hour)
             valid_student_demo Hslot); [done|done|]. unfold hour, minute. lia.
  - apply (Hbook "a1" (100 * hour - 61 * minute) 0 "s1" "student1" None demo_slot
             _ _ (100 * hour) valid_student_demo Hslot); [done|done| |].
    + unfold hour, minute. lia.
    + intros (a & _ & _ & Ha & _). by apply elem_of_nil in Ha.
Defined.

(** ** Calls on an appointment that is no longer BOOKED *)

(** C2 does not hold of the code: [cancelAppointment] and [markAttended]
    have no guard on the status, against the lifecycle BOOKED -> CANCELLED
    or ATTENDED.  In [demo_cancelled] the appointment "a1" is CANCELLED:
    cancelling it once more (by the teacher) resolves and leaves 2 seats
    available out of 1, and marking it attended resolves.  In
    [demo_attended] it is ATTENDED: cancelling it (by the student, 100 hours
    ahead) resolves and frees a seat, and marking it attended again
    resolves.  None of the four calls is rejected. *)
Lemma terminal_appointment_not_rejected :
  cancelAppointment 0 1 "a1" "teacher1" demo_booked = (demo_cancelled, Resolved tt)
  ∧ cancelAppointment 0 2 "a1" "teacher1" demo_cancelled
    = (demo_cancelled_twice, Resolved tt)
  ∧ markAttended "a1" demo_cancelled
    = (mkStore demo_users [demo_slot_s1 1] [demo_appt_a1 ATTENDED (Some 1)],
       Resolved tt)
  ∧ markAttended "a1" demo_booked = (demo_attended, Resolved tt)
  ∧ cancelAppointment 0 2 "a1" "student1" demo_attended
    = (mkStore demo_users [demo_slot_s1 1] [demo_appt_a1 CANCELLED (Some 2)],
       Resolved tt)
  ∧ markAttended "a1" demo_attended = (demo_attended, Resolved tt).
Proof. split_and!; reflexivity. Qed.

(** ** Counting BOOKED appointments, and slots updated in place *)

Lemma booked_count_nonneg slotId appts : 0 ≤ booked_count slotId appts.
Proof. unfold booked_count. lia. Qed.

Lemma booked_count_cons slotId a appts :
  booked_count slotId (a :: appts) = holds_seat slotId a + booked_count slotId appts.
Proof.
  unfold booked_count, holds_seat. rewrite filter_cons.
  destruct (decide _); simpl; lia.
Qed.

Lemma booked_count_app slotId appts a :
  booked_count slotId (appts ++ [a]) = booked_count slotId appts + holds_seat slotId a.
Proof.
  induction appts as [|b appts IH]; simpl.
  - rewrite booked_count_cons. unfold booked_count. simpl. lia.
  - rewrite !booked_count_cons, IH. lia.
Qed.

Lemma booked_count_alter slotId f appts i a :
  appts !! i = Some a →
  booked_count slotId (alter f i appts)
  = booked_count slotId appts - holds_seat slotId a + holds_seat slotId (f a).
Proof.
  revert i. induction appts as [|b appts IH]; intros [|i] Hi; simplify_eq/=.
  - rewrite !booked_count_cons. lia.
  - rewrite !booked_count_cons, (IH i Hi). lia.
Qed.

Lemma booked_count_elem slotId appts a :
  a ∈ appts → holds_seat slotId a ≤ booked_count slotId appts.
Proof.
  induction 1 as [a l|a b l _ IH]; rewrite booked_count_cons.
  - pose proof (booked_count_nonneg slotId l). lia.
  - assert (0 ≤ holds_seat slotId b); [|lia].
    unfold holds_seat. destruct (decide _); lia.
Qed.

Lemma booked_count_unreferenced slotId appts :
  (∀ a, a ∈ appts → Appointment.slotId a ≠ slotId) →
  booked_count slotId appts = 0.
Proof.
  induction appts as [|a appts IH]; intros Hfresh; [done|].
  rewrite booked_count_cons, IH.
  - unfold holds_seat. rewrite decide_False; [done|].
    intros [Hid _]. by apply (Hfresh a); [left|].
  - intros b Hb. apply Hfresh. by right.
Qed.

Lemma holds_seat_set_status slotId v a :
  holds_seat slotId (Appointment.set_status v a)
  = if decide (Appointment.slotId a = slotId ∧ v = BOOKED) then 1 else 0.
Proof. done. Qed.

(** The elements of an array after [arr[j] = y]. *)
Lemma elem_of_insert_inv {A} (arr : list A) (j : nat) (x y : A) :
  x ∈ <[j:=y]> arr → x = y ∨ ∃ k, k ≠ j ∧ arr !! k = Some x.
Proof.
  intros [k Hk]%list_elem_of_lookup_1.
  destruct (decide (k = j)) as [->|Hne].
  - left. destruct (decide (j < length arr)%nat).
    + rewrite list_lookup_insert_eq in Hk by done. congruence.
    + rewrite list_insert_ge in Hk by lia.
      apply lookup_lt_Some in Hk. lia.
  - right. exists k. by rewrite list_lookup_insert_ne in Hk.
Qed.

(** With unique ids, the slots other than the one found have another id. *)
Lemma unique_slot_ids_other st j slot k s :
  unique_slot_ids st →
  uas_slots st !! j = Some slot → uas_slots st !! k = Some s → k ≠ j →
  Slot.id s ≠ Slot.id slot.
Proof.
  intros Huniq Hj Hk Hne Heq. apply Hne.
  apply (NoDup_lookup (Slot.id <$> uas_slots st) k j (Slot.id s) Huniq).
  - by rewrite list_lookup_fmap, Hk.
  - by rewrite list_lookup_fmap, Hj, Heq.
Qed.

Lemma slot_ids_insert (slots : list Slot.t) j slot v :
  slots !! j = Some slot →
  Slot.id <$> <[j:=Slot.set_availableSeats v slot]> slots = Slot.id <$> slots.
Proof.
  intros Hj. rewrite list_fmap_insert. apply list_insert_id.
  by rewrite list_lookup_fmap, Hj.
Qed.

(** ** Seat accounting through each operation *)

Lemma seat_accounting_booked st i slot appt :
  unique_slot_ids st → seat_accounting st →
  uas_slots st !! i = Some slot →
  Appointment.slotId appt = Slot.id slot →
  Appointment.status appt = BOOKED →
  seat_accounting (booked_store st i slot appt).
Proof.
  intros Huniq Hacc Hi Hid Hst s Hs. simpl in *.
  rewrite booked_count_app. unfold holds_seat.
  apply elem_of_insert_inv in Hs as [->|(k & Hne & Hk)].
  - simpl. rewrite decide_True by done.
    rewrite (Hacc slot) by (by eapply list_elem_of_lookup_2). lia.
  - pose proof (unique_slot_ids_other st i slot k s Huniq Hi Hk Hne) as Hother.
    rewrite decide_False by (intros [? _]; congruence).
    rewrite (Hacc s) by (by eapply list_elem_of_lookup_2). lia.
Qed.

Lemma seat_accounting_cancelled st stamp i appt j slot :
  unique_slot_ids st → seat_accounting st →
  uas_appointments st !! i = Some appt →
  uas_slots st !! j = Some slot →
  Appointment.slotId appt = Slot.id slot →
  Appointment.status appt = BOOKED →
  seat_accounting (cancelled_store st stamp i j slot).
Proof.
  intros Huniq Hacc Hi Hj Hid Hst s Hs. simpl in *.
  rewrite list_alter_alter_eq.
  rewrite (booked_count_alter _ _ _ _ _ Hi). unfold holds_seat. simpl.
  rewrite (decide_False (P:=_ ∧ CANCELLED = BOOKED)) by (by intros [_ ?]).
  apply elem_of_insert_inv in Hs as [->|(k & Hne & Hk)].
  - simpl. rewrite decide_True by done.
    rewrite (Hacc slot) by (by eapply list_elem_of_lookup_2). lia.
  - pose proof (unique_slot_ids_other st j slot k s Huniq Hj Hk Hne) as Hother.
    rewrite decide_False by (intros [? _]; congruence).
    rewrite (Hacc s) by (by eapply list_elem_of_lookup_2). lia.
Qed.

(** [markAttended] leaves the seats alone: each slot is short of the
    equation by the seat of the appointment when that one was BOOKED. *)
Lemma seat_accounting_attended st i appt s :
  seat_accounting st →
  uas_appointments st !! i = Some appt →
  s ∈ uas_slots st →
  Slot.availableSeats s
  = Slot.maxSeats s
    - booked_count (Slot.id s) (uas_appointments (attended_store st i))
    - holds_seat (Slot.id s) appt.
Proof.
  intros Hacc Hi Hs. simpl.
  rewrite (booked_count_alter _ _ _ _ _ Hi), holds_seat_set_status.
  rewrite decide_False by (by intros [_ ?]).
  rewrite (Hacc s Hs). lia.
Qed.

Lemma seat_accounting_created st newSlot :
  seat_accounting st →
  Slot.availableSeats newSlot = Slot.maxSeats newSlot →
  (∀ a, a ∈ uas_appointments st → Appointment.slotId a ≠ Slot.id newSlot) →
  seat_accounting
    (mkStore (uas_users st) (uas_slots st ++ [newSlot]) (uas_appointments st)).
Proof.
  intros Hacc Hfull Hfresh s Hs. simpl in *.
  apply elem_of_app in Hs as [Hs|Hs%list_elem_of_singleton]; [by apply Hacc|].
  subst s. rewrite Hfull.
  rewrite (booked_count_unreferenced _ _ Hfresh). lia.
Qed.

(** C1, as stated, fails at [markAttended]: in the store reached by
    creating the one-seat slot "s1" and booking it, the equation holds;
    marking the appointment attended succeeds and leaves 0 seats available
    out of 1 with no BOOKED appointment left. *)
Lemma markAttended_breaks_seat_accounting :
  createSlot "s1" demo_slotData demo_empty = (demo_slot, Resolved (demo_slot_s1 1))
  ∧ bookAppointment "a1" 0 0 "s1" "student1" None demo_slot
    = (demo_booked, Resolved demo_a1)
  ∧ seat_accounting demo_booked
  ∧ markAttended "a1" demo_booked = (demo_attended, Resolved tt)
  ∧ booked_count "s1" (uas_appointments demo_attended) = 0
  ∧ ¬ seat_accounting demo_attended.
Proof.
  split_and!; try reflexivity.
  - intros s Hs. apply list_elem_of_singleton in Hs as ->. reflexivity.
  - intros Hacc. specialize (Hacc demo_s1 ltac:(by left)). discriminate Hacc.
Qed.

(** C1, amended: from a store with unique slot ids in which
    [availableSeats = maxSeats - |BOOKED appointments of the slot|] holds for
    every slot, that equation (and the uniqueness of slot ids) holds again
    after a successful [createSlot] whose new id is fresh, after a
    successful [bookAppointment], and after a successful [cancelAppointment]
    of a BOOKED appointment.  A successful [markAttended] leaves the slots
    as they are, so afterwards the equation holds for every slot but the one
    of the appointment when that appointment was BOOKED: this slot has one
    seat less available than the equation says. *)
Theorem seat_accounting_preserved st :
  unique_slot_ids st → seat_accounting st →
  (∀ newId slotData st' newSlot,
     createSlot newId slotData st = (st', Resolved newSlot) →
     (∀ s, s ∈ uas_slots st → Slot.id s ≠ newId) →
     (∀ a, a ∈ uas_appointments st → Appointment.slotId a ≠ newId) →
     unique_slot_ids st' ∧ seat_accounting st')
  ∧ (∀ newId now stamp slotId studentId notes st' appt,
       bookAppointment newId now stamp slotId studentId notes st
       = (st', Resolved appt) →
       unique_slot_ids st' ∧ seat_accounting st')
  ∧ (∀ now stamp appointmentId userId st' i appt,
       cancelAppointment now stamp appointmentId userId st = (st', Resolved tt) →
       first_match (λ a, Appointment.id a = appointmentId)
         (uas_appointments st) i appt →
       Appointment.status appt = BOOKED →
       unique_slot_ids st' ∧ seat_accounting st')
  ∧ (∀ appointmentId st' i appt,
       markAttended appointmentId st = (st', Resolved tt) →
       first_match (λ a, Appointment.id a = appointmentId)
         (uas_appointments st) i appt →
       unique_slot_ids st'
       ∧ uas_slots st' = uas_slots st
       ∧ ∀ s, s ∈ uas_slots st' →
           Slot.availableSeats s
           = Slot.maxSeats s - booked_count (Slot.id s) (uas_appointments st')
             - holds_seat (Slot.id s) appt).
Proof.
  intros Huniq Hacc. split_and!.
  - intros newId slotData st' newSlot [-> ->]%createSlot_Resolved Hs Ha. split.
    + unfold unique_slot_ids. simpl. rewrite fmap_app. apply list.NoDup_app.
      split_and!; [done| |apply NoDup_singleton].
      intros x [s [-> Hin]]%list_elem_of_fmap Hx%list_elem_of_singleton.
      by apply (Hs s).
    + by apply seat_accounting_created.
  - intros newId now stamp slotId studentId notes st' appt
      (i & slot & (Hi & Hid & _) & _ & -> & ->)%bookAppointment_Resolved. split.
    + unfold unique_slot_ids. simpl. by rewrite slot_ids_insert.
    + by apply seat_accounting_booked.
  - intros now stamp appointmentId userId st' i appt
      (i' & appt' & j & slot & Happt' & (Hj & Hid & _) & ->)%cancelAppointment_Resolved
      Happt Hst.
    pose proof (first_match_find _ _ _ _ Happt) as E.
    rewrite (first_match_find _ _ _ _ Happt') in E. simplify_eq. split.
    + unfold unique_slot_ids. simpl. by rewrite slot_ids_insert.
    + apply (seat_accounting_cancelled st stamp i appt j slot);
        [done|done|apply Happt|done|done|done].
  - intros appointmentId st' i appt
      (i' & appt' & Happt' & ->)%markAttended_Resolved Happt.
    pose proof (first_match_find _ _ _ _ Happt) as E.
    rewrite (first_match_find _ _ _ _ Happt') in E. simplify_eq.
    split_and!; [done..|].
    intros s Hs. apply seat_accounting_attended; [done|apply Happt|done].
Qed.

Lemma seat_accounting_preserved_witness :
  unique_slot_ids demo_cancelled ∧ seat_accounting demo_cancelled.
Proof.
  assert (Huniq : unique_slot_ids demo_booked).
  { apply NoDup_singleton. }
  assert (Hacc : seat_accounting demo_booked).
  { intros s Hs. apply list_elem_of_singleton in Hs as ->. reflexivity. }
  destruct (seat_accounting_preserved demo_booked Huniq Hacc)
    as (_ & _ & Hcancel & _).
  apply (Hcancel 0 1 "a1" "teacher1" demo_cancelled 0%nat demo_a1);
    [reflexivity|first_match_compute|reflexivity].
Defined.

(** ** The bounds of [availableSeats] *)

(** C4 does not hold of the code, by the same missing guard on the status:
    [cancelAppointment] gives a seat back for an appointment that holds
    none.  In [demo_cancelled], reached by cancelling the only booking of
    the one-seat slot, the bounds hold; cancelling the same appointment
    again resolves and leaves the slot with 2 seats available out of 1. *)
Lemma cancel_exceeds_maxSeats :
  cancelAppointment 0 1 "a1" "teacher1" demo_booked = (demo_cancelled, Resolved tt)
  ∧ seats_in_bounds demo_cancelled
  ∧ cancelAppointment 0 2 "a1" "teacher1" demo_cancelled
    = (demo_cancelled_twice, Resolved tt)
  ∧ uas_slots demo_cancelled_twice = [demo_slot_s1 2]
  ∧ Slot.maxSeats (demo_slot_s1 2) = 1
  ∧ ¬ seats_in_bounds demo_cancelled_twice.
Proof.
  split_and!; try reflexivity.
  - intros s Hs. apply list_elem_of_singleton in Hs as ->. done.
  - intros Hb. specialize (Hb (demo_slot_s1 2) ltac:(by left)).
    simpl in Hb. lia.
Qed.

(** X26: the bounds [0 ≤ availableSeats ≤ maxSeats] on the guarded paths.
    From a store where they hold for every slot, they hold again after a
    successful [createSlot] with [maxSeats ≥ 0], after a successful
    [bookAppointment], after a successful [markAttended], and after a
    successful [cancelAppointment] of a BOOKED appointment when the seat
    accounting holds. *)
Theorem seats_in_bounds_guarded_calls st :
  seats_in_bounds st →
  (∀ newId slotData st' newSlot,
     createSlot newId slotData st = (st', Resolved newSlot) →
     0 ≤ SlotData.maxSeats slotData →
     seats_in_bounds st')
  ∧ (∀ newId now stamp slotId studentId notes st' appt,
       bookAppointment newId now stamp slotId studentId notes st
       = (st', Resolved appt) →
       seats_in_bounds st')
  ∧ (∀ appointmentId st',
       markAttended appointmentId st = (st', Resolved tt) →
       seats_in_bounds st')
  ∧ (∀ now stamp appointmentId userId st' i appt,
       cancelAppointment now stamp appointmentId userId st = (st', Resolved tt) →
       first_match (λ a, Appointment.id a = appointmentId)
         (uas_appointments st) i appt →
       Appointment.status appt = BOOKED →
       seat_accounting st →
       seats_in_bounds st').
Proof.
  intros Hb. split_and!.
  - intros newId slotData st' newSlot [-> ->]%createSlot_Resolved Hmax s Hs.
    simpl in Hs.
    apply elem_of_app in Hs as [Hs|Hs%list_elem_of_singleton]; [by apply Hb|].
    subst s. simpl. lia.
  - intros newId now stamp slotId studentId notes st' appt
      (i & slot & (Hi & _) & Hpos & _ & ->)%bookAppointment_Resolved s Hs.
    simpl in Hs. apply elem_of_insert_inv in Hs as [->|(k & _ & Hk)].
    + pose proof (Hb slot (list_elem_of_lookup_2 _ _ _ Hi)). simpl. lia.
    + by eapply Hb, list_elem_of_lookup_2.
  - intros appointmentId st' (i & appt & _ & ->)%markAttended_Resolved. done.
  - intros now stamp appointmentId userId st' i appt
      (i' & appt' & j & slot & Happt' & Hslot & ->)%cancelAppointment_Resolved
      Happt Hst Hacc.
    pose proof (first_match_find _ _ _ _ Happt) as E.
    rewrite (first_match_find _ _ _ _ Happt') in E. simplify_eq.
    destruct Hslot as (Hj & Hid & Hleast). simpl in Hid.
    pose proof (Hb slot (list_elem_of_lookup_2 _ _ _ Hj)) as Hslotb.
    pose proof (Hacc slot (list_elem_of_lookup_2 _ _ _ Hj)) as Hseats.
    pose proof (booked_count_elem (Slot.id slot) (uas_appointments st) appt
                  (list_elem_of_lookup_2 _ _ _ (proj1 Happt))) as Hcount.
    unfold holds_seat in Hcount. rewrite decide_True in Hcount by done.
    intros s Hs. simpl in Hs.
    apply elem_of_insert_inv in Hs as [->|(k & _ & Hk)].
    + simpl. lia.
    + by eapply Hb, list_elem_of_lookup_2.
Qed.

Lemma seats_in_bounds_guarded_calls_witness : seats_in_bounds demo_cancelled.
Proof.
  assert (Hb : seats_in_bounds demo_booked).
  { intros s Hs. apply list_elem_of_singleton in Hs as ->. done. }
  destruct (seats_in_bounds_guarded_calls demo_booked Hb) as (_ & _ & _ & Hcancel).
  apply (Hcancel 0 1 "a1" "teacher1" demo_cancelled 0%nat demo_a1);
    [reflexivity|first_match_compute|reflexivity|].
  intros s Hs. apply list_elem_of_singleton in Hs as ->. reflexivity.
Defined.

(** ** Booking then cancelling *)

(** A fresh identifier appended to the array is found at the last index. *)
Lemma first_match_fresh {A} (P : A → Prop) `{∀ x, Decision (P x)}
    (arr : list A) (a : A) (i : nat) (x : A) :
  (∀ y, y ∈ arr → ¬ P y) →
  first_match P (arr ++ [a]) i x → i = length arr ∧ x = a.
Proof.
  intros Hfresh (Hi & HP & _).
  apply lookup_app_Some in Hi as [Hi|[Hlen Hi]].
  - destruct (Hfresh x); [by eapply list_elem_of_lookup_2|done].
  - destruct (i - length arr)%nat as [|n] eqn:E; simplify_eq/=.
    split; [lia|done].
Qed.

Lemma appointment_ids_alter (f : Appointment.t → Appointment.t) (i : nat)
    (appts : list Appointment.t) :
  (∀ a, Appointment.id (f a) = Appointment.id a) →
  Appointment.id <$> alter f i appts = Appointment.id <$> appts.
Proof.
  intros Hid. revert i.
  induction appts as [|a appts IH]; intros [|i]; csimpl; [done..| |].
  - by rewrite Hid.
  - f_equal. apply IH.
Qed.

Lemma set_availableSeats_back slot :
  Slot.set_availableSeats (Slot.availableSeats slot - 1 + 1)
    (Slot.set_availableSeats (Slot.availableSeats slot - 1) slot)
  = slot.
Proof.
  destruct slot. unfold Slot.set_availableSeats. simpl. f_equal. lia.
Qed.

(** One cycle: the slots come back as they were, and the appointments gain
    the new (now cancelled) appointment. *)
Lemma book_then_cancel_slots c st st' :
  book_then_cancel c st = (st', Resolved tt) →
  (∀ a, a ∈ uas_appointments st → Appointment.id a ≠ cy_newId c) →
  uas_slots st' = uas_slots st
  ∧ Appointment.id <$> uas_appointments st'
    = (Appointment.id <$> uas_appointments st) ++ [cy_newId c].
Proof.
  unfold book_then_cancel, bind.
  destruct (bookAppointment _ _ _ _ _ _ st) as [st1 [appt|e]] eqn:Hbook;
    [|done].
  intros Hcancel Hfresh.
  apply bookAppointment_Resolved in Hbook
    as (i & slot & Hslot & Hpos & -> & ->).
  apply cancelAppointment_Resolved in Hcancel
    as (i' & appt' & j & slot' & Happt' & Hslot' & ->).
  simpl in Happt'.
  destruct (first_match_fresh (λ a, Appointment.id a = cy_newId c)
              _ _ _ _ Hfresh Happt') as [-> ->].
  simpl in Hslot'.
  pose proof (list_find_insert_same (λ s, Slot.id s = cy_slotId c) _ _ _
                (Slot.set_availableSeats (Slot.availableSeats slot - 1) slot)
                (first_match_find _ _ _ _ Hslot) (proj1 (proj2 Hslot))) as E.
  rewrite (first_match_find _ _ _ _ Hslot') in E. simplify_eq.
  split.
  - simpl. rewrite list_insert_insert_eq, set_availableSeats_back.
    apply list_insert_id, Hslot.
  - simpl. rewrite list_alter_alter_eq, appointment_ids_alter by done.
    by rewrite fmap_app.
Qed.

(** C8: a successful [bookAppointment] followed by the successful
    [cancelAppointment] of the appointment it created (its id is new among
    the appointments) leaves every slot, hence every [availableSeats], as
    before the booking; so does any number of such cycles, whatever slots,
    students and cancelling users they involve. *)
Theorem book_cancel_round_trip cs st st' :
  book_cancel_cycles cs st = (st', Resolved tt) →
  NoDup (cy_newId <$> cs) →
  (∀ c a, c ∈ cs → a ∈ uas_appointments st → Appointment.id a ≠ cy_newId c) →
  uas_slots st' = uas_slots st
  ∧ (∀ k, Slot.availableSeats <$> uas_slots st' !! k
          = Slot.availableSeats <$> uas_slots st !! k)
  ∧ length (uas_appointments st')
    = (length (uas_appointments st) + length cs)%nat.
Proof.
  intros Hrun Hnodup Hfresh.
  cut (uas_slots st' = uas_slots st
       ∧ Appointment.id <$> uas_appointments st'
         = (Appointment.id <$> uas_appointments st) ++ (cy_newId <$> cs)).
  { intros [Hslots Hids]. split_and!; [done|by rewrite Hslots|].
    apply (f_equal length) in Hids.
    by rewrite length_app, !length_fmap in Hids. }
  revert st Hrun Hnodup Hfresh.
  induction cs as [|c cs IH]; intros st Hrun Hnodup Hfresh; simpl in *.
  - injection Hrun as <-. by rewrite app_nil_r.
  - unfold bind in Hrun.
    destruct (book_then_cancel c st) as [st1 [[]|e]] eqn:Hcycle; [|done].
    apply book_then_cancel_slots in Hcycle as [Hslots1 Hids1].
    2:{ intros a Ha. apply Hfresh; [by left|done]. }
    apply list.NoDup_cons in Hnodup as [Hnotin Hnodup].
    destruct (IH st1 Hrun Hnodup) as [Hslots Hids].
    { intros c' a Hc' Ha Heq.
      assert (Hin : Appointment.id a ∈ Appointment.id <$> uas_appointments st1).
      { apply list_elem_of_fmap. by exists a. }
      rewrite Hids1 in Hin.
      apply elem_of_app in Hin as [Hin|Hin%list_elem_of_singleton].
      - apply list_elem_of_fmap in Hin as (a0 & Hid0 & Ha0).
        apply (Hfresh c' a0); [by right|done|congruence].
      - apply Hnotin. apply list_elem_of_fmap. exists c'. split; [congruence|done]. }
    split; [congruence|].
    by rewrite Hids, Hids1, <- app_assoc.
Qed.

Lemma book_cancel_round_trip_witness :
  uas_slots (fst (book_cancel_cycles demo_cycles demo_slot)) = uas_slots demo_slot
  ∧ (∀ k, Slot.availableSeats
            <$> uas_slots (fst (book_cancel_cycles demo_cycles demo_slot)) !! k
          = Slot.availableSeats <$> uas_slots demo_slot !! k)
  ∧ length (uas_appointments (fst (book_cancel_cycles demo_cycles demo_slot)))
    = (length (uas_appointments demo_slot) + length demo_cycles)%nat.
Proof.
  apply (book_cancel_round_trip demo_cycles demo_slot).
  - reflexivity.
  - refine (bool_decide_unpack (NoDup (cy_newId <$> demo_cycles)) _).
    reflexivity.
  - intros c a _ Ha. by apply elem_of_nil in Ha.
Defined.

(** * Further properties of the helpers and of the API *)

(** ** The time helpers *)

Lemma num_lt_Some (a b : TimeValue) :
  num_lt a b = true ↔ ∃ x y, a = Some x ∧ b = Some y ∧ x < y.
Proof.
  unfold num_lt. destruct a as [x|], b as [y|]; try (split; [done|]).
  - rewrite bool_decide_eq_true. split; [by exists x, y|].
    by intros (? & ? & [= <-] & [= <-] & ?).
  - by intros (? & ? & _ & ? & _).
  - by intros (? & ? & ? & _).
  - by intros (? & ? & ? & _).
Qed.

(** X1: [slotsOverlap] does not depend on the order of the two ranges; a
    range overlaps itself exactly when it is not empty ([start < end]); and a
    non-empty range overlaps every range that contains it. *)
Theorem slotsOverlap_symmetric :
  (∀ start1 end1 start2 end2 : TimeValue,
     slotsOverlap start1 end1 start2 end2 = slotsOverlap start2 end2 start1 end1)
  ∧ (∀ s e : Z, slotsOverlap (Some s) (Some e) (Some s) (Some e) = true ↔ s < e)
  ∧ (∀ s1 e1 s2 e2 : Z,
       s1 ≤ s2 → s2 < e2 → e2 ≤ e1 →
       slotsOverlap (Some s1) (Some e1) (Some s2) (Some e2) = true).
Proof.
  split_and!.
  - intros. unfold slotsOverlap. apply andb_comm.
  - intros s e. unfold slotsOverlap, num_lt.
    rewrite andb_true_iff, !bool_decide_eq_true. lia.
  - intros s1 e1 s2 e2 H1 H2 H3. unfold slotsOverlap, num_lt.
    rewrite andb_true_iff, !bool_decide_eq_true. lia.
Qed.

Lemma slotsOverlap_symmetric_witness :
  slotsOverlap (Some (9 * hour)) (Some (12 * hour))
    (Some (10 * hour)) (Some (11 * hour)) = true.
Proof.
  apply (proj2 (proj2 slotsOverlap_symmetric)); unfold hour; lia.
Defined.

Lemma isBookingAllowed_Some s now :
  isBookingAllowed s now = true ↔ ∃ t, s = Some t ∧ hour < t - now.
Proof.
  destruct s as [t|].
  - rewrite isBookingAllowed_iff. split; [by exists t|].
    by intros (? & [= <-] & ?).
  - split; [done|]. by intros (? & ? & _).
Qed.

Lemma isWithinCancellationWindow_Some s now :
  isWithinCancellationWindow s now = true ↔ ∃ t, s = Some t ∧ 24 * hour < t - now.
Proof.
  destruct s as [t|].
  - rewrite isWithinCancellationWindow_iff. split; [by exists t|].
    by intros (? & [= <-] & ?).
  - split; [done|]. by intros (? & ? & _).
Qed.

(** X2: the timing helpers agree with each other.  When a student may still
    cancel, booking is still allowed; what is allowed at some time was
    allowed at every earlier time; a slot that can still be booked and does
    not end before it starts is not past; and a slot is past exactly when
    its end is a valid date strictly before now. *)
Theorem timing_helpers_consistent (slotStart slotEnd : TimeValue) (now : Z) :
  (isWithinCancellationWindow slotStart now = true →
   isBookingAllowed slotStart now = true)
  ∧ (∀ earlier, earlier ≤ now →
       (isBookingAllowed slotStart now = true →
        isBookingAllowed slotStart earlier = true)
       ∧ (isWithinCancellationWindow slotStart now = true →
          isWithinCancellationWindow slotStart earlier = true)
       ∧ (isPastSlot slotEnd earlier = true → isPastSlot slotEnd now = true))
  ∧ (isBookingAllowed slotStart now = true →
     num_lt slotEnd slotStart = false →
     isPastSlot slotEnd now = false)
  ∧ (isPastSlot slotEnd now = true ↔ ∃ e, slotEnd = Some e ∧ e < now).
Proof.
  split_and!.
  - intros (t & -> & Ht)%isWithinCancellationWindow_Some.
    apply isBookingAllowed_iff. unfold hour in *. lia.
  - intros earlier Hle. split_and!.
    + intros (t & -> & Ht)%isBookingAllowed_Some.
      apply isBookingAllowed_iff. lia.
    + intros (t & -> & Ht)%isWithinCancellationWindow_Some.
      apply isWithinCancellationWindow_iff. lia.
    + unfold isPastSlot. rewrite !num_lt_Some.
      intros (x & y & -> & [= <-] & Hxy). exists x, now. split_and!; [done..|lia].
  - intros (t & -> & Ht)%isBookingAllowed_Some Horder.
    apply not_true_iff_false. unfold isPastSlot. rewrite num_lt_Some.
    intros (e & y & -> & [= <-] & Hlt).
    apply not_true_iff_false in Horder. apply Horder, num_lt_Some.
    exists e, t. split_and!; [done..|]. unfold hour in *. lia.
  - unfold isPastSlot. rewrite num_lt_Some. split.
    + intros (e & y & -> & [= <-] & Hlt). by exists e.
    + intros (e & -> & Hlt). by exists e, now.
Qed.

Lemma timing_helpers_consistent_witness :
  isBookingAllowed (Some (100 * hour)) (50 * hour) = true
  ∧ isPastSlot (Some (101 * hour)) (50 * hour) = false.
Proof.
  destruct (timing_helpers_consistent (Some (100 * hour)) (Some (101 * hour))
              (50 * hour)) as (Hcancel & _ & Hpast & _).
  assert (Hbook : isBookingAllowed (Some (100 * hour)) (50 * hour) = true).
  { apply Hcancel. reflexivity. }
  split; [exact Hbook|]. apply Hpast; [exact Hbook|reflexivity].
Defined.

(** ** [getRelativeTime] *)

Lemma q_lt_hours (a n : Z) :
  q_lt (Some (inject_Z a / inject_Z (1000 * 60 * 60))%Q) (inject_Z n)
  = bool_decide (a < n * hour).
Proof.
  unfold q_lt, hour. destruct (Qlt_le_dec _ _) as [Hlt|Hle]; symmetry.
  - apply bool_decide_eq_true. revert Hlt.
    unfold Qlt, Qdiv, Qmult, Qinv, inject_Z. simpl. lia.
  - apply bool_decide_eq_false. revert Hle.
    unfold Qle, Qdiv, Qmult, Qinv, inject_Z. simpl. lia.
Qed.

Lemma q_lt_days (a n : Z) :
  q_lt (Some (inject_Z a / inject_Z (1000 * 60 * 60 * 24))%Q) (inject_Z n)
  = bool_decide (a < n * day).
Proof.
  unfold q_lt, day. destruct (Qlt_le_dec _ _) as [Hlt|Hle]; symmetry.
  - apply bool_decide_eq_true. revert Hlt.
    unfold Qlt, Qdiv, Qmult, Qinv, inject_Z. simpl. lia.
  - apply bool_decide_eq_false. revert Hle.
    unfold Qle, Qdiv, Qmult, Qinv, inject_Z. simpl. lia.
Qed.

(** [getRelativeTime] on a valid date, with integer tests and quotients. *)
Lemma getRelativeTime_Some (t now : Z) :
  getRelativeTime (Some t) now =
  let d := t - now in
  (if bool_decide (0 < d) then
     if bool_decide (Z.abs d < hour) then "in less than 1 hour"
     else if bool_decide (Z.abs d < 24 * hour)
     then "in " +:+ pretty (Z.abs d `div` hour) +:+ " hours"
     else if bool_decide (Z.abs d < 7 * day)
     then "in " +:+ pretty (Z.abs d `div` day) +:+ " days"
     else "in over a week"
   else
     if bool_decide (Z.abs d < hour) then "less than 1 hour ago"
     else if bool_decide (Z.abs d < 24 * hour)
     then pretty (Z.abs d `div` hour) +:+ " hours ago"
     else if bool_decide (Z.abs d < 7 * day)
     then pretty (Z.abs d `div` day) +:+ " days ago"
     else "over a week ago")%string.
Proof.
  unfold getRelativeTime. cbn [fmap option_fmap option_map num_lt].
  change 1%Q with (inject_Z 1). change 24%Q with (inject_Z 24).
  change 7%Q with (inject_Z 7).
  rewrite !q_lt_hours, !q_lt_days.
  unfold Math_floor, number_to_string. cbn [fmap option_fmap option_map].
  rewrite <- !Zdiv_Qdiv. rewrite Z.mul_1_l.
  reflexivity.
Qed.

(** Deciding the tests of [getRelativeTime_Some] from bounds on [d]. *)
Ltac relative_time_tests :=
  rewrite getRelativeTime_Some; cbv zeta;
  repeat (case_bool_decide; unfold hour, day in *; try lia).

(** X3: the label of [getRelativeTime] by the distance [d = t - now]: in the
    future, below one hour it is "in less than 1 hour", below 24 hours "in N
    hours" with N the whole hours (1 to 23), below 7 days "in N days" with N
    the whole days (1 to 6), then "in over a week"; the past labels mirror
    them, the present moment counting as "less than 1 hour ago"; an invalid
    date is labelled "over a week ago". *)
Theorem getRelativeTime_cases (t now : Z) :
  let d := t - now in
  let label := getRelativeTime (Some t) now in
  (0 < d < hour → label = "in less than 1 hour")
  ∧ (hour ≤ d < 24 * hour →
     label = ("in " +:+ pretty (d `div` hour) +:+ " hours")%string
     ∧ 1 ≤ d `div` hour ≤ 23)
  ∧ (day ≤ d < 7 * day →
     label = ("in " +:+ pretty (d `div` day) +:+ " days")%string
     ∧ 1 ≤ d `div` day ≤ 6)
  ∧ (7 * day ≤ d → label = "in over a week")
  ∧ (- hour < d ≤ 0 → label = "less than 1 hour ago")
  ∧ (- (24 * hour) < d ≤ - hour →
     label = (pretty ((- d) `div` hour) +:+ " hours ago")%string
     ∧ 1 ≤ (- d) `div` hour ≤ 23)
  ∧ (- (7 * day) < d ≤ - day →
     label = (pretty ((- d) `div` day) +:+ " days ago")%string
     ∧ 1 ≤ (- d) `div` day ≤ 6)
  ∧ (d ≤ - (7 * day) → label = "over a week ago")
  ∧ getRelativeTime None now = "over a week ago".
Proof.
  intros d label. subst d label. split_and!; try reflexivity.
  - intros Hd. relative_time_tests. done.
  - intros Hd. split.
    + relative_time_tests. by rewrite Z.abs_eq by lia.
    + unfold hour in *. split.
      * apply Z.div_le_lower_bound; lia.
      * cut ((t - now) `div` (1000 * 60 * 60) < 24); [lia|].
        apply Z.div_lt_upper_bound; lia.
  - intros Hd. split.
    + relative_time_tests. by rewrite Z.abs_eq by lia.
    + unfold day in *. split.
      * apply Z.div_le_lower_bound; lia.
      * cut ((t - now) `div` (1000 * 60 * 60 * 24) < 7); [lia|].
        apply Z.div_lt_upper_bound; lia.
  - intros Hd. relative_time_tests. done.
  - intros Hd. relative_time_tests. done.
  - intros Hd. split.
    + relative_time_tests. by rewrite Z.abs_neq by lia.
    + unfold hour in *. split.
      * apply Z.div_le_lower_bound; lia.
      * cut ((- (t - now)) `div` (1000 * 60 * 60) < 24); [lia|].
        apply Z.div_lt_upper_bound; lia.
  - intros Hd. split.
    + relative_time_tests. by rewrite Z.abs_neq by lia.
    + unfold day in *. split.
      * apply Z.div_le_lower_bound; lia.
      * cut ((- (t - now)) `div` (1000 * 60 * 60 * 24) < 7); [lia|].
        apply Z.div_lt_upper_bound; lia.
  - intros Hd. relative_time_tests. done.
Qed.

Lemma getRelativeTime_cases_witness :
  getRelativeTime (Some (100 * hour)) (94 * hour + 30 * minute) = "in 5 hours"
  ∧ 1 ≤ (100 * hour - (94 * hour + 30 * minute)) `div` hour ≤ 23.
Proof.
  destruct (getRelativeTime_cases (100 * hour) (94 * hour + 30 * minute))
    as (_ & Hhours & _).
  apply Hhours. unfold hour, minute. lia.
Defined.

(** X4: the label agrees with the timing policies.  When booking is allowed
    the label is "in N hours" (N from 1 to 23), "in N days" (N from 1 to 6)
    or "in over a week", never "in less than 1 hour" or a past label; when a
    student may cancel it is "in N days" or "in over a week".  At exactly
    one hour before the start the label reads "in 1 hours" and booking is
    already refused. *)
Theorem relative_time_label_when_allowed (slotStart : TimeValue) (now : Z) :
  let label := getRelativeTime slotStart now in
  let in_hours :=
    ∃ n, 1 ≤ n ≤ 23 ∧ label = ("in " +:+ pretty n +:+ " hours")%string in
  let in_days :=
    ∃ n, 1 ≤ n ≤ 6 ∧ label = ("in " +:+ pretty n +:+ " days")%string in
  (isBookingAllowed slotStart now = true →
   in_hours ∨ in_days ∨ label = "in over a week")
  ∧ (isWithinCancellationWindow slotStart now = true →
     in_days ∨ label = "in over a week")
  ∧ (slotStart = Some (now + hour) →
     label = "in 1 hours" ∧ isBookingAllowed slotStart now = false).
Proof.
  intros label in_hours in_days. subst label in_hours in_days. split_and!.
  - intros (t & -> & Ht)%isBookingAllowed_Some.
    destruct (decide (t - now < 24 * hour)) as [Hh|Hh];
      [|destruct (decide (t - now < 7 * day)) as [Hd|Hd]].
    + left. exists ((t - now) `div` hour). split.
      * unfold hour in *. split.
        -- apply Z.div_le_lower_bound; lia.
        -- cut ((t - now) `div` (1000 * 60 * 60) < 24); [lia|].
           apply Z.div_lt_upper_bound; lia.
      * relative_time_tests. by rewrite Z.abs_eq by lia.
    + right. left. exists ((t - now) `div` day). split.
      * unfold hour, day in *. split.
        -- apply Z.div_le_lower_bound; lia.
        -- cut ((t - now) `div` (1000 * 60 * 60 * 24) < 7); [lia|].
           apply Z.div_lt_upper_bound; lia.
      * relative_time_tests. by rewrite Z.abs_eq by lia.
    + right. right. relative_time_tests. done.
  - intros (t & -> & Ht)%isWithinCancellationWindow_Some.
    destruct (decide (t - now < 7 * day)) as [Hd|Hd].
    + left. exists ((t - now) `div` day). split.
      * unfold hour, day in *. split.
        -- apply Z.div_le_lower_bound; lia.
        -- cut ((t - now) `div` (1000 * 60 * 60 * 24) < 7); [lia|].
           apply Z.div_lt_upper_bound; lia.
      * relative_time_tests. by rewrite Z.abs_eq by lia.
    + right. relative_time_tests. done.
  - intros ->. split.
    + relative_time_tests.
      replace (now + 1000 * 60 * 60 - now) with (1000 * 60 * 60) by lia.
      reflexivity.
    + apply isBookingAllowed_false. lia.
Qed.

Lemma relative_time_label_when_allowed_witness :
  getRelativeTime (Some (100 * hour)) (99 * hour) = "in 1 hours"
  ∧ isBookingAllowed (Some (100 * hour)) (99 * hour) = false.
Proof.
  destruct (relative_time_label_when_allowed (Some (100 * hour)) (99 * hour))
    as (_ & _ & Hedge).
  apply Hedge. reflexivity.
Defined.

(** ** Users and the session *)

Lemma array_some_Exists {A} (P : A → Prop) `{∀ x, Decision (P x)} (arr : list A) :
  array_some P arr = true ↔ ∃ x, x ∈ arr ∧ P x.
Proof. unfold array_some. by rewrite bool_decide_eq_true, Exists_exists. Qed.

Lemma array_some_false {A} (P : A → Prop) `{∀ x, Decision (P x)} (arr : list A) :
  array_some P arr = false ↔ ∀ x, x ∈ arr → ¬ P x.
Proof.
  rewrite <- not_true_iff_false, array_some_Exists. split.
  - intros Hno x Hx HP. apply Hno. by exists x.
  - intros Hall (x & Hx & HP). by apply (Hall x).
Qed.

(** [find] on an array after a [push]. *)
Lemma array_find_push {A} (P : A → Prop) `{∀ x, Decision (P x)}
    (arr : list A) (x : A) :
  array_find P (arr ++ [x]) =
  match array_find P arr with
  | Some y => Some y
  | None => if decide (P x) then Some x else None
  end.
Proof.
  unfold array_find.
  destruct (list_find P arr) as [[i y]|] eqn:E.
  - by rewrite (list_find_app_l P arr [x] i y E).
  - rewrite (list_find_app_r P arr [x] E). simpl.
    by destruct (decide (P x)).
Qed.

Lemma createUser_run user st :
  createUser user st =
  if array_some (λ u, User.id u = User.id user
                      ∨ User.email u = User.email user) (uas_users st)
  then (st, Rejected UserAlreadyExists)
  else (mkStore (uas_users st ++ [user]) (uas_slots st) (uas_appointments st),
        Resolved user).
Proof.
  unfold createUser, bind, getFromStorage, throw, ret. simpl.
  by destruct (array_some _ _).
Qed.

(** X5: [createUser] is rejected with "User already exists", writing
    nothing, exactly when a stored user has the same id or the same email;
    otherwise it appends the user and leaves slots and appointments alone. *)
Theorem createUser_outcome user st :
  let taken :=
    ∃ u, u ∈ uas_users st
         ∧ (User.id u = User.id user ∨ User.email u = User.email user) in
  (taken → createUser user st = (st, Rejected UserAlreadyExists))
  ∧ (¬ taken →
     createUser user st
     = (mkStore (uas_users st ++ [user]) (uas_slots st) (uas_appointments st),
        Resolved user))
  ∧ (∀ st' e, createUser user st = (st', Rejected e) →
       taken ∧ st' = st ∧ e = UserAlreadyExists).
Proof.
  intros taken. subst taken. rewrite createUser_run.
  destruct (array_some _ _) eqn:E.
  - apply array_some_Exists in E. split_and!; [done|done|].
    by intros st' e [= <- <-].
  - split_and!; [|done|done].
    intros Htaken. apply not_true_iff_false in E. destruct E.
    apply array_some_Exists. exact Htaken.
Qed.

Lemma createUser_outcome_witness :
  createUser (User.mk "student9" "Alice Again" STUDENT "alice@university.edu" None)
    demo_empty
  = (demo_empty, Rejected UserAlreadyExists).
Proof.
  apply (proj1 (createUser_outcome _ demo_empty)).
  exists (User.mk "student1" "Alice Johnson" STUDENT "alice@university.edu" None).
  split; [by left|by right].
Defined.

(** X6: a successful [createUser] keeps user ids and emails unique, puts
    the new user last in the list of [getUsers], makes it the answer of
    [getUserById] for its id, and changes the answer for no other id. *)
Theorem createUser_unique_and_found user st st' :
  createUser user st = (st', Resolved user) →
  (NoDup (User.id <$> uas_users st) → NoDup (User.id <$> uas_users st'))
  ∧ (NoDup (User.email <$> uas_users st) → NoDup (User.email <$> uas_users st'))
  ∧ getUsers st' = (st', Resolved (uas_users st ++ [user]))
  ∧ getUserById (User.id user) st' = (st', Resolved (Some user))
  ∧ (∀ userId, userId ≠ User.id user →
       snd (getUserById userId st') = snd (getUserById userId st)).
Proof.
  rewrite createUser_run.
  destruct (array_some _ _) eqn:E; [done|]. intros [= <-].
  pose proof (proj1 (array_some_false _ _) E) as Hfree.
  split_and!; [| |done| |].
  - intros Hnd. simpl. rewrite fmap_app. apply list.NoDup_app.
    split_and!; [done| |apply NoDup_singleton].
    intros x [u [-> Hu]]%list_elem_of_fmap Hx%list_elem_of_singleton.
    apply (Hfree u Hu). by left.
  - intros Hnd. simpl. rewrite fmap_app. apply list.NoDup_app.
    split_and!; [done| |apply NoDup_singleton].
    intros x [u [-> Hu]]%list_elem_of_fmap Hx%list_elem_of_singleton.
    apply (Hfree u Hu). by right.
  - unfold getUserById, bind, getFromStorage, ret. simpl.
    rewrite array_find_push.
    destruct (array_find _ (uas_users st)) as [u|] eqn:Hu.
    + apply array_find_Some_elem in Hu as [Hu Hid].
      destruct (Hfree u Hu). by left.
    + by rewrite decide_True.
  - intros userId Hne.
    unfold getUserById, bind, getFromStorage, ret. simpl.
    rewrite array_find_push.
    destruct (array_find _ (uas_users st)); [done|].
    by rewrite decide_False by congruence.
Qed.

Lemma createUser_unique_and_found_witness :
  getUserById "student3"
    (fst (createUser
            (User.mk "student3" "Carol Wang" STUDENT "carol@university.edu" None)
            demo_empty))
  = (fst (createUser
            (User.mk "student3" "Carol Wang" STUDENT "carol@university.edu" None)
            demo_empty),
     Resolved
       (Some (User.mk "student3" "Carol Wang" STUDENT "carol@university.edu" None))).
Proof.
  apply (createUser_unique_and_found
           (User.mk "student3" "Carol Wang" STUDENT "carol@university.edu" None)
           demo_empty).
  reflexivity.
Defined.

(** X7: a user just created can log in: [login] with its id succeeds,
    returns that user and makes it the current user, without touching the
    collections.  A [login] with an id no user has is rejected with "User
    not found" and leaves whoever was logged in as the current user;
    [logout] leaves no current user. *)
Theorem login_session user st st' session userId :
  createUser user st = (st', Resolved user) →
  let ls := mkLocalStorage st' session in
  login (User.id user) ls = (mkLocalStorage st' (Some user), Resolved user)
  ∧ getCurrentUser (fst (login (User.id user) ls)) = Some user
  ∧ ((∀ u, u ∈ uas_users st' → User.id u ≠ userId) →
     login userId ls = (ls, Rejected UserNotFound)
     ∧ getCurrentUser (fst (login userId ls)) = session)
  ∧ getCurrentUser (fst (logout (fst (login (User.id user) ls)))) = None
  ∧ ls_store (fst (logout (fst (login (User.id user) ls)))) = st'.
Proof.
  rewrite createUser_run.
  destruct (array_some _ _) eqn:E; [done|]. intros [= <-] ls.
  pose proof (proj1 (array_some_false _ _) E) as Hfree.
  assert (Hlogin : login (User.id user) ls
                   = (mkLocalStorage (ls_store ls) (Some user), Resolved user)).
  { unfold login. simpl. rewrite array_find_push.
    destruct (array_find _ (uas_users st)) as [u|] eqn:Hu.
    - apply array_find_Some_elem in Hu as [Hu Hid].
      destruct (Hfree u Hu). by left.
    - by rewrite decide_True. }
  split_and!.
  - exact Hlogin.
  - by rewrite Hlogin.
  - intros Hnone. unfold login.
    rewrite (proj2 (array_find_None (λ u, User.id u = userId) _)); [done|].
    exact Hnone.
  - by rewrite Hlogin.
  - by rewrite Hlogin.
Qed.

Lemma login_session_witness :
  let user := User.mk "student3" "Carol Wang" STUDENT "carol@university.edu" None in
  let st' := fst (createUser user demo_empty) in
  login "student3" (mkLocalStorage st' None)
  = (mkLocalStorage st' (Some user), Resolved user).
Proof.
  intros user st'.
  apply (login_session user demo_empty st' None "nobody"). reflexivity.
Defined.

(** ** [createSlot] *)

Lemma num_ge_end_not_after_start (startISO endISO : TimeValue) :
  num_ge startISO endISO = true ↔ end_not_after_start startISO endISO.
Proof.
  unfold num_ge, end_not_after_start.
  destruct startISO as [s|], endISO as [e|]; try (split; [done|]).
  - rewrite bool_decide_eq_true. split; [by exists s, e|].
    by intros (? & ? & [= <-] & [= <-] & ?).
  - by intros (? & ? & _ & ? & _).
  - by intros (? & ? & ? & _).
  - by intros (? & ? & ? & _).
Qed.

Lemma valid_teacher_find st teacherId :
  valid_teacher st teacherId ↔
  is_Some (array_find (λ u, User.id u = teacherId ∧ User.role u = TEACHER)
             (uas_users st)).
Proof.
  rewrite array_find_is_Some. unfold valid_teacher. split.
  - intros (u & Hu & Hid & Hrole). by exists u.
  - intros (u & Hu & Hid & Hrole). by exists u.
Qed.

Lemma teacher_overlap_find st slotData :
  teacher_overlap st slotData ↔
  is_Some (array_find
             (λ s, Slot.teacherId s = SlotData.teacherId slotData
                   ∧ slotsOverlap (Slot.startISO s) (Slot.endISO s)
                       (SlotData.startISO slotData)
                       (SlotData.endISO slotData) = true) (uas_slots st)).
Proof.
  rewrite array_find_is_Some. unfold teacher_overlap. split.
  - intros (s & Hs & Hid & Hov). by exists s.
  - intros (s & Hs & Hid & Hov). by exists s.
Qed.

Lemma createSlot_run newId slotData st :
  createSlot newId slotData st =
  match array_find (λ u, User.id u = SlotData.teacherId slotData
                         ∧ User.role u = TEACHER) (uas_users st) with
  | None => (st, Rejected InvalidTeacher)
  | Some _ =>
    if num_ge (SlotData.startISO slotData) (SlotData.endISO slotData)
    then (st, Rejected InvalidTimeRange)
    else
      match array_find
              (λ s, Slot.teacherId s = SlotData.teacherId slotData
                    ∧ slotsOverlap (Slot.startISO s) (Slot.endISO s)
                        (SlotData.startISO slotData)
                        (SlotData.endISO slotData) = true) (uas_slots st) with
      | Some _ => (st, Rejected OverlappingSlot)
      | None =>
        (mkStore (uas_users st) (uas_slots st ++ [new_slot newId slotData])
           (uas_appointments st),
         Resolved (new_slot newId slotData))
      end
  end.
Proof.
  unfold createSlot, bind, getFromStorage, throw, ret. simpl.
  destruct (array_find _ (uas_users st)); [|done].
  destruct (num_ge _ _); [done|].
  by destruct (array_find _ (uas_slots st)).
Qed.

(** X8: [createSlot] validates in a fixed order, the first failing check
    giving the error: the teacher must be a stored user with role TEACHER
    (else "Invalid teacher ID ..."), two valid dates must have the end after
    the start (else "End time must be after start time"), and no stored slot
    of the same teacher may overlap (else "This slot overlaps ...").
    Otherwise the slot is appended under the new id with all its seats
    available.  A rejected call has written nothing. *)
Theorem createSlot_ordered_validation newId slotData st :
  let result := createSlot newId slotData st in
  let teacherOk := valid_teacher st (SlotData.teacherId slotData) in
  let badRange :=
    end_not_after_start (SlotData.startISO slotData) (SlotData.endISO slotData) in
  (¬ teacherOk → result = (st, Rejected InvalidTeacher))
  ∧ (teacherOk → badRange → result = (st, Rejected InvalidTimeRange))
  ∧ (teacherOk → ¬ badRange → teacher_overlap st slotData →
     result = (st, Rejected OverlappingSlot))
  ∧ (teacherOk → ¬ badRange → ¬ teacher_overlap st slotData →
     result
     = (mkStore (uas_users st) (uas_slots st ++ [new_slot newId slotData])
          (uas_appointments st),
        Resolved (new_slot newId slotData))
     ∧ Slot.availableSeats (new_slot newId slotData) = SlotData.maxSeats slotData)
  ∧ (∀ st' e, result = (st', Rejected e) →
       st' = st ∧ e ∈ [InvalidTeacher; InvalidTimeRange; OverlappingSlot]).
Proof.
  intros result teacherOk badRange. subst result teacherOk badRange.
  rewrite createSlot_run.
  destruct (array_find _ (uas_users st)) as [u|] eqn:Hu.
  - assert (Hteacher : valid_teacher st (SlotData.teacherId slotData)).
    { apply valid_teacher_find. by rewrite Hu. }
    destruct (num_ge _ _) eqn:Hge.
    + apply num_ge_end_not_after_start in Hge.
      split_and!; try done. intros st' e [= <- <-]. split; [done|in_list].
    + assert (Hok : ¬ end_not_after_start (SlotData.startISO slotData)
                        (SlotData.endISO slotData)).
      { rewrite <- num_ge_end_not_after_start. by rewrite Hge. }
      destruct (array_find _ (uas_slots st)) as [s|] eqn:Hs.
      * assert (Hov : teacher_overlap st slotData).
        { apply teacher_overlap_find. by rewrite Hs. }
        split_and!; try done. intros st' e [= <- <-]. split; [done|in_list].
      * assert (Hno : ¬ teacher_overlap st slotData).
        { rewrite teacher_overlap_find, Hs. by intros [? ?]. }
        split_and!; done.
  - assert (Hno : ¬ valid_teacher st (SlotData.teacherId slotData)).
    { rewrite valid_teacher_find, Hu. by intros [? ?]. }
    split_and!; try done. intros st' e [= <- <-]. split; [done|in_list].
Qed.

Lemma valid_teacher_demo : valid_teacher demo_slot "teacher1".
Proof.
  exists (User.mk "teacher1" "Dr. Robert Smith" TEACHER "smith@university.edu" None).
  split; [|done]. in_list.
Defined.

Lemma createSlot_ordered_validation_witness :
  createSlot "s2"
    (SlotData.mk "teacher1" (Some (100 * hour + 30 * minute)) (Some (102 * hour))
       "Room 2" 3 3) demo_slot
  = (demo_slot, Rejected OverlappingSlot).
Proof.
  apply (proj1 (proj2 (proj2 (createSlot_ordered_validation "s2" _ demo_slot)))).
  - exact valid_teacher_demo.
  - intros (s & e & [= <-] & [= <-] & Hle). unfold hour, minute in Hle. lia.
  - exists (demo_slot_s1 1). split; [by left|]. split; reflexivity.
Defined.

Lemma list_find_push_fresh {A} (P : A → Prop) `{∀ x, Decision (P x)}
    (arr : list A) (x : A) :
  (∀ y, y ∈ arr → ¬ P y) → P x →
  list_find P (arr ++ [x]) = Some (length arr, x).
Proof.
  intros Hfresh HP.
  rewrite (list_find_app_r P arr [x]) by (by apply no_match_list_find).
  simpl. by rewrite decide_True.
Qed.

Lemma slotsOverlap_valid start1 end1 start2 end2 :
  slotsOverlap start1 end1 start2 end2 = true →
  is_Some start1 ∧ is_Some end1 ∧ is_Some start2 ∧ is_Some end2.
Proof.
  unfold slotsOverlap, num_lt.
  destruct start1, end1, start2, end2; simpl; rewrite ?andb_false_r; done.
Qed.

(** [bookAppointment] refuses on the stored fields of the slot: no valid
    start date, or no seat. *)
Lemma bookAppointment_unbookable newId now stamp slotId studentId notes st i slot :
  first_match (λ s, Slot.id s = slotId) (uas_slots st) i slot →
  Slot.startISO slot = None ∨ Slot.availableSeats slot ≤ 0 →
  ∃ e, bookAppointment newId now stamp slotId studentId notes st
       = (st, Rejected e)
       ∧ e ∈ [InvalidStudent; SlotFull; TooLateToBook].
Proof.
  intros Hslot Hbad. rewrite bookAppointment_run.
  destruct (array_find _ (uas_users st)); [|eexists; split; [done|in_list]].
  rewrite (first_match_find _ _ _ _ Hslot).
  case_bool_decide; [eexists; split; [done|in_list]|].
  destruct Hbad as [-> | Hmax]; [|lia].
  simpl. eexists; split; [done|in_list].
Qed.

(** X9: [createSlot] checks neither that the dates are valid nor that
    [maxSeats] is positive, and [bookAppointment] refuses on what is stored.
    For a valid teacher, slot data with an invalid start or end date is
    always accepted (the range test and the overlap test are false on an
    invalid date).  A slot created under a new id from data with an invalid
    start date or with [maxSeats ≤ 0] is stored, as the first slot of its
    id, with no valid start date or with no seat available.  And in any
    store, while the first slot stored under an id has no valid start date
    or no seat available, every [bookAppointment] for that id is rejected
    and writes nothing. *)
Theorem createSlot_unchecked_fields newId slotData st :
  valid_teacher st (SlotData.teacherId slotData) →
  let st' :=
    mkStore (uas_users st) (uas_slots st ++ [new_slot newId slotData])
      (uas_appointments st) in
  (SlotData.startISO slotData = None ∨ SlotData.endISO slotData = None →
   createSlot newId slotData st = (st', Resolved (new_slot newId slotData)))
  ∧ ((∀ s, s ∈ uas_slots st → Slot.id s ≠ newId) →
     SlotData.startISO slotData = None ∨ SlotData.maxSeats slotData ≤ 0 →
     ∃ i slot,
       first_match (λ s, Slot.id s = newId) (uas_slots st') i slot
       ∧ (Slot.startISO slot = None ∨ Slot.availableSeats slot ≤ 0))
  ∧ (∀ st0 i slot,
       first_match (λ s, Slot.id s = newId) (uas_slots st0) i slot →
       Slot.startISO slot = None ∨ Slot.availableSeats slot ≤ 0 →
       ∀ apptId now stamp studentId notes,
         ∃ e, bookAppointment apptId now stamp newId studentId notes st0
              = (st0, Rejected e)
              ∧ e ∈ [InvalidStudent; SlotFull; TooLateToBook]).
Proof.
  intros Hteacher st'. split; [|split].
  - intros Hnan. rewrite createSlot_run.
    apply valid_teacher_find in Hteacher as [u ->].
    assert (num_ge (SlotData.startISO slotData) (SlotData.endISO slotData) = false)
      as ->.
    { unfold num_ge. destruct Hnan as [-> | ->]; [done|].
      by destruct (SlotData.startISO slotData). }
    rewrite (proj2 (array_find_None _ _)); [done|].
    intros s _ [_ (_ & _ & [? Hs] & [? He])%slotsOverlap_valid].
    destruct Hnan; congruence.
  - intros Hfresh Hbad.
    exists (length (uas_slots st)), (new_slot newId slotData).
    split; [|done].
    subst st'. cbn [uas_slots].
    exact (first_match_intro _ _ _ _
             (list_find_push_fresh (λ s, Slot.id s = newId) (uas_slots st)
                (new_slot newId slotData) Hfresh eq_refl)).
  - intros st0 i slot Hslot Hbad apptId now stamp studentId notes.
    by eapply bookAppointment_unbookable.
Qed.

Lemma createSlot_unchecked_fields_witness :
  createSlot "s3" (SlotData.mk "teacher1" None (Some (101 * hour)) "Room 1" 0 0)
    demo_slot
  = (mkStore demo_users
       [demo_slot_s1 1;
        Slot.mk "s3" "teacher1" None (Some (101 * hour)) "Room 1" 0 0] [],
     Resolved (Slot.mk "s3" "teacher1" None (Some (101 * hour)) "Room 1" 0 0))
  ∧ ∃ e,
      bookAppointment "a9" 0 0 "s3" "student1" None
        (mkStore demo_users
           [demo_slot_s1 1;
            Slot.mk "s3" "teacher1" None (Some (101 * hour)) "Room 1" 0 0] [])
      = (mkStore demo_users
           [demo_slot_s1 1;
            Slot.mk "s3" "teacher1" None (Some (101 * hour)) "Room 1" 0 0] [],
         Rejected e)
      ∧ e ∈ [InvalidStudent; SlotFull; TooLateToBook].
Proof.
  destruct (createSlot_unchecked_fields "s3"
              (SlotData.mk "teacher1" None (Some (101 * hour)) "Room 1" 0 0)
              demo_slot valid_teacher_demo)
    as (Hcreate & _ & Hbook).
  split; [apply Hcreate; by left|].
  apply (Hbook _ 1%nat
           (Slot.mk "s3" "teacher1" None (Some (101 * hour)) "Room 1" 0 0));
    [first_match_compute|by left].
Defined.

(** ** [deleteSlot] and [updateSlot] *)

Lemma hasBookings_booked_count slotId appts :
  hasBookings slotId appts = bool_decide (0 < booked_count slotId appts).
Proof.
  unfold hasBookings, array_some.
  induction appts as [|a appts IH].
  - rewrite bool_decide_eq_false_2 by (by intros ?%Exists_nil). done.
  - rewrite booked_count_cons. unfold holds_seat.
    pose proof (booked_count_nonneg slotId appts) as Hnn.
    destruct (decide _) as [Ha|Ha].
    + rewrite bool_decide_eq_true_2 by (by left).
      by rewrite bool_decide_eq_true_2 by lia.
    + destruct (bool_decide (Exists _ appts)) eqn:E.
      * apply bool_decide_eq_true in E.
        rewrite bool_decide_eq_true_2 by (by right).
        symmetry in IH. apply bool_decide_eq_true in IH.
        by rewrite bool_decide_eq_true_2 by lia.
      * apply bool_decide_eq_false in E.
        rewrite bool_decide_eq_false_2
          by (by intros [?|?]%Exists_cons).
        symmetry in IH. apply bool_decide_eq_false in IH.
        by rewrite bool_decide_eq_false_2 by lia.
Qed.

Lemma hasBookings_false slotId appts :
  hasBookings slotId appts = false ↔
  ∀ a, a ∈ appts → Appointment.slotId a = slotId → Appointment.status a ≠ BOOKED.
Proof.
  unfold hasBookings. rewrite array_some_false. split.
  - intros Hno a Ha Hid Hst. by apply (Hno a Ha).
  - intros Hno a Ha [Hid Hst]. by apply (Hno a Ha).
Qed.

Lemma deleteSlot_run slotId st :
  deleteSlot slotId st =
  match list_find (λ s, Slot.id s = slotId) (uas_slots st) with
  | None => (st, Rejected SlotNotFound)
  | Some (slotIndex, _) =>
    if hasBookings slotId (uas_appointments st)
    then (st, Rejected SlotHasBookings_delete)
    else (mkStore (uas_users st) (delete slotIndex (uas_slots st))
            (uas_appointments st), Resolved tt)
  end.
Proof.
  unfold deleteSlot, bind, getFromStorage, throw, array_findIndex. simpl.
  destruct (list_find _ (uas_slots st)) as [[i s]|]; [|done]. simpl.
  by destruct (hasBookings _ _).
Qed.

Lemma updateSlot_run slotId updates st :
  updateSlot slotId updates st =
  match list_find (λ s, Slot.id s = slotId) (uas_slots st) with
  | None => (st, Rejected SlotNotFound)
  | Some (slotIndex, slot) =>
    if hasBookings slotId (uas_appointments st)
       && (iso_truthy (SlotUpdates.startISO updates)
           || iso_truthy (SlotUpdates.endISO updates))
    then (st, Rejected SlotHasBookings_update)
    else (mkStore (uas_users st)
            (<[slotIndex:=SlotUpdates.spread slot updates]> (uas_slots st))
            (uas_appointments st),
          Resolved (SlotUpdates.spread slot updates))
  end.
Proof.
  unfold updateSlot, bind, getFromStorage, throw, ret. simpl.
  destruct (list_find _ (uas_slots st)) as [[i s]|]; [|done].
  by destruct (_ && _).
Qed.

(** X10: [deleteSlot] is rejected with "Slot not found" when no slot has the
    id; for an existing slot it is rejected with "Cannot delete a slot that
    has bookings" exactly when some BOOKED appointment references the id,
    and otherwise removes that slot (the first with the id) and nothing
    else.  CANCELLED and ATTENDED appointments do not protect a slot.  Under
    the seat accounting, a slot can be deleted exactly when all its seats
    are available.  A rejected call has written nothing. *)
Theorem deleteSlot_outcome slotId st :
  let result := deleteSlot slotId st in
  ((∀ s, s ∈ uas_slots st → Slot.id s ≠ slotId) →
   result = (st, Rejected SlotNotFound))
  ∧ (∀ i slot,
       first_match (λ s, Slot.id s = slotId) (uas_slots st) i slot →
       let deleted :=
         mkStore (uas_users st) (delete i (uas_slots st)) (uas_appointments st) in
       (0 < booked_count slotId (uas_appointments st) →
        result = (st, Rejected SlotHasBookings_delete))
       ∧ (booked_count slotId (uas_appointments st) = 0 →
          result = (deleted, Resolved tt))
       ∧ (seat_accounting st →
          (result = (deleted, Resolved tt)
           ↔ Slot.availableSeats slot = Slot.maxSeats slot)))
  ∧ (∀ st' e, result = (st', Rejected e) →
       st' = st ∧ e ∈ [SlotNotFound; SlotHasBookings_delete]).
Proof.
  intros result. subst result. rewrite deleteSlot_run, hasBookings_booked_count.
  split_and!.
  - intros Hnone.
    by rewrite (proj1 (no_match_list_find (λ s, Slot.id s = slotId) _) Hnone).
  - intros i slot Hslot deleted. rewrite (first_match_find _ _ _ _ Hslot).
    split_and!.
    + intros Hpos. by rewrite bool_decide_eq_true_2.
    + intros Hzero. by rewrite bool_decide_eq_false_2 by lia.
    + intros Hacc.
      pose proof (Hacc slot (list_elem_of_lookup_2 _ _ _ (proj1 Hslot))) as Heq.
      pose proof (proj1 (proj2 Hslot)) as Hid. simpl in Hid.
      rewrite Hid in Heq.
      pose proof (booked_count_nonneg slotId (uas_appointments st)).
      case_bool_decide; split; try done; lia.
  - intros st' e.
    destruct (list_find _ (uas_slots st)) as [[i s]|].
    + case_bool_decide; [|done]. intros [= <- <-]. split; [done|in_list].
    + intros [= <- <-]. split; [done|in_list].
Qed.

Lemma deleteSlot_outcome_witness :
  deleteSlot "s1" demo_booked = (demo_booked, Rejected SlotHasBookings_delete)
  ∧ deleteSlot "s1" demo_cancelled
    = (mkStore demo_users [] [demo_appt_a1 CANCELLED (Some 1)], Resolved tt).
Proof.
  split.
  - destruct (deleteSlot_outcome "s1" demo_booked) as (_ & Hfound & _).
    destruct (Hfound 0%nat (demo_slot_s1 0) ltac:(first_match_compute))
      as (Hbooked & _).
    apply Hbooked. reflexivity.
  - destruct (deleteSlot_outcome "s1" demo_cancelled) as (_ & Hfound & _).
    destruct (Hfound 0%nat (demo_slot_s1 1) ltac:(first_match_compute))
      as (_ & Hfree & _).
    apply Hfree. reflexivity.
Defined.

Lemma elem_of_delete_index {A} (l : list A) (i : nat) (x : A) :
  x ∈ delete i l ↔ ∃ k, k ≠ i ∧ l !! k = Some x.
Proof.
  split.
  - intros [k Hk]%list_elem_of_lookup_1.
    destruct (decide (k < i)%nat).
    + rewrite list_lookup_delete_lt in Hk by done.
      exists k. split; [lia|done].
    + rewrite list_lookup_delete_ge in Hk by lia.
      exists (S k). split; [lia|done].
  - intros (k & Hne & Hk). destruct (decide (k < i)%nat).
    + apply (list_elem_of_lookup_2 _ k). by rewrite list_lookup_delete_lt.
    + destruct k as [|k]; [lia|].
      apply (list_elem_of_lookup_2 _ k).
      by rewrite list_lookup_delete_ge by lia.
Qed.

Lemma deleteSlot_Resolved slotId st st' :
  deleteSlot slotId st = (st', Resolved tt) →
  ∃ i slot,
    first_match (λ s, Slot.id s = slotId) (uas_slots st) i slot
    ∧ hasBookings slotId (uas_appointments st) = false
    ∧ st' = mkStore (uas_users st) (delete i (uas_slots st)) (uas_appointments st).
Proof.
  rewrite deleteSlot_run.
  destruct (list_find _ (uas_slots st)) as [[i slot]|] eqn:Hfind; [|done].
  destruct (hasBookings _ _) eqn:Hb; [done|].
  intros [= <-]. exists i, slot.
  split; [exact (first_match_intro _ _ _ _ Hfind)|done].
Qed.

Lemma getSlotById_run slotId st :
  getSlotById slotId st =
  (st, Resolved
         ((λ slot,
             SlotWithTeacher.mk slot
               (default unknown_teacher
                  (array_find (λ u, User.id u = Slot.teacherId slot)
                     (uas_users st))))
            <$> array_find (λ s, Slot.id s = slotId) (uas_slots st))).
Proof.
  unfold getSlotById, bind, getFromStorage, ret. simpl.
  by destruct (array_find _ (uas_slots st)).
Qed.

(** X11: when slot ids are unique, a successful [deleteSlot] removes the id
    for good and touches nothing else: no slot has the id afterwards, every
    other slot is still stored, users and appointments are as before,
    [getSlotById] answers [null] for the id and a second [deleteSlot] is
    rejected with "Slot not found". *)
Theorem deleteSlot_removes_id slotId st st' :
  unique_slot_ids st →
  deleteSlot slotId st = (st', Resolved tt) →
  (∀ s, s ∈ uas_slots st' ↔ s ∈ uas_slots st ∧ Slot.id s ≠ slotId)
  ∧ length (uas_slots st) = S (length (uas_slots st'))
  ∧ uas_users st' = uas_users st
  ∧ uas_appointments st' = uas_appointments st
  ∧ getSlotById slotId st' = (st', Resolved None)
  ∧ deleteSlot slotId st' = (st', Rejected SlotNotFound).
Proof.
  intros Huniq (i & slot & Hslot & Hfree & ->)%deleteSlot_Resolved.
  destruct Hslot as (Hi & Hid & _). simpl in Hid.
  assert (Hgone : ∀ s, s ∈ delete i (uas_slots st)
                       ↔ s ∈ uas_slots st ∧ Slot.id s ≠ slotId).
  { intros s. rewrite elem_of_delete_index. split.
    - intros (k & Hne & Hk). split; [by eapply list_elem_of_lookup_2|].
      rewrite <- Hid. by eapply unique_slot_ids_other.
    - intros [[k Hk]%list_elem_of_lookup_1 Hne]. exists k. split; [|done].
      intros ->. congruence. }
  split_and!; try done.
  - simpl. rewrite length_delete by (by eexists).
    apply lookup_lt_Some in Hi. lia.
  - rewrite getSlotById_run. simpl.
    rewrite (proj2 (array_find_None (λ s, Slot.id s = slotId) _)); [done|].
    intros s Hs. by apply Hgone in Hs as [_ ?].
  - rewrite deleteSlot_run. simpl.
    rewrite (proj1 (no_match_list_find (λ s, Slot.id s = slotId) _)); [done|].
    intros s Hs. by apply Hgone in Hs as [_ ?].
Qed.

Lemma deleteSlot_removes_id_witness :
  getSlotById "s1" (mkStore demo_users [] [demo_appt_a1 CANCELLED (Some 1)])
  = (mkStore demo_users [] [demo_appt_a1 CANCELLED (Some 1)], Resolved None).
Proof.
  apply (deleteSlot_removes_id "s1" demo_cancelled).
  - apply NoDup_singleton.
  - reflexivity.
Defined.

(** X12: creating a slot under a new id and deleting it again gives back the
    store as it was, provided no BOOKED appointment already referenced the
    new id. *)
Theorem createSlot_deleteSlot_round_trip newId slotData st st' slot :
  createSlot newId slotData st = (st', Resolved slot) →
  (∀ s, s ∈ uas_slots st → Slot.id s ≠ newId) →
  (∀ a, a ∈ uas_appointments st → Appointment.slotId a = newId →
        Appointment.status a ≠ BOOKED) →
  deleteSlot newId st' = (st, Resolved tt).
Proof.
  intros [-> ->]%createSlot_Resolved Hfresh Hunbooked.
  rewrite deleteSlot_run. simpl.
  rewrite (list_find_push_fresh (λ s, Slot.id s = newId)) by done.
  rewrite (proj2 (hasBookings_false newId (uas_appointments st))) by done.
  rewrite <- (app_nil_r [_]), <- app_comm_cons, delete_middle, app_nil_r.
  by destruct st.
Qed.

Lemma createSlot_deleteSlot_round_trip_witness :
  deleteSlot "s1" demo_slot = (demo_empty, Resolved tt).
Proof.
  apply (createSlot_deleteSlot_round_trip "s1" demo_slotData demo_empty
           demo_slot (demo_slot_s1 1)).
  - reflexivity.
  - intros s Hs. by apply elem_of_nil in Hs.
  - intros a Ha. by apply elem_of_nil in Ha.
Defined.

(** X13: [updateSlot] is rejected with "Slot not found" when no slot has the
    id.  For an existing slot it is rejected with "Cannot change time of a
    slot that has bookings" exactly when a BOOKED appointment references the
    id and the update carries a non-empty start or end date; in every other
    case it is accepted, with no check of the new range, of overlaps or of
    the seat numbers.  In particular an update whose start date is the empty
    string passes the guard also for a booked slot and leaves the slot with
    an invalid start date.  A rejected call has written nothing. *)
Theorem updateSlot_outcome slotId updates st :
  let result := updateSlot slotId updates st in
  ((∀ s, s ∈ uas_slots st → Slot.id s ≠ slotId) →
   result = (st, Rejected SlotNotFound))
  ∧ (∀ i slot,
       first_match (λ s, Slot.id s = slotId) (uas_slots st) i slot →
       let updated := SlotUpdates.spread slot updates in
       let stored :=
         mkStore (uas_users st) (<[i:=updated]> (uas_slots st))
           (uas_appointments st) in
       (0 < booked_count slotId (uas_appointments st) →
        changes_time updates = true →
        result = (st, Rejected SlotHasBookings_update))
       ∧ (booked_count slotId (uas_appointments st) = 0
          ∨ changes_time updates = false →
          result = (stored, Resolved updated))
       ∧ (SlotUpdates.startISO updates = iso_falsy →
          iso_truthy (SlotUpdates.endISO updates) = false →
          result = (stored, Resolved updated)
          ∧ Slot.startISO updated = None))
  ∧ (∀ st' e, result = (st', Rejected e) →
       st' = st ∧ e ∈ [SlotNotFound; SlotHasBookings_update]).
Proof.
  intros result. subst result. rewrite updateSlot_run, hasBookings_booked_count.
  fold (changes_time updates).
  split_and!.
  - intros Hnone.
    by rewrite (proj1 (no_match_list_find (λ s, Slot.id s = slotId) _) Hnone).
  - intros i slot Hslot updated stored. rewrite (first_match_find _ _ _ _ Hslot).
    split_and!.
    + intros Hpos ->. by rewrite bool_decide_eq_true_2.
    + intros [Hzero| ->].
      * by rewrite bool_decide_eq_false_2 by lia.
      * by rewrite andb_false_r.
    + intros Hstart Hend. unfold changes_time. rewrite Hstart, Hend. simpl.
      rewrite andb_false_r. split; [done|].
      subst updated. unfold SlotUpdates.spread. simpl. by rewrite Hstart.
  - intros st' e.
    destruct (list_find _ (uas_slots st)) as [[i s]|].
    + destruct (_ && _); [|done]. intros [= <- <-]. split; [done|in_list].
    + intros [= <- <-]. split; [done|in_list].
Qed.

Lemma updateSlot_outcome_witness :
  updateSlot "s1" (SlotUpdates.mk iso_falsy iso_absent None None None) demo_booked
  = (mkStore demo_users
       [Slot.mk "s1" "teacher1" None (Some (101 * hour)) "Room 1" 1 0]
       [demo_appt_a1 BOOKED None],
     Resolved (Slot.mk "s1" "teacher1" None (Some (101 * hour)) "Room 1" 1 0))
  ∧ updateSlot "s1"
      (SlotUpdates.mk (iso_string (Some (50 * hour))) iso_absent None None None)
      demo_booked
    = (demo_booked, Rejected SlotHasBookings_update).
Proof.
  split.
  - destruct (updateSlot_outcome "s1"
                (SlotUpdates.mk iso_falsy iso_absent None None None) demo_booked)
      as (_ & Hfound & _).
    destruct (Hfound 0%nat (demo_slot_s1 0) ltac:(first_match_compute))
      as (_ & _ & Hfalsy).
    apply Hfalsy; reflexivity.
  - destruct (updateSlot_outcome "s1"
                (SlotUpdates.mk (iso_string (Some (50 * hour))) iso_absent
                   None None None) demo_booked)
      as (_ & Hfound & _).
    destruct (Hfound 0%nat (demo_slot_s1 0) ltac:(first_match_compute))
      as (Hbooked & _).
    apply Hbooked; reflexivity.
Defined.

Lemma updateSlot_Resolved slotId updates st st' updated :
  updateSlot slotId updates st = (st', Resolved updated) →
  ∃ i slot,
    first_match (λ s, Slot.id s = slotId) (uas_slots st) i slot
    ∧ (hasBookings slotId (uas_appointments st) && changes_time updates = false)
    ∧ updated = SlotUpdates.spread slot updates
    ∧ st' = mkStore (uas_users st) (<[i:=updated]> (uas_slots st))
              (uas_appointments st).
Proof.
  rewrite updateSlot_run. fold (changes_time updates).
  destruct (list_find _ (uas_slots st)) as [[i slot]|] eqn:Hfind; [|done].
  destruct (_ && _) eqn:Hguard; [done|].
  intros [= <- <-]. exists i, slot.
  split; [exact (first_match_intro _ _ _ _ Hfind)|done].
Qed.

Lemma spread_idempotent slot updates :
  SlotUpdates.spread (SlotUpdates.spread slot updates) updates
  = SlotUpdates.spread slot updates.
Proof.
  destruct updates as [s e l m a]. unfold SlotUpdates.spread. simpl.
  f_equal.
  - by destruct s.
  - by destruct e.
  - by destruct l.
  - by destruct m.
  - by destruct a.
Qed.

(** X14: a successful [updateSlot] rewrites one slot, the first with the id,
    and nothing else: the slot keeps its id and its teacher, every other
    slot, the users and the appointments are as before, and slot ids stay
    unique.  Sending the same update again changes nothing more, and an
    update with no property leaves the whole store as it was. *)
Theorem updateSlot_effect slotId updates st st' updated :
  updateSlot slotId updates st = (st', Resolved updated) →
  (∃ i slot,
     first_match (λ s, Slot.id s = slotId) (uas_slots st) i slot
     ∧ uas_slots st' = <[i:=updated]> (uas_slots st)
     ∧ updated = SlotUpdates.spread slot updates
     ∧ Slot.id updated = slotId
     ∧ Slot.teacherId updated = Slot.teacherId slot
     ∧ (∀ k, k ≠ i → uas_slots st' !! k = uas_slots st !! k))
  ∧ uas_users st' = uas_users st
  ∧ uas_appointments st' = uas_appointments st
  ∧ (unique_slot_ids st → unique_slot_ids st')
  ∧ updateSlot slotId updates st' = (st', Resolved updated)
  ∧ (updates = no_updates → st' = st).
Proof.
  intros (i & slot & Hslot & Hguard & -> & ->)%updateSlot_Resolved.
  pose proof Hslot as (Hi & Hid & _). simpl in Hid.
  split_and!; try done.
  - exists i, slot. split_and!; try done.
    intros k Hne. simpl. by rewrite list_lookup_insert_ne.
  - unfold unique_slot_ids. simpl. rewrite list_fmap_insert. simpl.
    by rewrite list_insert_id by (by rewrite list_lookup_fmap, Hi).
  - rewrite updateSlot_run. simpl. fold (changes_time updates).
    rewrite (list_find_insert_same (λ s, Slot.id s = slotId) _ _ _
               (SlotUpdates.spread slot updates)
               (first_match_find _ _ _ _ Hslot) Hid).
    rewrite Hguard, spread_idempotent.
    by rewrite list_insert_insert_eq.
  - intros ->. simpl.
    replace (SlotUpdates.spread slot no_updates) with slot by (by destruct slot).
    rewrite list_insert_id by done. by destruct st.
Qed.

Lemma updateSlot_effect_witness :
  updateSlot "s1" no_updates demo_booked = (demo_booked, Resolved demo_s1)
  ∧ fst (updateSlot "s1" no_updates demo_booked) = demo_booked.
Proof.
  split; [reflexivity|].
  apply (updateSlot_effect "s1" no_updates demo_booked
           (fst (updateSlot "s1" no_updates demo_booked)) demo_s1);
    reflexivity.
Defined.

(** ** What any call can do to the store *)

Lemma bookAppointment_rejected_unchanged
    newId now stamp slotId studentId notes st st' e :
  bookAppointment newId now stamp slotId studentId notes st = (st', Rejected e) →
  st' = st.
Proof.
  rewrite bookAppointment_run.
  destruct (array_find _ (uas_users st)); [|by intros [= <-]].
  destruct (list_find _ (uas_slots st)) as [[i slot]|]; [|by intros [= <-]].
  destruct (bool_decide _); [by intros [= <-]|].
  destruct (negb _); [by intros [= <-]|].
  destruct (checkConflicts_run (uas_slots st) slot
              (studentAppointments studentId (uas_appointments st)) st)
    as [[_ ->]|[_ ->]]; [by intros [= <-]|done].
Qed.

(** The appointments after a call: untouched, or one BOOKED appointment
    pushed whose slot is stored, or one appointment rewritten in place into
    a CANCELLED or ATTENDED one with the same booking record. *)
Lemma store_after_appointments op st :
  uas_appointments (store_after op st) = uas_appointments st
  ∨ (∃ a, uas_appointments (store_after op st) = uas_appointments st ++ [a]
          ∧ Appointment.status a = BOOKED
          ∧ ∃ s, s ∈ uas_slots (store_after op st)
                 ∧ Slot.id s = Appointment.slotId a)
  ∨ (∃ i f, uas_appointments (store_after op st)
            = alter f i (uas_appointments st)
            ∧ ∀ a, booking_record (f a) = booking_record a
                   ∧ Appointment.status (f a) ≠ BOOKED).
Proof.
  destruct op; simpl.
  - rewrite createUser_run. destruct (array_some _ _); by left.
  - rewrite createSlot_run.
    destruct (array_find _ (uas_users st)); [|by left].
    destruct (num_ge _ _); [by left|].
    destruct (array_find _ (uas_slots st)); by left.
  - rewrite updateSlot_run.
    destruct (list_find _ (uas_slots st)) as [[i s]|]; [|by left].
    destruct (_ && _); by left.
  - rewrite deleteSlot_run.
    destruct (list_find _ (uas_slots st)) as [[i s]|]; [|by left].
    destruct (hasBookings _ _); by left.
  - destruct (bookAppointment _ _ _ _ _ _ st) as [st' [appt|e]] eqn:Hrun.
    + apply bookAppointment_Resolved in Hrun
        as (i & slot & (Hi & Hid & _) & _ & -> & ->).
      right. left. eexists. split; [done|]. split; [done|]. simpl.
      exists (Slot.set_availableSeats (Slot.availableSeats slot - 1) slot).
      split; [|exact Hid].
      apply list_elem_of_insert. by eapply lookup_lt_Some.
    + apply bookAppointment_rejected_unchanged in Hrun as ->. by left.
  - rewrite cancelAppointment_run.
    destruct (list_find _ (uas_appointments st)) as [[i a]|]; [|by left].
    destruct (list_find _ (uas_slots st)) as [[j s]|]; [|by left].
    destruct (_ && _); [by left|].
    destruct (_ && _); [by left|].
    right. right. simpl. rewrite list_alter_alter_eq.
    eexists i, _. split; [done|]. done.
  - rewrite markAttended_run.
    destruct (list_find _ (uas_appointments st)) as [[i a]|]; [|by left].
    right. right. simpl. eexists i, _. split; [done|]. done.
Qed.

Lemma appointment_history_step op st i a :
  uas_appointments st !! i = Some a →
  ∃ a', uas_appointments (store_after op st) !! i = Some a'
        ∧ booking_record a' = booking_record a
        ∧ (Appointment.status a ≠ BOOKED → Appointment.status a' ≠ BOOKED).
Proof.
  intros Hi.
  destruct (store_after_appointments op st)
    as [-> | [(b & -> & _) | (k & f & -> & Hf)]].
  - by exists a.
  - exists a. split; [|done]. by apply lookup_app_l_Some.
  - destruct (decide (k = i)) as [->|Hne].
    + exists (f a). rewrite list_lookup_alter_eq, Hi.
      destruct (Hf a) as [Hrec Hst]. done.
    + exists a. by rewrite list_lookup_alter_ne.
Qed.

(** The slots after a call: untouched; or a new slot pushed by [createSlot]
    that overlaps no slot of its teacher; or one slot with another number of
    available seats; or one slot rewritten by [updateSlot]; or one slot
    without BOOKED appointments removed by [deleteSlot]. *)
Lemma store_after_slots op st :
  uas_slots (store_after op st) = uas_slots st
  ∨ (∃ newId slotData,
       op = CreateSlot newId slotData
       ∧ uas_slots (store_after op st) = uas_slots st ++ [new_slot newId slotData]
       ∧ ¬ teacher_overlap st slotData)
  ∨ (∃ i s v,
       uas_slots st !! i = Some s
       ∧ uas_slots (store_after op st)
         = <[i:=Slot.set_availableSeats v s]> (uas_slots st))
  ∨ (∃ slotId updates i s,
       op = UpdateSlot slotId updates
       ∧ uas_slots st !! i = Some s
       ∧ uas_slots (store_after op st)
         = <[i:=SlotUpdates.spread s updates]> (uas_slots st))
  ∨ (∃ i s,
       uas_slots st !! i = Some s
       ∧ uas_slots (store_after op st) = delete i (uas_slots st)
       ∧ uas_appointments (store_after op st) = uas_appointments st
       ∧ hasBookings (Slot.id s) (uas_appointments st) = false).
Proof.
  destruct op; simpl.
  - rewrite createUser_run. destruct (array_some _ _); by left.
  - rewrite createSlot_run.
    destruct (array_find _ (uas_users st)); [|by left].
    destruct (num_ge _ _); [by left|].
    destruct (array_find _ (uas_slots st)) eqn:Hs; [by left|].
    right. left. exists newId, slotData. split_and!; [done..|].
    rewrite teacher_overlap_find, Hs. by intros [? ?].
  - destruct (updateSlot _ _ st) as [st' [updated|e]] eqn:Hrun.
    + apply updateSlot_Resolved in Hrun as (i & s & (Hi & _) & _ & -> & ->).
      do 3 right. left. by exists slotId, updates, i, s.
    + left. revert Hrun. rewrite updateSlot_run.
      destruct (list_find _ (uas_slots st)) as [[i s]|]; [|by intros [= <-]].
      destruct (_ && _); [by intros [= <-]|done].
  - destruct (deleteSlot _ st) as [st' [[]|e]] eqn:Hrun.
    + apply deleteSlot_Resolved in Hrun as (i & s & (Hi & Hid & _) & Hfree & ->).
      simpl in Hid. do 4 right. exists i, s. by rewrite Hid.
    + left. revert Hrun. rewrite deleteSlot_run.
      destruct (list_find _ (uas_slots st)) as [[i s]|]; [|by intros [= <-]].
      destruct (hasBookings _ _); [by intros [= <-]|done].
  - destruct (bookAppointment _ _ _ _ _ _ st) as [st' [appt|e]] eqn:Hrun.
    + apply bookAppointment_Resolved in Hrun
        as (i & slot & (Hi & _) & _ & -> & ->).
      do 2 right. left. by eexists i, slot, _.
    + apply bookAppointment_rejected_unchanged in Hrun as ->. by left.
  - destruct (cancelAppointment _ _ _ _ st) as [st' [[]|e]] eqn:Hrun.
    + apply cancelAppointment_Resolved in Hrun
        as (i & appt & j & slot & _ & (Hj & _) & ->).
      do 2 right. left. by eexists j, slot, _.
    + left. revert Hrun. rewrite cancelAppointment_run.
      destruct (list_find _ (uas_appointments st)) as [[i a]|];
        [|by intros [= <-]].
      destruct (list_find _ (uas_slots st)) as [[j s]|]; [|by intros [= <-]].
      destruct (_ && _); [by intros [= <-]|].
      destruct (_ && _); [by intros [= <-]|done].
  - rewrite markAttended_run.
    destruct (list_find _ (uas_appointments st)) as [[i a]|]; by left.
Qed.

(** The ids of the slots after a call. *)
Lemma store_after_slot_ids op st :
  Slot.id <$> uas_slots (store_after op st) = Slot.id <$> uas_slots st
  ∨ (∃ newId slotData,
       op = CreateSlot newId slotData
       ∧ Slot.id <$> uas_slots (store_after op st)
         = (Slot.id <$> uas_slots st) ++ [newId])
  ∨ (∃ i s,
       uas_slots st !! i = Some s
       ∧ uas_slots (store_after op st) = delete i (uas_slots st)
       ∧ uas_appointments (store_after op st) = uas_appointments st
       ∧ hasBookings (Slot.id s) (uas_appointments st) = false).
Proof.
  destruct (store_after_slots op st)
    as [-> | [(newId & slotData & -> & Hs & _) | [(i & s & v & Hi & Hs)
       | [(slotId & updates & i & s & -> & Hi & Hs) | Hdel]]]].
  - by left.
  - right. left. exists newId, slotData. split; [done|].
    by rewrite Hs, fmap_app.
  - left. rewrite Hs. by apply slot_ids_insert.
  - left. rewrite Hs, list_fmap_insert. simpl.
    by rewrite list_insert_id by (by rewrite list_lookup_fmap, Hi).
  - by do 2 right.
Qed.

(** One call keeps every BOOKED appointment attached to a stored slot. *)
Lemma booked_have_slot_step op st :
  booked_have_slot st → booked_have_slot (store_after op st).
Proof.
  intros Hinv a Ha Hst.
  (* the appointment is the one just pushed, or was BOOKED before the call *)
  assert (Hold : (∃ s, s ∈ uas_slots (store_after op st)
                       ∧ Slot.id s = Appointment.slotId a)
                 ∨ a ∈ uas_appointments st).
  { destruct (store_after_appointments op st)
      as [Heq | [(b & Heq & _ & Hb) | (k & f & Heq & Hf)]]; rewrite Heq in Ha.
    - by right.
    - apply elem_of_app in Ha as [Ha|Ha%list_elem_of_singleton];
        [by right|subst a; by left].
    - right. apply list_elem_of_lookup_1 in Ha as [j Hj].
      destruct (decide (k = j)) as [->|Hne].
      + rewrite list_lookup_alter_eq in Hj.
        destruct (uas_appointments st !! j) as [x|]; [|done].
        simpl in Hj. injection Hj as <-. by destruct (Hf x) as [_ ?].
      + rewrite list_lookup_alter_ne in Hj by done.
        by eapply list_elem_of_lookup_2. }
  destruct Hold as [Hnew|Hold]; [done|].
  destruct (Hinv a Hold Hst) as (s & Hs & Hid).
  destruct (store_after_slot_ids op st)
    as [Hids | [(newId & slotData & _ & Hids) | (i & d & Hi & Hdel & _ & Hfree)]].
  - assert (Hin : Slot.id s ∈ Slot.id <$> uas_slots (store_after op st)).
    { rewrite Hids. apply list_elem_of_fmap. by exists s. }
    apply list_elem_of_fmap in Hin as (s' & Hid' & Hs').
    exists s'. split; [done|congruence].
  - assert (Hin : Slot.id s ∈ Slot.id <$> uas_slots (store_after op st)).
    { rewrite Hids. apply elem_of_app. left. apply list_elem_of_fmap. by exists s. }
    apply list_elem_of_fmap in Hin as (s' & Hid' & Hs').
    exists s'. split; [done|congruence].
  - exists s. split; [|done]. rewrite Hdel. apply elem_of_delete_index.
    apply list_elem_of_lookup_1 in Hs as [k Hk]. exists k. split; [|done].
    intros ->. rewrite Hi in Hk. injection Hk as ->.
    apply (proj1 (hasBookings_false _ _) Hfree a Hold); [by symmetry|done].
Qed.

(** X17: slot ids stay unique through every call, the only condition being
    that the [uid()] of a [createSlot] is not the id of a stored slot. *)
Theorem unique_slot_ids_preserved op st :
  unique_slot_ids st →
  (∀ newId slotData, op = CreateSlot newId slotData →
     ∀ s, s ∈ uas_slots st → Slot.id s ≠ newId) →
  unique_slot_ids (store_after op st).
Proof.
  intros Huniq Hfresh. unfold unique_slot_ids in *.
  destruct (store_after_slot_ids op st)
    as [-> | [(newId & slotData & Hop & ->) | (i & d & _ & -> & _)]].
  - done.
  - apply list.NoDup_app. split_and!; [done| |apply NoDup_singleton].
    intros x [s [-> Hs]]%list_elem_of_fmap Hx%list_elem_of_singleton.
    by apply (Hfresh newId slotData Hop s).
  - rewrite list_fmap_delete. eapply sublist_NoDup; [done|apply sublist_delete].
Qed.

Lemma unique_slot_ids_preserved_witness :
  unique_slot_ids (store_after (CreateSlot "s2" demo_slotData) demo_slot).
Proof.
  apply (unique_slot_ids_preserved (CreateSlot "s2" demo_slotData) demo_slot).
  - apply NoDup_singleton.
  - intros newId slotData [= <- <-] s Hs.
    apply list_elem_of_singleton in Hs as ->. discriminate.
Defined.

Lemma teacher_slots_disjoint_ranges st st' :
  slot_range <$> uas_slots st' = slot_range <$> uas_slots st →
  teacher_slots_disjoint st → teacher_slots_disjoint st'.
Proof.
  intros Heq Hdis i j s1 s2 Hne H1 H2 Hteacher.
  assert (Hback : ∀ k s, uas_slots st' !! k = Some s →
            ∃ s0, uas_slots st !! k = Some s0 ∧ slot_range s0 = slot_range s).
  { intros k s Hk.
    assert ((slot_range <$> uas_slots st) !! k = Some (slot_range s)) as Hr.
    { by rewrite <- Heq, list_lookup_fmap, Hk. }
    rewrite list_lookup_fmap in Hr.
    destruct (uas_slots st !! k) as [s0|]; [|done].
    exists s0. split; [done|]. simpl in Hr. congruence. }
  destruct (Hback i s1 H1) as (t1 & Ht1 & [= Ha1 Hb1 Hc1]).
  destruct (Hback j s2 H2) as (t2 & Ht2 & [= Ha2 Hb2 Hc2]).
  rewrite <- Hb1, <- Hc1, <- Hb2, <- Hc2.
  apply (Hdis i j t1 t2); [done..|congruence].
Qed.

(** X18: the rule that no two slots of one teacher overlap is kept by every
    call except an [updateSlot] that carries a start or end date (the one
    path that rewrites a range without the overlap check of [createSlot]). *)
Theorem teacher_slots_disjoint_preserved op st :
  teacher_slots_disjoint st →
  (∀ slotId updates, op = UpdateSlot slotId updates →
     SlotUpdates.startISO updates = iso_absent
     ∧ SlotUpdates.endISO updates = iso_absent) →
  teacher_slots_disjoint (store_after op st).
Proof.
  intros Hdis Hupdate.
  destruct (store_after_slots op st)
    as [Hs | [(newId & slotData & _ & Hs & Hno) | [(i & s & v & Hi & Hs)
       | [(slotId & updates & i & s & Hop & Hi & Hs) | (i & s & Hi & Hs & _)]]]].
  - apply (teacher_slots_disjoint_ranges st); [by rewrite Hs|done].
  - intros i j s1 s2 Hne H1 H2 Hteacher. rewrite Hs in H1, H2.
    assert (Hnew : ∀ old, old ∈ uas_slots st →
              Slot.teacherId old = SlotData.teacherId slotData →
              slotsOverlap (Slot.startISO old) (Slot.endISO old)
                (SlotData.startISO slotData) (SlotData.endISO slotData) = false).
    { intros old Hold Hid. apply not_true_iff_false. intros Hov.
      apply Hno. by exists old. }
    apply lookup_app_Some in H1 as [H1|[Hlen1 H1]];
      apply lookup_app_Some in H2 as [H2|[Hlen2 H2]].
    + by apply (Hdis i j).
    + destruct (j - length (uas_slots st))%nat; simplify_eq/=.
      apply Hnew; [by eapply list_elem_of_lookup_2|done].
    + destruct (i - length (uas_slots st))%nat; simplify_eq/=.
      unfold slotsOverlap. rewrite andb_comm.
      apply (Hnew s2); [by eapply list_elem_of_lookup_2|done].
    + destruct (i - length (uas_slots st))%nat eqn:E1; [|done].
      destruct (j - length (uas_slots st))%nat eqn:E2; [|done]. lia.
  - apply (teacher_slots_disjoint_ranges st); [|done].
    rewrite Hs, list_fmap_insert. apply list_insert_id.
    by rewrite list_lookup_fmap, Hi.
  - destruct (Hupdate slotId updates Hop) as [Hstart Hend].
    apply (teacher_slots_disjoint_ranges st); [|done].
    rewrite Hs, list_fmap_insert. apply list_insert_id.
    rewrite list_lookup_fmap, Hi. simpl.
    unfold slot_range, SlotUpdates.spread. simpl. by rewrite Hstart, Hend.
  - intros k1 k2 s1 s2 Hne H1 H2 Hteacher. rewrite Hs in H1, H2.
    rewrite list_lookup_delete in H1, H2.
    eapply Hdis; [|exact H1|exact H2|done].
    repeat case_decide; lia.
Qed.

Lemma teacher_slots_disjoint_preserved_witness :
  teacher_slots_disjoint
    (store_after
       (CreateSlot "s2"
          (SlotData.mk "teacher1" (Some (101 * hour)) (Some (102 * hour))
             "Room 1" 2 2)) demo_slot).
Proof.
  apply teacher_slots_disjoint_preserved.
  - intros i j s1 s2 Hne H1 H2 _.
    destruct i, j; try done; simpl in *.
  - intros slotId updates Hop. discriminate Hop.
Defined.

(** ** The seat numbers under the remaining calls *)

(** X19: the seat equation and the seat bounds are kept by [createUser], by
    [deleteSlot] and by an [updateSlot] that carries neither [maxSeats] nor
    [availableSeats]; together with the four calls of the booking engine
    this covers every call that writes.  An [updateSlot] that sets
    [maxSeats] below the available seats of the slot is accepted all the
    same and breaks the bounds. *)
Theorem seat_invariants_other_calls st :
  let kept st' :=
    (seat_accounting st → seat_accounting st')
    ∧ (seats_in_bounds st → seats_in_bounds st') in
  (∀ user, kept (fst (createUser user st)))
  ∧ (∀ slotId, kept (fst (deleteSlot slotId st)))
  ∧ (∀ slotId updates,
       SlotUpdates.maxSeats updates = None →
       SlotUpdates.availableSeats updates = None →
       kept (fst (updateSlot slotId updates st)))
  ∧ (∀ slotId updates i slot m,
       first_match (λ s, Slot.id s = slotId) (uas_slots st) i slot →
       changes_time updates = false →
       SlotUpdates.maxSeats updates = Some m →
       SlotUpdates.availableSeats updates = None →
       m < Slot.availableSeats slot →
       snd (updateSlot slotId updates st)
       = Resolved (SlotUpdates.spread slot updates)
       ∧ ¬ seats_in_bounds (fst (updateSlot slotId updates st))).
Proof.
  intros kept. subst kept. split_and!.
  - intros user. rewrite createUser_run. by destruct (array_some _ _).
  - intros slotId. rewrite deleteSlot_run.
    destruct (list_find _ (uas_slots st)) as [[i s]|]; [|done].
    destruct (hasBookings _ _); [done|]. simpl. split.
    + intros Hacc x Hx. apply Hacc. by eapply list_elem_of_delete_inv.
    + intros Hb x Hx. apply Hb. by eapply list_elem_of_delete_inv.
  - intros slotId updates Hmax Havail. rewrite updateSlot_run.
    destruct (list_find _ (uas_slots st)) as [[i s]|] eqn:Hfind; [|done].
    destruct (_ && _); [done|]. simpl.
    apply list_find_Some in Hfind as (Hi & _ & _).
    assert (Hsame : ∀ x, x ∈ <[i:=SlotUpdates.spread s updates]> (uas_slots st) →
              ∃ y, y ∈ uas_slots st
                   ∧ Slot.id x = Slot.id y
                   ∧ Slot.maxSeats x = Slot.maxSeats y
                   ∧ Slot.availableSeats x = Slot.availableSeats y).
    { intros x [->|(k & _ & Hk)]%elem_of_insert_inv.
      - exists s. split; [by eapply list_elem_of_lookup_2|].
        unfold SlotUpdates.spread. simpl. by rewrite Hmax, Havail.
      - exists x. split; [by eapply list_elem_of_lookup_2|done]. }
    split.
    + intros Hacc x (y & Hy & -> & -> & ->)%Hsame. by apply Hacc.
    + intros Hb x (y & Hy & _ & -> & ->)%Hsame. by apply Hb.
  - intros slotId updates i slot m Hslot Htime Hmax Havail Hlt.
    rewrite updateSlot_run, (first_match_find _ _ _ _ Hslot).
    fold (changes_time updates). rewrite Htime, andb_false_r. simpl.
    split; [done|]. intros Hb.
    specialize (Hb (SlotUpdates.spread slot updates)).
    unfold SlotUpdates.spread in Hb. simpl in Hb. rewrite Hmax, Havail in Hb.
    simpl in Hb. cut (Slot.availableSeats slot ≤ m); [lia|].
    apply Hb. apply list_elem_of_insert. eapply lookup_lt_Some, Hslot.
Qed.

Lemma seat_invariants_other_calls_witness :
  ¬ seats_in_bounds
      (fst (updateSlot "s1"
              (SlotUpdates.mk iso_absent iso_absent None (Some 0) None) demo_slot)).
Proof.
  destruct (seat_invariants_other_calls demo_slot) as (_ & _ & _ & Hlower).
  apply (Hlower "s1" (SlotUpdates.mk iso_absent iso_absent None (Some 0) None)
           0%nat (demo_slot_s1 1) 0);
    [first_match_compute|reflexivity..].
Defined.

(** ** The queries *)

(** X20: [getSlotById] writes nothing and answers [null] exactly when no
    slot has the id; otherwise it answers the first slot with the id
    together with the first user whose id is the slot's [teacherId]
    (whatever the role of that user), or with the "Unknown" placeholder when
    there is no such user.  A slot just created under a new id is found with
    all seats available and with a stored user as its teacher. *)
Theorem getSlotById_lookup slotId st :
  fst (getSlotById slotId st) = st
  ∧ (snd (getSlotById slotId st) = Resolved None
     ↔ ∀ s, s ∈ uas_slots st → Slot.id s ≠ slotId)
  ∧ (∀ i slot,
       first_match (λ s, Slot.id s = slotId) (uas_slots st) i slot →
       ∃ teacher,
         snd (getSlotById slotId st)
         = Resolved (Some (SlotWithTeacher.mk slot teacher))
         ∧ ((∃ j, first_match (λ u, User.id u = Slot.teacherId slot)
                    (uas_users st) j teacher)
            ∨ ((∀ u, u ∈ uas_users st → User.id u ≠ Slot.teacherId slot)
               ∧ teacher = unknown_teacher)))
  ∧ (∀ slotData st0 newSlot,
       createSlot slotId slotData st0 = (st, Resolved newSlot) →
       (∀ s, s ∈ uas_slots st0 → Slot.id s ≠ slotId) →
       ∃ teacher,
         snd (getSlotById slotId st)
         = Resolved (Some (SlotWithTeacher.mk newSlot teacher))
         ∧ teacher ∈ uas_users st
         ∧ User.id teacher = SlotData.teacherId slotData
         ∧ Slot.availableSeats newSlot = Slot.maxSeats newSlot).
Proof.
  rewrite getSlotById_run. simpl. split_and!; [done| | |].
  - split.
    + destruct (array_find _ (uas_slots st)) eqn:E; [done|]. intros _.
      exact (proj1 (array_find_None _ _) E).
    + intros Hnone.
      by rewrite (proj2 (array_find_None (λ s, Slot.id s = slotId) _) Hnone).
  - intros i slot Hslot.
    rewrite (proj2 (array_find_first_match (λ s, Slot.id s = slotId) _ _))
      by (by exists i).
    simpl.
    destruct (array_find _ (uas_users st)) as [u|] eqn:Hu.
    + exists u. split; [done|]. left.
      exact (proj1 (array_find_first_match _ _ _) Hu).
    + exists unknown_teacher. split; [done|]. right. split; [|done].
      exact (proj1 (array_find_None _ _) Hu).
  - intros slotData st0 newSlot Hcreate Hfresh.
    assert (Hteacher : is_Some (array_find
              (λ u, User.id u = SlotData.teacherId slotData) (uas_users st0))).
    { revert Hcreate. rewrite createSlot_run.
      destruct (array_find _ (uas_users st0)) as [u|] eqn:Hu; [|done].
      intros _. apply array_find_Some_elem in Hu as (Hu & Hid & _).
      apply array_find_is_Some. by exists u. }
    apply createSlot_Resolved in Hcreate as [-> ->].
    cbn [uas_slots uas_users].
    rewrite (array_find_push (λ s, Slot.id s = slotId)).
    rewrite (proj2 (array_find_None (λ s, Slot.id s = slotId) _) Hfresh).
    rewrite decide_True by done.
    destruct Hteacher as [u Hu]. simpl. rewrite Hu. simpl.
    exists u. split; [done|].
    apply array_find_Some_elem in Hu as [Hin Hid]. done.
Qed.

Lemma getSlotById_lookup_witness :
  ∃ teacher,
    snd (getSlotById "s1" demo_slot)
    = Resolved (Some (SlotWithTeacher.mk (demo_slot_s1 1) teacher))
    ∧ teacher ∈ uas_users demo_slot
    ∧ User.id teacher = SlotData.teacherId demo_slotData
    ∧ Slot.availableSeats (demo_slot_s1 1) = Slot.maxSeats (demo_slot_s1 1).
Proof.
  destruct (getSlotById_lookup "s1" demo_slot) as (_ & _ & _ & Hcreated).
  apply (Hcreated demo_slotData demo_empty (demo_slot_s1 1)).
  - reflexivity.
  - intros s Hs. by apply elem_of_nil in Hs.
Defined.

Lemma getUserAppointments_run userId role st :
  getUserAppointments userId role st =
  (st, Resolved
         (enrich (uas_slots st) (uas_users st) <$>
            match role with
            | STUDENT =>
              filter (λ a, Appointment.studentId a = userId) (uas_appointments st)
            | TEACHER =>
              filter (λ a, Appointment.slotId a
                           ∈ Slot.id <$> filter (λ s, Slot.teacherId s = userId)
                                           (uas_slots st))
                (uas_appointments st)
            end)).
Proof. by destruct role. Qed.

Lemma getSlotAppointments_run slotId st :
  getSlotAppointments slotId st =
  (st, Resolved
         (enrich (uas_slots st) (uas_users st) <$>
            filter (λ a, Appointment.slotId a = slotId) (uas_appointments st))).
Proof. done. Qed.

Lemma enrich_appointment slots users (appts : list Appointment.t) :
  AppointmentWithDetails.appointment <$> (enrich slots users <$> appts) = appts.
Proof.
  rewrite <- list_fmap_compose. induction appts as [|a appts IH]; [done|].
  csimpl. by rewrite IH.
Qed.

(** X21: what the two views of [getUserAppointments] contain.  The student
    view lists exactly the appointments of the student, and the teacher view
    exactly the appointments whose [slotId] is the id of a stored slot of
    the teacher; both keep the stored order and show every status.  An
    appointment whose slot no longer exists is in no teacher's view.  When
    slot ids are unique, every row of the teacher view carries a slot of
    that teacher. *)
Theorem getUserAppointments_views userId st :
  let studentView := getUserAppointments userId STUDENT st in
  let teacherView := getUserAppointments userId TEACHER st in
  (∃ rows,
     studentView = (st, Resolved rows)
     ∧ AppointmentWithDetails.appointment <$> rows
       = filter (λ a, Appointment.studentId a = userId) (uas_appointments st))
  ∧ (∃ rows,
       teacherView = (st, Resolved rows)
       ∧ AppointmentWithDetails.appointment <$> rows `sublist_of` uas_appointments st
       ∧ (∀ a, a ∈ AppointmentWithDetails.appointment <$> rows
               ↔ a ∈ uas_appointments st
                 ∧ ∃ s, s ∈ uas_slots st
                        ∧ Slot.teacherId s = userId
                        ∧ Slot.id s = Appointment.slotId a)
       ∧ (unique_slot_ids st →
          ∀ row, row ∈ rows →
            ∃ s, AppointmentWithDetails.slot row = Some s
                 ∧ Slot.teacherId s = userId
                 ∧ Slot.id s
                   = Appointment.slotId (AppointmentWithDetails.appointment row))).
Proof.
  intros studentView teacherView. subst studentView teacherView.
  rewrite !getUserAppointments_run. split.
  - eexists. split; [done|]. apply enrich_appointment.
  - eexists. split; [done|]. rewrite enrich_appointment.
    assert (Hmem : ∀ a,
              Appointment.slotId a
              ∈ Slot.id <$> filter (λ s, Slot.teacherId s = userId) (uas_slots st)
              ↔ ∃ s, s ∈ uas_slots st ∧ Slot.teacherId s = userId
                     ∧ Slot.id s = Appointment.slotId a).
    { intros a. rewrite list_elem_of_fmap. split.
      - intros (s & Hid & [Ht Hs]%list_elem_of_filter). by exists s.
      - intros (s & Hs & Ht & Hid). exists s. split; [done|].
        by apply list_elem_of_filter. }
    split_and!.
    + apply sublist_filter.
    + intros a. rewrite list_elem_of_filter, Hmem. tauto.
    + intros Huniq row [a [-> Ha]]%list_elem_of_fmap.
      apply list_elem_of_filter in Ha as [(s & Hs & Ht & Hid)%Hmem Ha].
      exists s. unfold enrich. simpl. split; [|done].
      apply list_elem_of_lookup_1 in Hs as [k Hk].
      apply array_find_first_match. exists k. split; [done|]. split; [done|].
      intros j y Hj Hlt Hy. simpl in Hy.
      apply (unique_slot_ids_other st k s j y Huniq Hk Hj); [lia|congruence].
Qed.

Lemma getUserAppointments_views_witness :
  ∃ s, AppointmentWithDetails.slot
         (enrich (uas_slots demo_booked) (uas_users demo_booked) demo_a1) = Some s
       ∧ Slot.teacherId s = "teacher1"
       ∧ Slot.id s = Appointment.slotId demo_a1.
Proof.
  destruct (getUserAppointments_views "teacher1" demo_booked)
    as (_ & rows & Hrows & _ & _ & Hslots).
  injection Hrows as <-.
  apply (Hslots (NoDup_singleton _)
           (enrich (uas_slots demo_booked) (uas_users demo_booked) demo_a1)).
  by left.
Defined.

(** X22: after a successful [bookAppointment] the student sees the new
    booking as the last row of the student view, enriched with the slot as
    it now is (one seat less than before the call); the rows before it are
    the student's earlier appointments. *)
Theorem student_view_after_booking
    newId now stamp slotId studentId notes st st' appt :
  bookAppointment newId now stamp slotId studentId notes st
  = (st', Resolved appt) →
  ∃ rows row i slot,
    getUserAppointments studentId STUDENT st' = (st', Resolved (rows ++ [row]))
    ∧ AppointmentWithDetails.appointment <$> rows
      = filter (λ a, Appointment.studentId a = studentId) (uas_appointments st)
    ∧ AppointmentWithDetails.appointment row = appt
    ∧ Appointment.status appt = BOOKED
    ∧ first_match (λ s, Slot.id s = slotId) (uas_slots st) i slot
    ∧ AppointmentWithDetails.slot row
      = Some (Slot.set_availableSeats (Slot.availableSeats slot - 1) slot).
Proof.
  intros (i & slot & Hslot & _ & -> & ->)%bookAppointment_Resolved.
  rewrite getUserAppointments_run. cbn [uas_appointments uas_slots uas_users booked_store].
  rewrite list.filter_app, fmap_app.
  rewrite filter_cons_True by done. rewrite filter_nil.
  eexists _, _, i, slot. split; [done|].
  split; [apply enrich_appointment|].
  split; [done|]. split; [done|]. split; [done|].
  unfold enrich. simpl. unfold array_find.
  by rewrite (list_find_insert_same (λ s, Slot.id s = slotId) _ _ _
                (Slot.set_availableSeats (Slot.availableSeats slot - 1) slot)
                (first_match_find _ _ _ _ Hslot) (proj1 (proj2 Hslot))).
Qed.

Lemma student_view_after_booking_witness :
  ∃ rows row i slot,
    getUserAppointments "student1" STUDENT demo_booked
    = (demo_booked, Resolved (rows ++ [row]))
    ∧ AppointmentWithDetails.appointment <$> rows
      = filter (λ a, Appointment.studentId a = "student1")
          (uas_appointments demo_slot)
    ∧ AppointmentWithDetails.appointment row = demo_a1
    ∧ Appointment.status demo_a1 = BOOKED
    ∧ first_match (λ s, Slot.id s = "s1") (uas_slots demo_slot) i slot
    ∧ AppointmentWithDetails.slot row
      = Some (Slot.set_availableSeats (Slot.availableSeats slot - 1) slot).
Proof.
  apply (student_view_after_booking "a1" 0 0 "s1" "student1" None demo_slot).
  reflexivity.
Defined.

(** X23: [getSlotAppointments] lists exactly the appointments of the slot,
    and its BOOKED rows are the seats taken: their number is the number of
    BOOKED appointments of the slot, so that, when the seat equation holds,
    the available seats of the slot are its [maxSeats] minus the BOOKED rows
    shown. *)
Theorem getSlotAppointments_seats slotId st :
  ∃ rows,
    getSlotAppointments slotId st = (st, Resolved rows)
    ∧ AppointmentWithDetails.appointment <$> rows
      = filter (λ a, Appointment.slotId a = slotId) (uas_appointments st)
    ∧ Z.of_nat
        (length
           (filter (λ row, Appointment.status
                             (AppointmentWithDetails.appointment row) = BOOKED)
              rows))
      = booked_count slotId (uas_appointments st)
    ∧ (seat_accounting st →
       ∀ s, s ∈ uas_slots st → Slot.id s = slotId →
         Slot.availableSeats s
         = Slot.maxSeats s
           - Z.of_nat
               (length
                  (filter (λ row, Appointment.status
                                    (AppointmentWithDetails.appointment row)
                                  = BOOKED) rows))).
Proof.
  rewrite getSlotAppointments_run. eexists. split; [done|].
  split; [apply enrich_appointment|].
  assert (Hcount :
    Z.of_nat
      (length
         (filter (λ row, Appointment.status
                           (AppointmentWithDetails.appointment row) = BOOKED)
            (enrich (uas_slots st) (uas_users st) <$>
               filter (λ a, Appointment.slotId a = slotId) (uas_appointments st))))
    = booked_count slotId (uas_appointments st)).
  { induction (uas_appointments st) as [|a appts IH]; [done|].
    rewrite booked_count_cons, <- IH. unfold holds_seat.
    rewrite (filter_cons (λ a, Appointment.slotId a = slotId)).
    destruct (decide (Appointment.slotId a = slotId)) as [Hid|Hid].
    - csimpl. rewrite filter_cons. simpl.
      destruct (decide (Appointment.status a = BOOKED)) as [Hst|Hst].
      + rewrite decide_True by done. simpl. lia.
      + rewrite decide_False by (by intros [_ ?]). lia.
    - rewrite decide_False by (by intros [? _]). lia. }
  split; [done|].
  intros Hacc s Hs Hid. rewrite Hcount, <- Hid. by apply Hacc.
Qed.

Lemma getSlotAppointments_seats_witness :
  Slot.availableSeats demo_s1
  = Slot.maxSeats demo_s1 - booked_count "s1" (uas_appointments demo_booked).
Proof.
  destruct (getSlotAppointments_seats "s1" demo_booked)
    as (rows & _ & _ & Hcount & Hseats).
  rewrite <- Hcount. apply Hseats; [|by left|reflexivity].
  intros s Hs. apply list_elem_of_singleton in Hs as ->. reflexivity.
Defined.

(** ** How the calls compose *)

(** A student who holds a BOOKED appointment for a slot with a non-empty
    range cannot book it: the slot overlaps itself. *)
Lemma bookAppointment_own_conflict
    newId now stamp slotId studentId notes st i slot s e a :
  valid_student st studentId →
  first_match (λ x, Slot.id x = slotId) (uas_slots st) i slot →
  Slot.startISO slot = Some s → Slot.endISO slot = Some e → s < e →
  a ∈ uas_appointments st →
  Appointment.studentId a = studentId → Appointment.slotId a = slotId →
  Appointment.status a = BOOKED →
  ∃ err,
    bookAppointment newId now stamp slotId studentId notes st
    = (st, Rejected err)
    ∧ err ∈ [SlotFull; TooLateToBook; ConflictingAppointment].
Proof.
  intros [u Hu]%valid_student_find Hslot Hstart Hend Hlt Ha Hsid Hid Hst.
  rewrite bookAppointment_run, Hu, (first_match_find _ _ _ _ Hslot).
  destruct (bool_decide _); [eexists; split; [done|in_list]|].
  destruct (negb _); [eexists; split; [done|in_list]|].
  destruct (checkConflicts_run (uas_slots st) slot
              (studentAppointments studentId (uas_appointments st)) st)
    as [[_ ->]|[Hno _]]; [eexists; split; [done|in_list]|].
  destruct Hno. exists a, slot. split_and!.
  - unfold studentAppointments. by apply list_elem_of_filter.
  - unfold array_find. by rewrite Hid, (first_match_find _ _ _ _ Hslot).
  - rewrite Hstart, Hend. unfold slotsOverlap, num_lt.
    by rewrite bool_decide_eq_true_2.
Qed.

(** X24: no double booking while the slot keeps a non-empty range.  In any
    store where a student holds a BOOKED appointment for a slot id whose
    first stored slot has valid dates with start before end, every attempt
    of that student to book that slot is rejected, with "fully booked", the
    one-hour rule or "conflicting appointment", and writes nothing: the
    slot overlaps itself, so the student's own booking is the conflict.
    The store that a successful booking of such a slot returns is in that
    state. *)
Theorem no_double_booking newId now stamp slotId studentId notes st i slot s e :
  first_match (λ x, Slot.id x = slotId) (uas_slots st) i slot →
  Slot.startISO slot = Some s → Slot.endISO slot = Some e → s < e →
  (valid_student st studentId →
   ∀ a, a ∈ uas_appointments st →
        Appointment.studentId a = studentId → Appointment.slotId a = slotId →
        Appointment.status a = BOOKED →
        ∃ err,
          bookAppointment newId now stamp slotId studentId notes st
          = (st, Rejected err)
          ∧ err ∈ [SlotFull; TooLateToBook; ConflictingAppointment])
  ∧ (∀ st' appt,
       bookAppointment newId now stamp slotId studentId notes st
       = (st', Resolved appt) →
       ∀ newId' now' stamp' notes',
         ∃ err,
           bookAppointment newId' now' stamp' slotId studentId notes' st'
           = (st', Rejected err)
           ∧ err ∈ [SlotFull; TooLateToBook; ConflictingAppointment]).
Proof.
  intros Hslot Hstart Hend Hlt. split.
  - intros Hstudent a Ha Hsid Hid Hst.
    by eapply bookAppointment_own_conflict.
  - intros st' appt Hbook newId' now' stamp' notes'.
    assert (Hstudent : valid_student st studentId).
    { apply valid_student_find. revert Hbook. rewrite bookAppointment_run.
      destruct (array_find _ (uas_users st)); [by eexists|done]. }
    apply bookAppointment_Resolved in Hbook
      as (i' & slot' & Hslot' & _ & -> & ->).
    pose proof (first_match_find _ _ _ _ Hslot) as E.
    rewrite (first_match_find _ _ _ _ Hslot') in E. simplify_eq.
    set (booked := Slot.set_availableSeats (Slot.availableSeats slot - 1) slot).
    set (appt := Appointment.mk newId slotId studentId BOOKED notes stamp None).
    apply (bookAppointment_own_conflict newId' now' stamp' slotId studentId notes'
             (booked_store st i slot appt) i booked s e appt);
      [done| |done|done|done| |done..].
    + cbn [uas_slots booked_store].
      exact (first_match_intro _ _ _ _
               (list_find_insert_same (λ x, Slot.id x = slotId) _ _ _ booked
                  (first_match_find _ _ _ _ Hslot) (proj1 (proj2 Hslot)))).
    + cbn [uas_appointments booked_store]. apply elem_of_app. right. by left.
Qed.

Lemma no_double_booking_witness :
  ∃ err,
    bookAppointment "a9" (10 * hour) (10 * hour) "s1" "student1" None
      (mkStore demo_users
         [Slot.mk "s1" "teacher1" (Some (100 * hour)) (Some (101 * hour))
            "Room 1" 2 1]
         [demo_a1])
    = (mkStore demo_users
         [Slot.mk "s1" "teacher1" (Some (100 * hour)) (Some (101 * hour))
            "Room 1" 2 1]
         [demo_a1], Rejected err)
    ∧ err ∈ [SlotFull; TooLateToBook; ConflictingAppointment].
Proof.
  apply (proj1 (no_double_booking "a9" (10 * hour) (10 * hour) "s1" "student1" None
           (mkStore demo_users
              [Slot.mk "s1" "teacher1" (Some (100 * hour)) (Some (101 * hour))
                 "Room 1" 2 1] [demo_a1])
           0
           (Slot.mk "s1" "teacher1" (Some (100 * hour)) (Some (101 * hour))
              "Room 1" 2 1)
           (100 * hour) (101 * hour)
           ltac:(first_match_compute) eq_refl eq_refl ltac:(unfold hour; lia))
         valid_student_demo demo_a1);
    [by left|reflexivity..].
Defined.

(** The refusals of a booking on an invalid start date and on the student's
    own booking are about the fields the slot is stored with, which an
    accepted [updateSlot] rewrites.  A slot stored
    without a valid start date refuses a booking, and accepts it once
    [updateSlot] has given it one; a student who holds a booking of "s1" is
    refused a second one, and gets it once [updateSlot] has been given the
    empty string as end date (which passes its guard, and leaves a range
    that overlaps nothing). *)
Lemma updateSlot_reopens_booking :
  let undated :=
    mkStore demo_users
      [Slot.mk "s3" "teacher1" None (Some (101 * hour)) "Room 1" 1 1] [] in
  let dated :=
    SlotUpdates.mk (iso_string (Some (100 * hour))) iso_absent None None None in
  let held :=
    mkStore demo_users
      [Slot.mk "s1" "teacher1" (Some (100 * hour)) (Some (101 * hour))
         "Room 1" 2 1]
      [demo_a1] in
  let no_end := SlotUpdates.mk iso_absent iso_falsy None None None in
  bookAppointment "a9" 0 0 "s3" "student1" None undated
  = (undated, Rejected TooLateToBook)
  ∧ (bookAppointment "a9" 0 0 "s3" "student1" None
       (updateSlot "s3" dated undated).1).2
    = Resolved (Appointment.mk "a9" "s3" "student1" BOOKED None 0 None)
  ∧ bookAppointment "a2" 0 0 "s1" "student1" None held
    = (held, Rejected ConflictingAppointment)
  ∧ (updateSlot "s1" no_end held).2
    = Resolved (Slot.mk "s1" "teacher1" (Some (100 * hour)) None "Room 1" 2 1)
  ∧ uas_appointments
      (bookAppointment "a2" 0 0 "s1" "student1" None
         (updateSlot "s1" no_end held).1).1
    = [demo_a1; Appointment.mk "a2" "s1" "student1" BOOKED None 0 None].
Proof. split_and!; reflexivity. Qed.

(** X25: deleting a slot strands its finished appointments.  When slot ids
    are unique and a slot has been deleted, [cancelAppointment] on any
    appointment that references it is rejected with "Associated slot not
    found" for every acting user and writes nothing, while [markAttended]
    on it still succeeds. *)
Theorem cancel_after_deleteSlot
    slotId st st' appointmentId i appt now stamp userId :
  unique_slot_ids st →
  deleteSlot slotId st = (st', Resolved tt) →
  first_match (λ a, Appointment.id a = appointmentId) (uas_appointments st) i appt →
  Appointment.slotId appt = slotId →
  Appointment.status appt ≠ BOOKED
  ∧ cancelAppointment now stamp appointmentId userId st'
    = (st', Rejected AssociatedSlotNotFound)
  ∧ markAttended appointmentId st' = (attended_store st' i, Resolved tt).
Proof.
  intros Huniq (j & slot & Hslot & Hfree & ->)%deleteSlot_Resolved Happt Hid.
  destruct Hslot as (Hj & Hsid & _). simpl in Hsid.
  split_and!.
  - apply (proj1 (hasBookings_false _ _) Hfree appt); [|done].
    by eapply list_elem_of_lookup_2, Happt.
  - rewrite cancelAppointment_run. cbn [uas_appointments uas_slots].
    rewrite (first_match_find _ _ _ _ Happt).
    rewrite (proj1 (no_match_list_find
                      (λ s, Slot.id s = Appointment.slotId appt) _)); [done|].
    intros s (k & Hne & Hk)%elem_of_delete_index. rewrite Hid, <- Hsid.
    by eapply unique_slot_ids_other.
  - rewrite markAttended_run. cbn [uas_appointments].
    by rewrite (first_match_find _ _ _ _ Happt).
Qed.

Lemma cancel_after_deleteSlot_witness :
  Appointment.status (demo_appt_a1 CANCELLED (Some 1)) ≠ BOOKED
  ∧ cancelAppointment 0 0 "a1" "teacher1" demo_orphan
    = (demo_orphan, Rejected AssociatedSlotNotFound)
  ∧ markAttended "a1" demo_orphan = (attended_store demo_orphan 0, Resolved tt).
Proof.
  apply (cancel_after_deleteSlot "s1" demo_cancelled demo_orphan "a1" 0
           (demo_appt_a1 CANCELLED (Some 1)) 0 0 "teacher1");
    [apply NoDup_singleton|reflexivity|first_match_compute|reflexivity].
Defined.

(** * The API over a storage medium that can refuse *)

(** ** The calls over a medium and the calls of the first part *)

Lemma Io_checkConflicts_run slots slot appts st :
  Io.checkConflicts slots slot appts st
  = settled (checkConflicts slots slot appts st).
Proof.
  induction appts as [|appt rest IH]; simpl; [done|].
  destruct (array_find _ slots) as [apptSlot|]; [|done].
  by destruct (slotsOverlap _ _ _ _).
Qed.

Ltac io_unfold :=
  unfold Io.bind, Io.getFromStorage, Io.saveToStorage, Io.throw, Io.ret.

Ltac io_refused := right; eexists; reflexivity.

Lemma Io_createUser_cases medium user st :
  Io.createUser medium user st = settled (createUser user st)
  ∨ ∃ x, Io.createUser medium user st = (st, Failed (StorageError x)).
Proof.
  unfold Io.createUser. io_unfold. rewrite createUser_run.
  destruct (getItem_throws medium st USERS); [io_refused|].
  destruct (array_some _ _); [by left|].
  destruct (setItem_throws medium st USERS _); [io_refused|by left].
Qed.

Lemma Io_createSlot_cases medium newId slotData st :
  Io.createSlot medium newId slotData st = settled (createSlot newId slotData st)
  ∨ ∃ x, Io.createSlot medium newId slotData st = (st, Failed (StorageError x)).
Proof.
  unfold Io.createSlot. io_unfold. rewrite createSlot_run.
  destruct (getItem_throws medium st USERS); [io_refused|].
  destruct (array_find _ (uas_users st)); [|by left].
  destruct (num_ge _ _); [by left|].
  destruct (getItem_throws medium st SLOTS); [io_refused|].
  destruct (array_find _ (uas_slots st)); [by left|].
  destruct (setItem_throws medium st SLOTS _); [io_refused|by left].
Qed.

Lemma Io_updateSlot_cases medium slotId updates st :
  Io.updateSlot medium slotId updates st = settled (updateSlot slotId updates st)
  ∨ ∃ x, Io.updateSlot medium slotId updates st = (st, Failed (StorageError x)).
Proof.
  unfold Io.updateSlot. io_unfold. rewrite updateSlot_run.
  destruct (getItem_throws medium st SLOTS); [io_refused|].
  destruct (list_find _ (uas_slots st)) as [[i s]|]; [|by left].
  destruct (getItem_throws medium st APPOINTMENTS); [io_refused|].
  destruct (_ && _); [by left|].
  destruct (setItem_throws medium st SLOTS _); [io_refused|by left].
Qed.

Lemma Io_deleteSlot_cases medium slotId st :
  Io.deleteSlot medium slotId st = settled (deleteSlot slotId st)
  ∨ ∃ x, Io.deleteSlot medium slotId st = (st, Failed (StorageError x)).
Proof.
  unfold Io.deleteSlot. io_unfold. rewrite deleteSlot_run.
  destruct (getItem_throws medium st SLOTS); [io_refused|].
  unfold array_findIndex.
  destruct (list_find _ (uas_slots st)) as [[i s]|]; [|by left].
  simpl.
  destruct (getItem_throws medium st APPOINTMENTS); [io_refused|].
  destruct (hasBookings _ _); [by left|].
  destruct (setItem_throws medium st SLOTS _); [io_refused|by left].
Qed.

Lemma Io_markAttended_cases medium appointmentId st :
  Io.markAttended medium appointmentId st = settled (markAttended appointmentId st)
  ∨ ∃ x, Io.markAttended medium appointmentId st = (st, Failed (StorageError x)).
Proof.
  unfold Io.markAttended. io_unfold. rewrite markAttended_run.
  destruct (getItem_throws medium st APPOINTMENTS); [io_refused|].
  unfold array_findIndex.
  destruct (list_find _ (uas_appointments st)) as [[i s]|]; [|by left].
  simpl.
  destruct (setItem_throws medium st APPOINTMENTS _); [io_refused|by left].
Qed.

Lemma Io_bookAppointment_run medium newId now stamp slotId studentId notes st :
  Io.bookAppointment medium newId now stamp slotId studentId notes st =
  match getItem_throws medium st USERS with
  | Some x => (st, Failed (StorageError x))
  | None =>
  match array_find (λ u, User.id u = studentId ∧ User.role u = STUDENT)
          (uas_users st) with
  | None => (st, Failed (ApiError InvalidStudent))
  | Some _ =>
  match getItem_throws medium st SLOTS with
  | Some x => (st, Failed (StorageError x))
  | None =>
  match list_find (λ s, Slot.id s = slotId) (uas_slots st) with
  | None => (st, Failed (ApiError SlotNotFound))
  | Some (slotRef, slot) =>
    if bool_decide (Slot.availableSeats slot ≤ 0)
    then (st, Failed (ApiError SlotFull))
    else if negb (isBookingAllowed (Slot.startISO slot) now)
    then (st, Failed (ApiError TooLateToBook))
    else
      match getItem_throws medium st APPOINTMENTS with
      | Some x => (st, Failed (StorageError x))
      | None =>
      match checkConflicts (uas_slots st) slot
              (studentAppointments studentId (uas_appointments st)) st with
      | (_, Rejected e) => (st, Failed (ApiError e))
      | (_, Resolved _) =>
        let newAppointment :=
          Appointment.mk newId slotId studentId BOOKED notes stamp None in
        let appointments := uas_appointments st ++ [newAppointment] in
        let saved := mkStore (uas_users st) (uas_slots st) appointments in
        match setItem_throws medium st APPOINTMENTS appointments with
        | Some x => (st, Failed (StorageError x))
        | None =>
          match setItem_throws medium saved SLOTS
                  (uas_slots (booked_store st slotRef slot newAppointment)) with
          | Some x => (saved, Failed (StorageError x))
          | None =>
            (booked_store st slotRef slot newAppointment,
             Fulfilled newAppointment)
          end
        end
      end
      end
  end
  end
  end
  end.
Proof.
  unfold Io.bookAppointment. io_unfold.
  destruct (getItem_throws medium st USERS); [done|].
  destruct (array_find _ (uas_users st)); [|done].
  destruct (getItem_throws medium st SLOTS); [done|].
  destruct (list_find _ (uas_slots st)) as [[slotRef slot]|] eqn:Hfind; [|done].
  destruct (bool_decide _); [done|].
  destruct (negb _); [done|].
  destruct (getItem_throws medium st APPOINTMENTS); [done|].
  fold (studentAppointments studentId (uas_appointments st)).
  rewrite Io_checkConflicts_run.
  destruct (checkConflicts_run (uas_slots st) slot
              (studentAppointments studentId (uas_appointments st)) st)
    as [[_ ->]|[_ ->]]; [done|].
  cbn [settled].
  destruct (setItem_throws medium st APPOINTMENTS _); [done|].
  cbn [uas_users uas_slots uas_appointments booked_store].
  rewrite (array_set_after_update (λ s, Slot.id s = slotId) _ _ slot);
    [|done|by apply list_find_Some in Hfind as (_ & Hid & _)].
  by destruct (setItem_throws medium _ SLOTS _).
Qed.

Lemma Io_cancelAppointment_run medium now stamp appointmentId userId st :
  Io.cancelAppointment medium now stamp appointmentId userId st =
  match getItem_throws medium st APPOINTMENTS with
  | Some x => (st, Failed (StorageError x))
  | None =>
  match list_find (λ a, Appointment.id a = appointmentId)
          (uas_appointments st) with
  | None => (st, Failed (ApiError AppointmentNotFound))
  | Some (appointmentIndex, appointment) =>
  match getItem_throws medium st SLOTS with
  | Some x => (st, Failed (StorageError x))
  | None =>
    match list_find (λ s, Slot.id s = Appointment.slotId appointment)
            (uas_slots st) with
    | None => (st, Failed (ApiError AssociatedSlotNotFound))
    | Some (slotRef, slot) =>
      if bool_decide (Appointment.studentId appointment ≠ userId)
         && bool_decide (Slot.teacherId slot ≠ userId)
      then (st, Failed (ApiError NotAuthorized))
      else if bool_decide (Appointment.studentId appointment = userId)
              && negb (isWithinCancellationWindow (Slot.startISO slot) now)
      then (st, Failed (ApiError TooLateToCancel))
      else
        let final := cancelled_store st stamp appointmentIndex slotRef slot in
        let saved :=
          mkStore (uas_users st) (uas_slots st) (uas_appointments final) in
        match setItem_throws medium st APPOINTMENTS (uas_appointments final) with
        | Some x => (st, Failed (StorageError x))
        | None =>
          match setItem_throws medium saved SLOTS (uas_slots final) with
          | Some x => (saved, Failed (StorageError x))
          | None => (final, Fulfilled tt)
          end
        end
    end
  end
  end
  end.
Proof.
  unfold Io.cancelAppointment. io_unfold.
  destruct (getItem_throws medium st APPOINTMENTS); [done|].
  destruct (list_find _ (uas_appointments st)) as [[i a]|]; [|done].
  destruct (getItem_throws medium st SLOTS); [done|].
  destruct (list_find _ (uas_slots st)) as [[j s]|] eqn:Hfind; [|done].
  destruct (_ && _); [done|].
  destruct (_ && _); [done|].
  cbn [uas_users uas_slots uas_appointments cancelled_store].
  destruct (setItem_throws medium st APPOINTMENTS _); [done|].
  cbn [uas_users uas_slots uas_appointments].
  rewrite (array_set_after_update
             (λ s0, Slot.id s0 = Appointment.slotId a) _ _ s);
    [|done|by apply list_find_Some in Hfind as (_ & Hid & _)].
  by destruct (setItem_throws medium _ SLOTS _).
Qed.

Lemma fst_settled {A} (r : Store * Outcome A) : (settled r).1 = r.1.
Proof. by destruct r as [st [a|e]]. Qed.

(** Over a medium that accepts every access, the calls are those of the
    first part. *)
Lemma accepting_calls st :
  (∀ user, Io.createUser accepting user st = settled (createUser user st))
  ∧ (∀ newId slotData,
       Io.createSlot accepting newId slotData st
       = settled (createSlot newId slotData st))
  ∧ (∀ slotId updates,
       Io.updateSlot accepting slotId updates st
       = settled (updateSlot slotId updates st))
  ∧ (∀ slotId, Io.deleteSlot accepting slotId st = settled (deleteSlot slotId st))
  ∧ (∀ newId now stamp slotId studentId notes,
       Io.bookAppointment accepting newId now stamp slotId studentId notes st
       = settled (bookAppointment newId now stamp slotId studentId notes st))
  ∧ (∀ now stamp appointmentId userId,
       Io.cancelAppointment accepting now stamp appointmentId userId st
       = settled (cancelAppointment now stamp appointmentId userId st))
  ∧ (∀ appointmentId,
       Io.markAttended accepting appointmentId st
       = settled (markAttended appointmentId st)).
Proof.
  split_and!.
  - intros user. unfold Io.createUser. io_unfold.
    rewrite createUser_run. cbn [accepting getItem_throws setItem_throws].
    by destruct (array_some _ _).
  - intros newId slotData. unfold Io.createSlot. io_unfold.
    rewrite createSlot_run. cbn [accepting getItem_throws setItem_throws].
    destruct (array_find _ (uas_users st)); [|done].
    destruct (num_ge _ _); [done|].
    by destruct (array_find _ (uas_slots st)).
  - intros slotId updates. unfold Io.updateSlot. io_unfold.
    rewrite updateSlot_run. cbn [accepting getItem_throws setItem_throws].
    destruct (list_find _ (uas_slots st)) as [[i s]|]; [|done].
    by destruct (_ && _).
  - intros slotId. unfold Io.deleteSlot, array_findIndex. io_unfold.
    rewrite deleteSlot_run. cbn [accepting getItem_throws setItem_throws].
    destruct (list_find _ (uas_slots st)) as [[i s]|]; [|done]. simpl.
    by destruct (hasBookings _ _).
  - intros newId now stamp slotId studentId notes.
    rewrite Io_bookAppointment_run, bookAppointment_run.
    cbn [accepting getItem_throws setItem_throws].
    destruct (array_find _ (uas_users st)); [|done].
    destruct (list_find _ (uas_slots st)) as [[i s]|]; [|done].
    destruct (bool_decide _); [done|].
    destruct (negb _); [done|].
    by destruct (checkConflicts _ _ _ _) as [? [[]|e]].
  - intros now stamp appointmentId userId.
    rewrite Io_cancelAppointment_run, cancelAppointment_run.
    cbn [accepting getItem_throws setItem_throws].
    destruct (list_find _ (uas_appointments st)) as [[i a]|]; [|done].
    destruct (list_find _ (uas_slots st)) as [[j s]|]; [|done].
    destruct (_ && _); [done|].
    by destruct (_ && _).
  - intros appointmentId. unfold Io.markAttended, array_findIndex. io_unfold.
    rewrite markAttended_run. cbn [accepting getItem_throws setItem_throws].
    by destruct (list_find _ (uas_appointments st)) as [[i a]|].
Qed.

(** ** [bookAppointment] when a validation fails *)

(** The five validations as the code tests them. *)
Lemma validation_fails_run st now slotId studentId :
  validation_fails st now slotId studentId ↔
  match array_find (λ u, User.id u = studentId ∧ User.role u = STUDENT)
          (uas_users st) with
  | None => True
  | Some _ =>
    match list_find (λ s, Slot.id s = slotId) (uas_slots st) with
    | None => True
    | Some (_, slot) =>
      Slot.availableSeats slot ≤ 0
      ∨ isBookingAllowed (Slot.startISO slot) now = false
      ∨ conflicting (uas_slots st) slot
          (studentAppointments studentId (uas_appointments st))
    end
  end.
Proof.
  unfold validation_fails. rewrite valid_student_find.
  destruct (array_find _ (uas_users st)) as [u|] eqn:Hu.
  2:{ split; [done|]. intros _. left. by intros [? ?]. }
  destruct (list_find _ (uas_slots st)) as [[i slot]|] eqn:Hs.
  2:{ split; [done|]. intros _. right. left.
      exact (proj2 (no_match_list_find (λ s, Slot.id s = slotId) _) Hs). }
  rewrite <- student_conflict_conflicting. split.
  - intros [Hno | [Hnone | (i' & slot' & Hfirst & Hbad)]].
    + destruct Hno. by eexists.
    + apply (proj1 (no_match_list_find (λ s, Slot.id s = slotId) _)) in Hnone.
      congruence.
    + pose proof (first_match_find _ _ _ _ Hfirst) as E. by simplify_eq.
  - intros Hbad. right. right. exists i, slot.
    split; [exact (first_match_intro _ _ _ _ Hs)|done].
Qed.

(** C9: when one of the validations of [bookAppointment] fails (invalid
    student, missing slot, full slot, booking window closed, conflicting
    appointment), the call is rejected and has written nothing, whatever the
    storage medium does: users, slots and appointments are those before the
    call.  Conversely a call rejected with an [Error] of the API failed one
    of the five validations, with one of their five errors, and wrote
    nothing.  The one rejection that leaves a write behind comes from the
    medium and needs every validation to pass: [setItem] refusing the slots
    after the appointments were saved. *)
Theorem bookAppointment_rejected_no_write
    medium newId now stamp slotId studentId notes st :
  let call := Io.bookAppointment medium newId now stamp slotId studentId notes st in
  let appt := Appointment.mk newId slotId studentId BOOKED notes stamp None in
  (validation_fails st now slotId studentId → ∃ t, call = (st, Failed t))
  ∧ (∀ st' e,
       call = (st', Failed (ApiError e)) →
       st' = st
       ∧ validation_fails st now slotId studentId
       ∧ e ∈ [InvalidStudent; SlotNotFound; SlotFull; TooLateToBook;
              ConflictingAppointment])
  ∧ (∀ st' x,
       call = (st', Failed (StorageError x)) →
       st' = st
       ∨ (¬ validation_fails st now slotId studentId
          ∧ st' = mkStore (uas_users st) (uas_slots st)
                    (uas_appointments st ++ [appt]))).
Proof.
  intros call appt. subst call.
  pose proof (validation_fails_run st now slotId studentId) as Hv.
  rewrite Io_bookAppointment_run.
  assert (Hrefused : ∀ x : DOMException,
    (validation_fails st now slotId studentId →
     ∃ t, (st, Failed (A:=Appointment.t) (StorageError x)) = (st, Failed t))
    ∧ (∀ st' e,
         (st, Failed (A:=Appointment.t) (StorageError x))
         = (st', Failed (ApiError e)) →
         st' = st ∧ validation_fails st now slotId studentId
         ∧ e ∈ [InvalidStudent; SlotNotFound; SlotFull; TooLateToBook;
                ConflictingAppointment])
    ∧ (∀ st' x',
         (st, Failed (A:=Appointment.t) (StorageError x))
         = (st', Failed (StorageError x')) →
         st' = st
         ∨ (¬ validation_fails st now slotId studentId
            ∧ st' = mkStore (uas_users st) (uas_slots st)
                      (uas_appointments st ++ [appt])))).
  { intros x. split_and!; [intros _; by eexists|intros ? ? [=]|].
    intros st' x' [= <- <-]. by left. }
  assert (Hfailed : ∀ e : Error,
    validation_fails st now slotId studentId →
    e ∈ [InvalidStudent; SlotNotFound; SlotFull; TooLateToBook;
         ConflictingAppointment] →
    (validation_fails st now slotId studentId →
     ∃ t, (st, Failed (A:=Appointment.t) (ApiError e)) = (st, Failed t))
    ∧ (∀ st' e',
         (st, Failed (A:=Appointment.t) (ApiError e))
         = (st', Failed (ApiError e')) →
         st' = st ∧ validation_fails st now slotId studentId
         ∧ e' ∈ [InvalidStudent; SlotNotFound; SlotFull; TooLateToBook;
                 ConflictingAppointment])
    ∧ (∀ st' x,
         (st, Failed (A:=Appointment.t) (ApiError e))
         = (st', Failed (StorageError x)) →
         st' = st
         ∨ (¬ validation_fails st now slotId studentId
            ∧ st' = mkStore (uas_users st) (uas_slots st)
                      (uas_appointments st ++ [appt])))).
  { intros e Hfails He. split_and!; [intros _; by eexists| |intros ? ? [=]].
    by intros st' e' [= <- <-]. }
  destruct (getItem_throws medium st USERS); [apply Hrefused|].
  destruct (array_find _ (uas_users st)).
  2:{ apply Hfailed; [by apply Hv|in_list]. }
  destruct (getItem_throws medium st SLOTS); [apply Hrefused|].
  destruct (list_find _ (uas_slots st)) as [[i slot]|].
  2:{ apply Hfailed; [by apply Hv|in_list]. }
  case_bool_decide as Hfull.
  { apply Hfailed; [apply Hv; by left|in_list]. }
  destruct (isBookingAllowed _ _) eqn:Hallowed; simpl.
  2:{ apply Hfailed; [apply Hv; by right; left|in_list]. }
  destruct (getItem_throws medium st APPOINTMENTS); [apply Hrefused|].
  destruct (checkConflicts_run (uas_slots st) slot
              (studentAppointments studentId (uas_appointments st)) st)
    as [[Hyes ->]|[Hno ->]].
  { apply Hfailed; [apply Hv; by right; right|in_list]. }
  assert (Hpass : ¬ validation_fails st now slotId studentId).
  { rewrite Hv. intros [?|[?|?]]; done. }
  destruct (setItem_throws medium st APPOINTMENTS _); [apply Hrefused|].
  destruct (setItem_throws medium _ SLOTS _).
  - split_and!; [done|intros ? ? [=]|]. intros st' x [= <- <-]. by right.
  - split_and!; [done|intros ? ? [=]|intros ? ? [=]].
Qed.

Lemma bookAppointment_rejected_no_write_witness :
  ∃ t, Io.bookAppointment quota_exceeded "a2" 0 0 "s1" "student2" None demo_booked
       = (demo_booked, Failed t).
Proof.
  destruct (bookAppointment_rejected_no_write
              quota_exceeded "a2" 0 0 "s1" "student2" None demo_booked)
    as (Hfails & _ & _).
  apply Hfails. right. right. exists 0%nat, (demo_slot_s1 0).
  split; [first_match_compute|]. left. simpl. lia.
Defined.

(** The write the medium can leave behind: every validation passes, the
    appointments are saved, and [setItem] refuses the slots. *)
Lemma bookAppointment_interrupted :
  Io.bookAppointment slots_read_only "a1" 0 0 "s1" "student1" None demo_slot
  = (mkStore demo_users [demo_slot_s1 1] [demo_a1],
     Failed (StorageError (mkDOMException "QuotaExceededError")))
  ∧ ¬ validation_fails demo_slot 0 "s1" "student1".
Proof.
  split; [reflexivity|]. rewrite validation_fails_run. simpl.
  intros [?|[?|(a & s & Ha & _)]]; [lia|done|]. by apply elem_of_nil in Ha.
Qed.

(** ** What any call can do to the store, over any medium *)

(** The store after a call over a medium: the store before it (a call
    rejected before its first write), the store the call leaves over an
    accepting medium, or the store of a booking or of a cancellation cut
    short between its two writes. *)
Lemma Io_store_after_cases medium op st :
  Io.store_after medium op st = st
  ∨ Io.store_after medium op st = store_after op st
  ∨ (∃ newId now stamp slotId studentId notes i slot,
       op = BookAppointment newId now stamp slotId studentId notes
       ∧ first_match (λ s, Slot.id s = slotId) (uas_slots st) i slot
       ∧ Io.store_after medium op st
         = mkStore (uas_users st) (uas_slots st)
             (uas_appointments st
              ++ [Appointment.mk newId slotId studentId BOOKED notes stamp None]))
  ∨ (∃ now stamp appointmentId userId i,
       op = CancelAppointment now stamp appointmentId userId
       ∧ Io.store_after medium op st
         = mkStore (uas_users st) (uas_slots st)
             (alter (Appointment.set_cancelledAt stamp) i
                (alter (Appointment.set_status CANCELLED) i
                   (uas_appointments st)))).
Proof.
  destruct op; cbn [Io.store_after store_after].
  - destruct (Io_createUser_cases medium user st) as [-> | [x ->]];
      [right; left; apply fst_settled|by left].
  - destruct (Io_createSlot_cases medium newId slotData st) as [-> | [x ->]];
      [right; left; apply fst_settled|by left].
  - destruct (Io_updateSlot_cases medium slotId updates st) as [-> | [x ->]];
      [right; left; apply fst_settled|by left].
  - destruct (Io_deleteSlot_cases medium slotId st) as [-> | [x ->]];
      [right; left; apply fst_settled|by left].
  - rewrite Io_bookAppointment_run, bookAppointment_run.
    destruct (getItem_throws medium st USERS); [by left|].
    destruct (array_find _ (uas_users st)); [|by left].
    destruct (getItem_throws medium st SLOTS); [by left|].
    destruct (list_find _ (uas_slots st)) as [[i slot]|] eqn:Hslot; [|by left].
    destruct (bool_decide _); [by left|].
    destruct (negb _); [by left|].
    destruct (getItem_throws medium st APPOINTMENTS); [by left|].
    destruct (checkConflicts _ _ _ _) as [? [[]|e]]; [|by left].
    cbv zeta.
    destruct (setItem_throws medium st APPOINTMENTS _); [by left|].
    destruct (setItem_throws medium _ SLOTS _); [|by right; left].
    right. right. left. exists newId, now, stamp, slotId, studentId, notes, i, slot.
    split; [done|]. split; [exact (first_match_intro _ _ _ _ Hslot)|done].
  - rewrite Io_cancelAppointment_run, cancelAppointment_run.
    destruct (getItem_throws medium st APPOINTMENTS); [by left|].
    destruct (list_find _ (uas_appointments st)) as [[i a]|]; [|by left].
    destruct (getItem_throws medium st SLOTS); [by left|].
    destruct (list_find _ (uas_slots st)) as [[j s]|]; [|by left].
    destruct (_ && _); [by left|].
    destruct (_ && _); [by left|].
    cbv zeta.
    destruct (setItem_throws medium st APPOINTMENTS _); [by left|].
    destruct (setItem_throws medium _ SLOTS _); [|by right; left].
    do 3 right. by exists now, stamp, appointmentId, userId, i.
  - destruct (Io_markAttended_cases medium appointmentId st) as [-> | [x ->]];
      [right; left; apply fst_settled|by left].
Qed.

Lemma Io_appointment_history_step medium op st i a :
  uas_appointments st !! i = Some a →
  ∃ a', uas_appointments (Io.store_after medium op st) !! i = Some a'
        ∧ booking_record a' = booking_record a
        ∧ (Appointment.status a ≠ BOOKED → Appointment.status a' ≠ BOOKED).
Proof.
  intros Hi.
  destruct (Io_store_after_cases medium op st)
    as [-> | [-> | [(newId & now & stamp & slotId & studentId & notes & j & slot
                     & _ & _ & ->)
                   | (now & stamp & appointmentId & userId & k & _ & ->)]]].
  - by exists a.
  - by apply appointment_history_step.
  - exists a. split; [|done]. by apply lookup_app_l_Some.
  - cbn [uas_appointments]. destruct (decide (k = i)) as [->|Hne].
    + eexists. rewrite !list_lookup_alter_eq, Hi. by split.
    + exists a. by rewrite !list_lookup_alter_ne.
Qed.

(** X15: appointments are history, whatever the storage medium does.
    Through any sequence of writing API calls, each fulfilled, rejected by
    the API or cut short by the medium refusing a read or a write, an
    appointment keeps its index in the collection and its id, slot, student,
    notes and creation time: no call removes, reorders or re-targets it.
    And an appointment that is CANCELLED or ATTENDED is never BOOKED
    again. *)
Theorem appointment_history calls st i a :
  uas_appointments st !! i = Some a →
  ∃ a', uas_appointments (Io.store_after_calls calls st) !! i = Some a'
        ∧ booking_record a' = booking_record a
        ∧ (Appointment.status a ≠ BOOKED → Appointment.status a' ≠ BOOKED).
Proof.
  revert st a. induction calls as [|[medium op] calls IH]; intros st a Hi.
  - by exists a.
  - destruct (Io_appointment_history_step medium op st i a Hi)
      as (a1 & Hi1 & Hrec1 & Hst1).
    destruct (IH (Io.store_after medium op st) a1 Hi1) as (a' & Hi' & Hrec' & Hst').
    exists a'. split; [done|]. split; [congruence|]. auto.
Qed.

Lemma appointment_history_witness :
  ∃ a', uas_appointments (Io.store_after_calls demo_calls demo_booked) !! 0%nat
        = Some a'
        ∧ booking_record a' = booking_record demo_a1
        ∧ (Appointment.status demo_a1 ≠ BOOKED → Appointment.status a' ≠ BOOKED).
Proof.
  apply (appointment_history demo_calls demo_booked 0 demo_a1). reflexivity.
Defined.

(** The calls of [demo_calls] one by one: the medium cuts the first
    cancellation short after the appointment is saved as CANCELLED, so the
    seat is not given back, and refuses the deletion altogether. *)
Lemma demo_calls_run :
  Io.store_after_calls (take 2 demo_calls) demo_booked = demo_attended
  ∧ Io.store_after_calls (take 3 demo_calls) demo_booked
    = mkStore demo_users [demo_slot_s1 0]
        [demo_appt_a1 CANCELLED (Some (50 * hour))]
  ∧ Io.store_after_calls (take 4 demo_calls) demo_booked
    = Io.store_after_calls (take 3 demo_calls) demo_booked
  ∧ Io.store_after_calls demo_calls demo_booked
    = mkStore demo_users [demo_slot_s1 1]
        [demo_appt_a1 CANCELLED (Some (60 * hour))].
Proof. split_and!; reflexivity. Qed.

Lemma Io_booked_have_slot_step medium op st :
  booked_have_slot st → booked_have_slot (Io.store_after medium op st).
Proof.
  intros Hinv.
  destruct (Io_store_after_cases medium op st)
    as [-> | [-> | [(newId & now & stamp & slotId & studentId & notes & j & slot
                     & _ & Hslot & ->)
                   | (now & stamp & appointmentId & userId & k & _ & ->)]]].
  - done.
  - by apply booked_have_slot_step.
  - (* the appointment is stored, its slot is not yet rewritten *)
    intros a Ha Hst. cbn [uas_appointments uas_slots] in *.
    apply elem_of_app in Ha as [Ha|Ha%list_elem_of_singleton];
      [by apply Hinv|subst a].
    exists slot. split; [by eapply list_elem_of_lookup_2, Hslot|].
    exact (proj1 (proj2 Hslot)).
  - (* the appointment is stored as CANCELLED, the seat is not yet returned *)
    intros a Ha Hst. cbn [uas_appointments uas_slots] in *.
    apply Hinv; [|done].
    apply list_elem_of_lookup_1 in Ha as [j Hj].
    destruct (decide (k = j)) as [->|Hne].
    + rewrite !list_lookup_alter_eq in Hj.
      destruct (uas_appointments st !! j) as [x|]; [|done].
      simpl in Hj. injection Hj as <-. done.
    + rewrite !list_lookup_alter_ne in Hj by done.
      by eapply list_elem_of_lookup_2.
Qed.

(** X16: a BOOKED appointment never dangles, whatever the storage medium
    does.  If every BOOKED appointment references a stored slot, this is
    still so after any sequence of writing API calls, each fulfilled,
    rejected by the API or cut short by the medium: [bookAppointment] only
    books stored slots, [deleteSlot] refuses a slot that a BOOKED
    appointment references, and a call cut short between its two writes
    has only added a BOOKED appointment of a stored slot or turned an
    appointment CANCELLED.  (CANCELLED and ATTENDED appointments may outlive
    their slot.) *)
Theorem booked_have_slot_preserved calls st :
  booked_have_slot st → booked_have_slot (Io.store_after_calls calls st).
Proof.
  revert st. induction calls as [|[medium op] calls IH]; intros st Hinv; [done|].
  apply IH. by apply Io_booked_have_slot_step.
Qed.

Lemma booked_have_slot_preserved_witness :
  booked_have_slot (Io.store_after_calls demo_calls demo_booked).
Proof.
  apply (booked_have_slot_preserved demo_calls demo_booked).
  intros a Ha _. exists demo_s1. split; [by left|].
  apply list_elem_of_singleton in Ha as ->. reflexivity.
Defined.
